(** * SaladOverflow backend: the vote/karma ledger, accepted answers and
      the cache-invalidation sweeps

    A shallow embedding of the write handlers of
    [backend/app/routers/posts.py], [backend/app/routers/users.py] and
    [backend/app/routers/auth.py], over the tables of
    [backend/app/models/posts.py] and [backend/app/models/user.py] and the
    cache clients of [backend/app/database.py].

    Conventions of the embedding.
    - Integer columns and Python integers are [Z]; a nullable column is an
      [option].  Primary keys are the keys of a [gmap Z _]; vote rows, for
      which [.first()] and row identity matter, live in a list in insertion
      order and a row is identified by its position.
    - The SQLAlchemy session is one [DB] value passed through a handler.  The
      session's identity map makes two queries for the same primary key
      return the same object; here every mutation is an update of the table
      at that key, applied in program order, so aliasing is respected.  All
      mutations of a handler precede its single [db.commit()], hence a
      handler is one function from [DB] to [DB]; on every path that raises
      an [HTTPException] nothing has been mutated yet and the store comes
      back unchanged.  Failures of the relational store itself are outside
      the model.
    - Columns that no handler below reads or writes (titles, bodies, slugs,
      timestamps, avatar links, tags) are left out of the rows,
      and so are outbound e-mail and the verification-token table.
    - The cache is a key/value map together with a fault schedule: any
      single client call may raise.  [MockRedisClient], which
      [get_redis] hands out when no server is reachable, is a client of its
      own. *)

From Stdlib Require Import ZArith String List Lia.
From stdpp Require Import base tactics option list gmap strings pretty.

Local Open Scope string_scope.
Local Open Scope Z_scope.

(** ** Enumerations of [models/posts.py] *)

Inductive PostType := QUESTION | DISCUSSION | ANNOUNCEMENT.
Inductive VoteType := UPVOTE | DOWNVOTE.

#[global] Instance PostType_eq_dec : EqDecision PostType.
Proof. solve_decision. Defined.
#[global] Instance VoteType_eq_dec : EqDecision VoteType.
Proof. solve_decision. Defined.

(** The enumeration members are [str] subclasses; these are their values. *)
Definition VoteType_value (t : VoteType) : string :=
  match t with UPVOTE => "upvote" | DOWNVOTE => "downvote" end.

(** ** Rows *)

Module User.
Record t := mk {
  email : string;
  username : string;
  display_name : string;
  full_name : option string;
  bio : option string;
  name : option string;
  is_active : bool;
  post_count : Z;
  comment_count : Z;
  karma_score : Z
}.

Definition set_karma_score (f : Z → Z) (u : t) : t :=
  mk (email u) (username u) (display_name u) (full_name u) (bio u) (name u)
     (is_active u) (post_count u) (comment_count u)
     (f (karma_score u)).
Definition set_post_count (f : Z → Z) (u : t) : t :=
  mk (email u) (username u) (display_name u) (full_name u) (bio u) (name u)
     (is_active u) (f (post_count u)) (comment_count u)
     (karma_score u).
Definition set_comment_count (f : Z → Z) (u : t) : t :=
  mk (email u) (username u) (display_name u) (full_name u) (bio u) (name u)
     (is_active u) (post_count u) (f (comment_count u))
     (karma_score u).
Definition set_display_name (v : string) (u : t) : t :=
  mk (email u) (username u) v (full_name u) (bio u) (name u)
     (is_active u) (post_count u) (comment_count u)
     (karma_score u).
Definition set_full_name (v : option string) (u : t) : t :=
  mk (email u) (username u) (display_name u) v (bio u) (name u)
     (is_active u) (post_count u) (comment_count u)
     (karma_score u).
Definition set_bio (v : option string) (u : t) : t :=
  mk (email u) (username u) (display_name u) (full_name u) v (name u)
     (is_active u) (post_count u) (comment_count u)
     (karma_score u).
Definition set_name (v : option string) (u : t) : t :=
  mk (email u) (username u) (display_name u) (full_name u) (bio u) v
     (is_active u) (post_count u) (comment_count u)
     (karma_score u).
End User.

Module Post.
Record t := mk {
  post_type : PostType;
  author_id : Z;
  upvote_count : Z;
  downvote_count : Z;
  comment_count : Z;
  answer_count : Z;
  is_answered : bool;
  accepted_answer_id : option Z;
  is_locked : bool;
  is_deleted : bool
}.

Definition set_upvote_count (f : Z → Z) (p : t) : t :=
  mk (post_type p) (author_id p) (f (upvote_count p)) (downvote_count p)
     (comment_count p) (answer_count p) (is_answered p)
     (accepted_answer_id p) (is_locked p) (is_deleted p).
Definition set_downvote_count (f : Z → Z) (p : t) : t :=
  mk (post_type p) (author_id p) (upvote_count p) (f (downvote_count p))
     (comment_count p) (answer_count p) (is_answered p)
     (accepted_answer_id p) (is_locked p) (is_deleted p).
Definition set_comment_count (f : Z → Z) (p : t) : t :=
  mk (post_type p) (author_id p) (upvote_count p) (downvote_count p)
     (f (comment_count p)) (answer_count p) (is_answered p)
     (accepted_answer_id p) (is_locked p) (is_deleted p).
Definition set_answer_count (f : Z → Z) (p : t) : t :=
  mk (post_type p) (author_id p) (upvote_count p) (downvote_count p)
     (comment_count p) (f (answer_count p)) (is_answered p)
     (accepted_answer_id p) (is_locked p) (is_deleted p).
Definition set_accepted_answer_id (v : option Z) (p : t) : t :=
  mk (post_type p) (author_id p) (upvote_count p) (downvote_count p)
     (comment_count p) (answer_count p) (is_answered p)
     v (is_locked p) (is_deleted p).
Definition set_is_deleted (v : bool) (p : t) : t :=
  mk (post_type p) (author_id p) (upvote_count p) (downvote_count p)
     (comment_count p) (answer_count p) (is_answered p)
     (accepted_answer_id p) (is_locked p) v.
End Post.

Module Comment.
Record t := mk {
  post_id : Z;
  author_id : Z;
  parent_id : option Z;
  upvote_count : Z;
  downvote_count : Z;
  reply_count : Z;
  is_answer : bool;
  is_accepted : bool;
  is_deleted : bool
}.

Definition set_upvote_count (f : Z → Z) (c : t) : t :=
  mk (post_id c) (author_id c) (parent_id c) (f (upvote_count c))
     (downvote_count c) (reply_count c) (is_answer c) (is_accepted c)
     (is_deleted c).
Definition set_downvote_count (f : Z → Z) (c : t) : t :=
  mk (post_id c) (author_id c) (parent_id c) (upvote_count c)
     (f (downvote_count c)) (reply_count c) (is_answer c) (is_accepted c)
     (is_deleted c).
Definition set_reply_count (f : Z → Z) (c : t) : t :=
  mk (post_id c) (author_id c) (parent_id c) (upvote_count c)
     (downvote_count c) (f (reply_count c)) (is_answer c) (is_accepted c)
     (is_deleted c).
Definition set_is_accepted (v : bool) (c : t) : t :=
  mk (post_id c) (author_id c) (parent_id c) (upvote_count c)
     (downvote_count c) (reply_count c) (is_answer c) v (is_deleted c).
End Comment.

Module PostVote.
Record t := mk { id : Z; post_id : Z; user_id : Z; vote_type : VoteType }.
Definition set_vote_type (v : VoteType) (r : t) : t :=
  mk (id r) (post_id r) (user_id r) v.
End PostVote.

Module CommentVote.
Record t := mk { id : Z; comment_id : Z; user_id : Z; vote_type : VoteType }.
Definition set_vote_type (v : VoteType) (r : t) : t :=
  mk (id r) (comment_id r) (user_id r) v.
End CommentVote.

(** ** The persistent store *)

Record DB := mkDB {
  users : gmap Z User.t;
  posts : gmap Z Post.t;
  comments : gmap Z Comment.t;
  post_votes : list PostVote.t;
  comment_votes : list CommentVote.t;
  (* AUTO_INCREMENT counters of the tables *)
  next_user_id : Z;
  next_post_id : Z;
  next_comment_id : Z;
  next_post_vote_id : Z;
  next_comment_vote_id : Z
}.

Definition empty_db : DB := mkDB ∅ ∅ ∅ [] [] 1 1 1 1 1.

Definition with_users (f : gmap Z User.t → gmap Z User.t) (db : DB) : DB :=
  mkDB (f (users db)) (posts db) (comments db) (post_votes db)
       (comment_votes db) (next_user_id db) (next_post_id db)
       (next_comment_id db) (next_post_vote_id db) (next_comment_vote_id db).
Definition with_posts (f : gmap Z Post.t → gmap Z Post.t) (db : DB) : DB :=
  mkDB (users db) (f (posts db)) (comments db) (post_votes db)
       (comment_votes db) (next_user_id db) (next_post_id db)
       (next_comment_id db) (next_post_vote_id db) (next_comment_vote_id db).
Definition with_comments (f : gmap Z Comment.t → gmap Z Comment.t) (db : DB) : DB :=
  mkDB (users db) (posts db) (f (comments db)) (post_votes db)
       (comment_votes db) (next_user_id db) (next_post_id db)
       (next_comment_id db) (next_post_vote_id db) (next_comment_vote_id db).
Definition with_post_votes (f : list PostVote.t → list PostVote.t) (db : DB) : DB :=
  mkDB (users db) (posts db) (comments db) (f (post_votes db))
       (comment_votes db) (next_user_id db) (next_post_id db)
       (next_comment_id db) (next_post_vote_id db) (next_comment_vote_id db).
Definition with_comment_votes (f : list CommentVote.t → list CommentVote.t) (db : DB) : DB :=
  mkDB (users db) (posts db) (comments db) (post_votes db)
       (f (comment_votes db)) (next_user_id db) (next_post_id db)
       (next_comment_id db) (next_post_vote_id db) (next_comment_vote_id db).

(** [obj.attr = ...] on a loaded row: an update of the table at its key. *)
Definition update_user (uid : Z) (f : User.t → User.t) : DB → DB :=
  with_users (alter f uid).
Definition update_post (pid : Z) (f : Post.t → Post.t) : DB → DB :=
  with_posts (alter f pid).
Definition update_comment (cid : Z) (f : Comment.t → Comment.t) : DB → DB :=
  with_comments (alter f cid).

(** [db.query(User).filter(User.id == uid).first()]: the key and the row as
    loaded.  The handlers that run this query never change the columns they
    read from the row afterwards. *)
Definition query_author (db : DB) (uid : Z) : option (Z * User.t) :=
  match users db !! uid with Some u => Some (uid, u) | None => None end.

(** [if author: author.karma_score += delta] *)
Definition author_karma (author : option (Z * User.t)) (delta : Z) (db : DB) : DB :=
  match author with
  | Some (uid, _) => update_user uid (User.set_karma_score (λ k, k + delta)) db
  | None => db
  end.

(** [db.query(Post).filter(Post.id == post_id, Post.is_deleted == False).first()] *)
Definition query_live_post (db : DB) (post_id : Z) : option Post.t :=
  match posts db !! post_id with
  | Some p => if Post.is_deleted p then None else Some p
  | None => None
  end.

(** [db.query(Comment).filter(Comment.id == comment_id,
    Comment.is_deleted == False).first()] *)
Definition query_live_comment (db : DB) (comment_id : Z) : option Comment.t :=
  match comments db !! comment_id with
  | Some c => if Comment.is_deleted c then None else Some c
  | None => None
  end.

(** [db.query(Comment).filter(Comment.id == comment_id,
    Comment.post_id == post_id, Comment.is_deleted == False).first()] *)
Definition query_live_comment_of (db : DB) (comment_id post_id : Z) : option Comment.t :=
  match comments db !! comment_id with
  | Some c =>
      if (Comment.post_id c =? post_id) && negb (Comment.is_deleted c)
      then Some c else None
  | None => None
  end.

(** Truth value of an [Optional[int]]: [None] and [0] are false. *)
Definition truthy (v : option Z) : bool :=
  match v with Some n => negb (n =? 0) | None => false end.

(** ** The cache clients of [database.py]

    A real client holds the entries and a fault schedule: call number [n] on
    the client raises when [fault n] holds and has no effect then.  Expiry
    only ever removes entries and is not modelled. *)

Record Redis := mkRedis {
  entries : gmap string string;
  fault : nat → bool;
  calls : nat
}.

Inductive RedisClient :=
| RealRedis (r : Redis)
| MockRedisClient.

(** A cache computation: [None] is an exception that escaped. *)
Definition Cache (A : Type) : Type := RedisClient → option A * RedisClient.

Definition cache_ret {A} (a : A) : Cache A := λ c, (Some a, c).
Definition cache_bind {A B} (m : Cache A) (k : A → Cache B) : Cache B :=
  λ c, match m c with
       | (Some a, c') => k a c'
       | (None, c') => (None, c')
       end.

Notation "'do' x <- m ; k" := (cache_bind m (λ x, k))
  (at level 10, x name, m at level 100, k at level 200).
Notation "m ;; k" := (cache_bind m (λ _, k))
  (at level 100, k at level 200, right associativity).

Definition redis_call {A} (effect : gmap string string → A * gmap string string)
    (r : Redis) : option A * Redis :=
  if fault r (calls r) then (None, mkRedis (entries r) (fault r) (S (calls r)))
  else let '(a, e) := effect (entries r) in
       (Some a, mkRedis e (fault r) (S (calls r))).

Definition on_real {A} (effect : gmap string string → A * gmap string string)
    (mock : option A) : Cache A :=
  λ c, match c with
       | RealRedis r => let '(o, r') := redis_call effect r in (o, RealRedis r')
       | MockRedisClient => (mock, MockRedisClient)
       end.

(** [MockRedisClient] defines [get], [setex] and [ping] only: [delete] and
    [scan_iter] on it raise [AttributeError]. *)
Definition redis_get (key : string) : Cache (option string) :=
  on_real (λ e, (e !! key, e)) (Some None).
Definition redis_setex (key value : string) : Cache unit :=
  on_real (λ e, (tt, <[key := value]> e)) (Some tt).
Definition redis_delete (key : string) : Cache unit :=
  on_real (λ e, (tt, delete key e)) None.
(** [scan_iter(match=p + "*")]: the keys that start with [p]. *)
Definition redis_scan_iter (p : string) : Cache (list string) :=
  on_real (λ e, (filter (λ k, String.prefix p k = true) (map fst (map_to_list e)), e))
          None.

Fixpoint delete_each (keys : list string) : Cache unit :=
  match keys with
  | [] => cache_ret tt
  | key :: rest => redis_delete key ;; delete_each rest
  end.

(** [for key in redis_client.scan_iter(match=p + "*"): redis_client.delete(key)] *)
Definition sweep_prefix (p : string) : Cache unit :=
  do keys <- redis_scan_iter p ; delete_each keys.

(** [try: body  except Exception as e: logger.warning(...)] *)
Definition try_except (body : Cache unit) (c : RedisClient) : RedisClient :=
  snd (body c).

(** ** Handler results *)

Inductive Response (A : Type) :=
| Success (a : A)
| HTTPException (status_code : Z) (detail : string).
Arguments Success {A} a.
Arguments HTTPException {A} status_code detail.

Inductive PyValue := PStr (s : string) | PBool (b : bool) | PInt (n : Z).

Definition PyDict := list (string * PyValue).

(** [schemas/posts.py], [VoteResponse]; [created_at] is a timestamp. *)
Record VoteResponse := mkVoteResponse { vr_id : Z; vr_vote_type : VoteType }.

(** What a vote handler hands back to the framework: a [VoteResponse] built
    by [VoteResponse.model_validate(row)], or a plain dict. *)
Inductive VoteReturn :=
| ReturnModel (v : VoteResponse)
| ReturnDict (d : PyDict).

Definition outcome (A : Type) : Type := Response A * DB * RedisClient.
Definition response {A} (o : outcome A) : Response A := o.1.1.
Definition store {A} (o : outcome A) : DB := o.1.2.
Definition cache {A} (o : outcome A) : RedisClient := o.2.

(** ** [vote_on_post] *)

(** [.filter(PostVote.post_id == post_id, PostVote.user_id == current_user.id)] *)
Definition post_vote_filter (post_id user_id : Z) (v : PostVote.t) : Prop :=
  PostVote.post_id v = post_id ∧ PostVote.user_id v = user_id.

#[global] Instance post_vote_filter_dec post_id user_id v :
  Decision (post_vote_filter post_id user_id v).
Proof. unfold post_vote_filter. apply _. Defined.

Definition post_vote_sweep (post_id : Z) (post_author : option (Z * User.t)) : Cache unit :=
  redis_delete ("post:" +:+ pretty post_id) ;;
  sweep_prefix "posts:list:" ;;
  match post_author with
  | Some (_, a) =>
      redis_delete ("user:profile:" +:+ User.display_name a) ;;
      sweep_prefix "users:top:"
  | None => cache_ret tt
  end.

Definition vote_on_post (post_id : Z) (vote_data : VoteType) (current_user : Z)
    (db : DB) (redis_client : RedisClient) : outcome VoteReturn :=
  match query_live_post db post_id with
  | None => (HTTPException 404 "Post not found", db, redis_client)
  | Some post =>
    let post_author := query_author db (Post.author_id post) in
    match list_find (post_vote_filter post_id current_user) (post_votes db) with
    | Some (i, existing_vote) =>
      if decide (PostVote.vote_type existing_vote = vote_data) then
        (* remove vote (toggle off) *)
        let db :=
          match PostVote.vote_type existing_vote with
          | UPVOTE =>
              let db := update_post post_id (Post.set_upvote_count (λ n, n - 1)) db in
              author_karma post_author (-10) db
          | DOWNVOTE =>
              let db := update_post post_id (Post.set_downvote_count (λ n, n - 1)) db in
              author_karma post_author 2 db
          end in
        let db := with_post_votes (delete i) db in
        (Success (ReturnDict [("message", PStr "Vote removed");
                              ("action", PStr "removed")]),
         db, try_except (post_vote_sweep post_id post_author) redis_client)
      else
        (* change vote type *)
        let old_vote := PostVote.vote_type existing_vote in
        let changed := PostVote.set_vote_type vote_data existing_vote in
        let db := with_post_votes (<[i := changed]>) db in
        let db :=
          match old_vote with
          | UPVOTE =>
              let db := update_post post_id (Post.set_upvote_count (λ n, n - 1)) db in
              let db := update_post post_id (Post.set_downvote_count (λ n, n + 1)) db in
              let db := author_karma post_author (-10) db in
              author_karma post_author (-2) db
          | DOWNVOTE =>
              let db := update_post post_id (Post.set_downvote_count (λ n, n - 1)) db in
              let db := update_post post_id (Post.set_upvote_count (λ n, n + 1)) db in
              let db := author_karma post_author 2 db in
              author_karma post_author 10 db
          end in
        (Success (ReturnModel (mkVoteResponse (PostVote.id changed)
                                              (PostVote.vote_type changed))),
         db, try_except (post_vote_sweep post_id post_author) redis_client)
    | None =>
      (* create new vote *)
      let new_vote := PostVote.mk (next_post_vote_id db) post_id current_user vote_data in
      let db := mkDB (users db) (posts db) (comments db)
                     (post_votes db ++ [new_vote]) (comment_votes db)
                     (next_user_id db) (next_post_id db) (next_comment_id db)
                     (next_post_vote_id db + 1) (next_comment_vote_id db) in
      let db :=
        match vote_data with
        | UPVOTE =>
            let db := update_post post_id (Post.set_upvote_count (λ n, n + 1)) db in
            author_karma post_author 10 db
        | DOWNVOTE =>
            let db := update_post post_id (Post.set_downvote_count (λ n, n + 1)) db in
            author_karma post_author (-2) db
        end in
      (Success (ReturnModel (mkVoteResponse (PostVote.id new_vote)
                                            (PostVote.vote_type new_vote))),
       db, try_except (post_vote_sweep post_id post_author) redis_client)
    end
  end.

(** ** [vote_on_comment] *)

(** [.filter(CommentVote.comment_id == comment_id,
    CommentVote.user_id == current_user.id)] *)
Definition comment_vote_filter (comment_id user_id : Z) (v : CommentVote.t) : Prop :=
  CommentVote.comment_id v = comment_id ∧ CommentVote.user_id v = user_id.

#[global] Instance comment_vote_filter_dec comment_id user_id v :
  Decision (comment_vote_filter comment_id user_id v).
Proof. unfold comment_vote_filter. apply _. Defined.

Definition comment_vote_sweep (post_id : Z) (comment_author : option (Z * User.t)) : Cache unit :=
  sweep_prefix ("post:" +:+ pretty post_id +:+ ":comments:") ;;
  match comment_author with
  | Some (_, a) =>
      redis_delete ("user:profile:" +:+ User.display_name a) ;;
      sweep_prefix "users:top:"
  | None => cache_ret tt
  end.

Definition vote_on_comment (comment_id : Z) (vote_data : VoteType) (current_user : Z)
    (db : DB) (redis_client : RedisClient) : outcome VoteReturn :=
  match query_live_comment db comment_id with
  | None => (HTTPException 404 "Comment not found", db, redis_client)
  | Some comment =>
    let comment_author := query_author db (Comment.author_id comment) in
    let sweep := comment_vote_sweep (Comment.post_id comment) comment_author in
    match list_find (comment_vote_filter comment_id current_user) (comment_votes db) with
    | Some (i, existing_vote) =>
      if decide (CommentVote.vote_type existing_vote = vote_data) then
        (* remove vote (toggle off) *)
        let db :=
          match CommentVote.vote_type existing_vote with
          | UPVOTE =>
              let db := update_comment comment_id (Comment.set_upvote_count (λ n, n - 1)) db in
              author_karma comment_author (-5) db
          | DOWNVOTE =>
              let db := update_comment comment_id (Comment.set_downvote_count (λ n, n - 1)) db in
              author_karma comment_author 1 db
          end in
        let db := with_comment_votes (delete i) db in
        (Success (ReturnDict [("message", PStr "Vote removed");
                              ("action", PStr "removed")]),
         db, try_except sweep redis_client)
      else
        (* change vote type *)
        let old_vote := CommentVote.vote_type existing_vote in
        let changed := CommentVote.set_vote_type vote_data existing_vote in
        let db := with_comment_votes (<[i := changed]>) db in
        let db :=
          match old_vote with
          | UPVOTE =>
              let db := update_comment comment_id (Comment.set_upvote_count (λ n, n - 1)) db in
              let db := update_comment comment_id (Comment.set_downvote_count (λ n, n + 1)) db in
              let db := author_karma comment_author (-5) db in
              author_karma comment_author (-1) db
          | DOWNVOTE =>
              let db := update_comment comment_id (Comment.set_downvote_count (λ n, n - 1)) db in
              let db := update_comment comment_id (Comment.set_upvote_count (λ n, n + 1)) db in
              let db := author_karma comment_author 1 db in
              author_karma comment_author 5 db
          end in
        (Success (ReturnModel (mkVoteResponse (CommentVote.id changed)
                                              (CommentVote.vote_type changed))),
         db, try_except sweep redis_client)
    | None =>
      (* create new vote *)
      let new_vote := CommentVote.mk (next_comment_vote_id db) comment_id current_user vote_data in
      let db := mkDB (users db) (posts db) (comments db)
                     (post_votes db) (comment_votes db ++ [new_vote])
                     (next_user_id db) (next_post_id db) (next_comment_id db)
                     (next_post_vote_id db) (next_comment_vote_id db + 1) in
      let db :=
        match vote_data with
        | UPVOTE =>
            let db := update_comment comment_id (Comment.set_upvote_count (λ n, n + 1)) db in
            author_karma comment_author 5 db
        | DOWNVOTE =>
            let db := update_comment comment_id (Comment.set_downvote_count (λ n, n + 1)) db in
            author_karma comment_author (-1) db
        end in
      (Success (ReturnModel (mkVoteResponse (CommentVote.id new_vote)
                                            (CommentVote.vote_type new_vote))),
       db, try_except sweep redis_client)
    end
  end.

(** ** [accept_answer] *)

Definition accept_sweep (post_id : Z) (comment_author : option (Z * User.t)) : Cache unit :=
  redis_delete ("post:" +:+ pretty post_id) ;;
  sweep_prefix ("post:" +:+ pretty post_id +:+ ":comments:") ;;
  match comment_author with
  | Some (_, a) =>
      redis_delete ("user:profile:" +:+ User.display_name a) ;;
      sweep_prefix "users:top:"
  | None => cache_ret tt
  end.

(** The first query of the handler's [else] branch and the rows it clears:
    [if post.accepted_answer_id:] then the previously accepted comment, when
    the row exists, loses the flag and its author, when that row exists,
    loses the bonus. *)
Definition unaccept_previous (post : Post.t) (db : DB) : DB :=
  if truthy (Post.accepted_answer_id post) then
    match Post.accepted_answer_id post with
    | Some old_id =>
      match comments db !! old_id with
      | Some old_accepted =>
          let db := update_comment old_id (Comment.set_is_accepted false) db in
          let old_author := query_author db (Comment.author_id old_accepted) in
          author_karma old_author (-15) db
      | None => db
      end
    | None => db
    end
  else db.

Definition accept_answer (post_id comment_id : Z) (current_user : Z)
    (db : DB) (redis_client : RedisClient) : outcome PyDict :=
  match query_live_post db post_id with
  | None => (HTTPException 404 "Post not found", db, redis_client)
  | Some post =>
    if negb (Post.author_id post =? current_user) then
      (HTTPException 403 "Only the post author can accept answers", db, redis_client)
    else if negb (bool_decide (Post.post_type post = QUESTION)) then
      (HTTPException 400 "Only questions can have accepted answers", db, redis_client)
    else
      match query_live_comment_of db comment_id post_id with
      | Some comment =>
        if Comment.is_accepted comment &&
                bool_decide (Post.accepted_answer_id post = Some comment_id) then
          (* unaccept the answer *)
          let db := update_comment comment_id (Comment.set_is_accepted false) db in
          let db := update_post post_id (Post.set_accepted_answer_id None) db in
          let comment_author := query_author db (Comment.author_id comment) in
          let db := author_karma comment_author (-15) db in
          (Success [("message", PStr "Answer unaccepted"); ("is_accepted", PBool false)],
           db, try_except (accept_sweep post_id comment_author) redis_client)
        else
          (* unaccept any previously accepted answer, then accept this one *)
          let db := unaccept_previous post db in
          let db := update_comment comment_id (Comment.set_is_accepted true) db in
          let db := update_post post_id (Post.set_accepted_answer_id (Some comment_id)) db in
          let comment_author := query_author db (Comment.author_id comment) in
          let db := author_karma comment_author 15 db in
          (Success [("message", PStr "Answer accepted"); ("is_accepted", PBool true)],
           db, try_except (accept_sweep post_id comment_author) redis_client)
      | None => (HTTPException 404 "Comment not found", db, redis_client)
      end
  end.

(** ** [create_comment] *)

(** [schemas/posts.py], [CommentCreate]; the body text does not reach any
    column of the model. *)
Record CommentCreate := mkCommentCreate {
  cc_parent_id : option Z;
  cc_is_answer : bool
}.

(** [current_user.display_name]; the dependency [get_current_user] has
    loaded the row, see [handle] below. *)
Definition display_name_of (db : DB) (uid : Z) : string :=
  match users db !! uid with Some u => User.display_name u | None => "" end.

Definition comment_sweep (post_id : Z) (display_name : string) : Cache unit :=
  redis_delete ("post:" +:+ pretty post_id) ;;
  sweep_prefix ("post:" +:+ pretty post_id +:+ ":comments:") ;;
  sweep_prefix "posts:list:" ;;
  redis_delete ("user:profile:" +:+ display_name).

Definition create_comment (post_id : Z) (comment_data : CommentCreate) (current_user : Z)
    (db : DB) (redis_client : RedisClient) : outcome (Z * Comment.t) :=
  match query_live_post db post_id with
  | None => (HTTPException 404 "Post not found", db, redis_client)
  | Some post =>
    if Post.is_locked post then
      (HTTPException 403 "Post is locked for comments", db, redis_client)
    else
      let has_parent := truthy (cc_parent_id comment_data) in
      let parent_comment :=
        match cc_parent_id comment_data with
        | Some parent_id => query_live_comment_of db parent_id post_id
        | None => None
        end in
      if has_parent && negb (bool_decide (is_Some parent_comment)) then
        (HTTPException 404 "Parent comment not found", db, redis_client)
      else
        (* the foreign key of [parent_id], checked by the store at commit:
           a falsy, non-null parent id skipped the test above *)
        let parent_row_exists :=
          match cc_parent_id comment_data with
          | Some parent_id => bool_decide (is_Some (comments db !! parent_id))
          | None => true
          end in
        if negb parent_row_exists then
          (HTTPException 500 "Error creating comment", db, redis_client)
        else
          let new_id := next_comment_id db in
          let db_comment :=
            Comment.mk post_id current_user (cc_parent_id comment_data) 0 0 0
                       (cc_is_answer comment_data) false false in
          let db := mkDB (users db) (posts db) (<[new_id := db_comment]> (comments db))
                         (post_votes db) (comment_votes db)
                         (next_user_id db) (next_post_id db) (next_comment_id db + 1)
                         (next_post_vote_id db) (next_comment_vote_id db) in
          let db := update_post post_id (Post.set_comment_count (λ n, n + 1)) db in
          let db := if cc_is_answer comment_data
                    then update_post post_id (Post.set_answer_count (λ n, n + 1)) db
                    else db in
          let db := update_user current_user (User.set_comment_count (λ n, n + 1)) db in
          let db := if has_parent then
                      match cc_parent_id comment_data with
                      | Some parent_id =>
                          update_comment parent_id (Comment.set_reply_count (λ n, n + 1)) db
                      | None => db
                      end
                    else db in
          (Success (new_id, db_comment), db,
           try_except (comment_sweep post_id (display_name_of db current_user)) redis_client)
  end.

(** ** [create_post] and [delete_post] *)

Definition create_post_sweep (display_name : string) : Cache unit :=
  sweep_prefix "posts:list:" ;;
  sweep_prefix "posts:tags:" ;;
  redis_delete ("user:profile:" +:+ display_name) ;;
  sweep_prefix "users:top:".

(** Of [PostCreate] only [post_type] reaches a column of the model. *)
Definition create_post (post_type : PostType) (current_user : Z)
    (db : DB) (redis_client : RedisClient) : outcome (Z * Post.t) :=
  let new_id := next_post_id db in
  let db_post := Post.mk post_type current_user 0 0 0 0 false None false false in
  let db := mkDB (users db) (<[new_id := db_post]> (posts db)) (comments db)
                 (post_votes db) (comment_votes db)
                 (next_user_id db) (next_post_id db + 1) (next_comment_id db)
                 (next_post_vote_id db) (next_comment_vote_id db) in
  let db := update_user current_user (User.set_post_count (λ n, n + 1)) db in
  (Success (new_id, db_post), db,
   try_except (create_post_sweep (display_name_of db current_user)) redis_client).

Definition delete_post_sweep (post_id : Z) (display_name : string) : Cache unit :=
  redis_delete ("post:" +:+ pretty post_id) ;;
  sweep_prefix "posts:list:" ;;
  redis_delete ("user:profile:" +:+ display_name).

Definition delete_post (post_id : Z) (current_user : Z)
    (db : DB) (redis_client : RedisClient) : outcome PyDict :=
  match query_live_post db post_id with
  | None => (HTTPException 404 "Post not found", db, redis_client)
  | Some post =>
    if negb (Post.author_id post =? current_user) then
      (HTTPException 403 "You can only delete your own posts", db, redis_client)
    else
      let db := update_post post_id (Post.set_is_deleted true) db in
      (Success [("message", PStr "Post deleted successfully")], db,
       try_except (delete_post_sweep post_id (display_name_of db current_user)) redis_client)
  end.

(** ** [update_profile] of [routers/users.py] *)

(** A field of a partial update: left out of the request body, or given
    (possibly as [null]).  [profile_data.dict(exclude_unset=True)] keeps the
    given ones. *)
Inductive Field (A : Type) := Unset | Given (v : option A).
Arguments Unset {A}.
Arguments Given {A} v.

Definition field_value {A} (f : Field A) : option A :=
  match f with Unset => None | Given v => v end.

(** [schemas/user.py], [UserUpdate]: the name and two of the optional
    columns; the remaining optional columns are patched like [full_name]. *)
Record UserUpdate := mkUserUpdate {
  uu_display_name : Field string;
  uu_full_name : Field string;
  uu_bio : Field string
}.

Definition truthy_str (v : option string) : bool :=
  match v with Some s => negb (String.eqb s "") | None => false end.

(** [db.query(User).filter(User.display_name == v, User.id != uid).first()],
    tested for presence only. *)
Definition display_name_taken (db : DB) (v : string) (uid : Z) : bool :=
  existsb (λ row, String.eqb (User.display_name row.2) v && negb (row.1 =? uid))
          (map_to_list (users db)).

Definition profile_sweep (display_name : string) : Cache unit :=
  redis_delete ("user:profile:" +:+ display_name) ;;
  sweep_prefix "users:search:" ;;
  sweep_prefix "users:top:" ;;
  redis_delete "users:stats".

Definition apply_field {A} (f : Field A) (set : option A → User.t → User.t) (u : User.t) : User.t :=
  match f with Unset => u | Given v => set v u end.

Definition update_profile (profile_data : UserUpdate) (current_user : Z)
    (db : DB) (redis_client : RedisClient) : outcome (Z * User.t) :=
  (* the sweep comes first in this handler, before the store is touched *)
  let old_display_name := display_name_of db current_user in
  let redis_client := try_except (profile_sweep old_display_name) redis_client in
  let requested := field_value (uu_display_name profile_data) in
  if truthy_str requested
     && negb (bool_decide (requested = Some old_display_name))
     && display_name_taken db (default "" requested) current_user then
    (HTTPException 400 "Display name already taken", db, redis_client)
  else
    (* constraints of the [display_name] column, checked at commit: NOT NULL,
       and UNIQUE for a value the test above did not look at *)
    let rejected_at_commit :=
      match uu_display_name profile_data with
      | Unset => false
      | Given None => true
      | Given (Some v) =>
          negb (String.eqb v old_display_name) && display_name_taken db v current_user
      end in
    if rejected_at_commit then
      (HTTPException 500 "Error updating profile", db, redis_client)
    else
      let patch (u : User.t) : User.t :=
        let u := apply_field (uu_display_name profile_data)
                   (λ v, User.set_display_name (default "" v)) u in
        let u := apply_field (uu_full_name profile_data) User.set_full_name u in
        let u := apply_field (uu_bio profile_data) User.set_bio u in
        if truthy_str requested then User.set_name requested u else u in
      let db := update_user current_user patch db in
      (* [db.refresh(current_user)]; the row is there, [get_current_user]
         has loaded it *)
      match users db !! current_user with
      | Some u => (Success (current_user, u), db, redis_client)
      | None => (HTTPException 500 "Error updating profile", db, redis_client)
      end.

(** ** [register_user] of [routers/auth.py] *)

Record UserRegistration := mkUserRegistration {
  ur_email : string;
  ur_username : string;
  ur_display_name : string;
  ur_full_name : option string;
  ur_bio : option string
}.

(** [str.lower()], on ASCII letters. *)
Definition lower_ascii (c : Ascii.ascii) : Ascii.ascii :=
  let n := Ascii.nat_of_ascii c in
  if ((65 <=? n) && (n <=? 90))%nat then Ascii.ascii_of_nat (n + 32) else c.
Fixpoint lower (s : string) : string :=
  match s with
  | EmptyString => EmptyString
  | String c rest => String (lower_ascii c) (lower rest)
  end.

(** An exception raised by the handler's own code inside a [try] block. *)
Definition py_raise {A} : Cache A := λ c, (None, c).

(** The sweep starts with [redis_client = next(get_redis())]; [get_redis]
    returns a client, not an iterator, so [next] raises [TypeError] and the
    deletions after it are never reached. *)
Definition register_sweep (u : User.t) : Cache unit :=
  py_raise (A := unit) ;;
  redis_delete ("auth:username:" +:+ lower (User.username u)) ;;
  redis_delete ("auth:email:" +:+ User.email u) ;;
  redis_delete ("auth:display_name:" +:+ User.display_name u) ;;
  redis_delete "users:stats" ;;
  sweep_prefix "users:top:".

Definition register_user (user_data : UserRegistration)
    (db : DB) (redis_client : RedisClient) : outcome (Z * User.t) :=
  let clash (row : Z * User.t) : Prop :=
    User.email row.2 = ur_email user_data ∨
    User.username row.2 = ur_username user_data ∨
    User.display_name row.2 = ur_display_name user_data in
  (* the row an unordered [.first()] returns is the engine's choice; the
     model takes the first in the table's enumeration *)
  match list_find clash (map_to_list (users db)) with
  | Some (_, (_, existing_user)) =>
    if String.eqb (User.email existing_user) (ur_email user_data) then
      (HTTPException 400 "Email already registered", db, redis_client)
    else if String.eqb (User.username existing_user) (ur_username user_data) then
      (HTTPException 400 "Username already taken", db, redis_client)
    else
      (HTTPException 400 "Display name already taken", db, redis_client)
  | None =>
    let new_id := next_user_id db in
    let db_user :=
      User.mk (ur_email user_data) (ur_username user_data) (ur_display_name user_data)
              (ur_full_name user_data) (ur_bio user_data)
              (Some (ur_display_name user_data)) true 0 0 0 in
    let db := mkDB (<[new_id := db_user]> (users db)) (posts db) (comments db)
                   (post_votes db) (comment_votes db)
                   (next_user_id db + 1) (next_post_id db) (next_comment_id db)
                   (next_post_vote_id db) (next_comment_vote_id db) in
    (Success (new_id, db_user), db, try_except (register_sweep db_user) redis_client)
  end.

(** ** The endpoints: authentication, handler, response model *)

(** [auth.py], [get_current_user], from the token's subject on. *)
Definition get_current_user (sub : Z) (db : DB) : Response Z :=
  match users db !! sub with
  | None => HTTPException 401 "Could not validate credentials"
  | Some user =>
      if User.is_active user then Success sub
      else HTTPException 401 "Inactive user"
  end.

Definition dict_get (key : string) (d : PyDict) : option PyValue :=
  snd <$> List.find (λ item, String.eqb item.1 key) d.

Definition as_int (v : PyValue) : option Z :=
  match v with PInt n => Some n | _ => None end.

Definition as_VoteType (v : PyValue) : option VoteType :=
  match v with
  | PStr s => if String.eqb s "upvote" then Some UPVOTE
              else if String.eqb s "downvote" then Some DOWNVOTE
              else None
  | _ => None
  end.

(** The route decorators of both vote handlers carry
    [response_model=VoteResponse]: the framework validates what the handler
    returned against the schema, whose three fields [id], [vote_type] and
    [created_at] have no default.  A model instance passes; a mapping must
    supply every field. *)
Definition VoteResponse_validate (ret : VoteReturn) : option VoteResponse :=
  match ret with
  | ReturnModel v => Some v
  | ReturnDict d =>
      match dict_get "id" d, dict_get "vote_type" d, dict_get "created_at" d with
      | Some i, Some t, Some _ =>
          match as_int i, as_VoteType t with
          | Some n, Some vt => Some (mkVoteResponse n vt)
          | _, _ => None
          end
      | _, _, _ => None
      end
  end.

(** A return value that fails the response model is a
    [ResponseValidationError] raised after the handler has returned, outside
    its [try]; the client receives the server's plain 500. *)
Definition with_response_model (r : Response VoteReturn) : Response VoteResponse :=
  match r with
  | Success ret =>
      match VoteResponse_validate ret with
      | Some v => Success v
      | None => HTTPException 500 "Internal Server Error"
      end
  | HTTPException code detail => HTTPException code detail
  end.

Inductive Request :=
| RegisterUser (user_data : UserRegistration)
| CreatePost (post_type : PostType)
| DeletePost (post_id : Z)
| CreateComment (post_id : Z) (comment_data : CommentCreate)
| VoteOnPost (post_id : Z) (vote_data : VoteType)
| VoteOnComment (comment_id : Z) (vote_data : VoteType)
| AcceptAnswer (post_id comment_id : Z)
| UpdateProfile (profile_data : UserUpdate).

Inductive Reply :=
| ReplyUser (id : Z) (u : User.t)
| ReplyPost (id : Z) (p : Post.t)
| ReplyComment (id : Z) (c : Comment.t)
| ReplyVote (v : VoteResponse)
| ReplyDict (d : PyDict).

Definition map_response {A B} (f : A → B) (r : Response A) : Response B :=
  match r with
  | Success a => Success (f a)
  | HTTPException code detail => HTTPException code detail
  end.

Definition map_outcome {A B} (f : Response A → Response B) (o : outcome A) : outcome B :=
  (f (response o), store o, cache o).

(** [current_user: User = Depends(get_current_user)] *)
Definition authenticated {A} (sub : Z) (db : DB) (redis_client : RedisClient)
    (handler : Z → outcome A) : outcome A :=
  match get_current_user sub db with
  | Success current_user => handler current_user
  | HTTPException code detail => (HTTPException code detail, db, redis_client)
  end.

(** One request, as the client sees it.  [sub] is the subject of the bearer
    token; registration takes none. *)
Definition handle (sub : Z) (req : Request) (db : DB) (redis_client : RedisClient)
    : outcome Reply :=
  match req with
  | RegisterUser user_data =>
      map_outcome (map_response (λ r, ReplyUser r.1 r.2))
        (register_user user_data db redis_client)
  | CreatePost post_type =>
      map_outcome (map_response (λ r, ReplyPost r.1 r.2))
        (authenticated sub db redis_client (λ current_user,
           create_post post_type current_user db redis_client))
  | DeletePost post_id =>
      map_outcome (map_response ReplyDict)
        (authenticated sub db redis_client (λ current_user,
           delete_post post_id current_user db redis_client))
  | CreateComment post_id comment_data =>
      map_outcome (map_response (λ r, ReplyComment r.1 r.2))
        (authenticated sub db redis_client (λ current_user,
           create_comment post_id comment_data current_user db redis_client))
  | VoteOnPost post_id vote_data =>
      map_outcome (λ r, map_response ReplyVote (with_response_model r))
        (authenticated sub db redis_client (λ current_user,
           vote_on_post post_id vote_data current_user db redis_client))
  | VoteOnComment comment_id vote_data =>
      map_outcome (λ r, map_response ReplyVote (with_response_model r))
        (authenticated sub db redis_client (λ current_user,
           vote_on_comment comment_id vote_data current_user db redis_client))
  | AcceptAnswer post_id comment_id =>
      map_outcome (map_response ReplyDict)
        (authenticated sub db redis_client (λ current_user,
           accept_answer post_id comment_id current_user db redis_client))
  | UpdateProfile profile_data =>
      map_outcome (map_response (λ r, ReplyUser r.1 r.2))
        (authenticated sub db redis_client (λ current_user,
           update_profile profile_data current_user db redis_client))
  end.

(** A history of requests, oldest first. *)
Fixpoint run (history : list (Z * Request)) (db : DB) (redis_client : RedisClient)
    : DB * RedisClient :=
  match history with
  | [] => (db, redis_client)
  | (sub, req) :: rest =>
      let o := handle sub req db redis_client in
      run rest (store o) (cache o)
  end.

(** A store is reachable when some history of requests builds it from the
    empty one, whatever the cache did meanwhile. *)
Definition reachable (db : DB) : Prop :=
  ∃ history redis_client, (run history empty_db redis_client).1 = db.

(** * The ledger of the specification (§4.1)

    Written from the specification's words, to be compared with the
    handlers above. *)

Module Ledger.

Inductive Kind := PostKind | CommentKind.

Inductive VoteState := NoVote | Upvoted | Downvoted.

#[global] Instance VoteState_eq_dec : EqDecision VoteState.
Proof. solve_decision. Defined.

Record Tally := mkTally { upvote_count : Z; downvote_count : Z; karma_score : Z }.

(** The table of karma weights. *)
Definition weight (k : Kind) (t : VoteType) : Z :=
  match k, t with
  | PostKind, UPVOTE => 10
  | PostKind, DOWNVOTE => -2
  | CommentKind, UPVOTE => 5
  | CommentKind, DOWNVOTE => -1
  end.

Definition state_of (t : VoteType) : VoteState :=
  match t with UPVOTE => Upvoted | DOWNVOTE => Downvoted end.

(** The full delta of a vote of type [t], applied [n] times ([n] is [1]
    forward and [-1] for the reversal). *)
Definition apply_delta (k : Kind) (t : VoteType) (n : Z) (y : Tally) : Tally :=
  match t with
  | UPVOTE => mkTally (upvote_count y + n) (downvote_count y) (karma_score y + n * weight k t)
  | DOWNVOTE => mkTally (upvote_count y) (downvote_count y + n) (karma_score y + n * weight k t)
  end.

Definition forward (k : Kind) (t : VoteType) : Tally → Tally := apply_delta k t 1.
Definition reversal (k : Kind) (t : VoteType) : Tally → Tally := apply_delta k t (-1).

Definition opposite (t : VoteType) : VoteType :=
  match t with UPVOTE => DOWNVOTE | DOWNVOTE => UPVOTE end.

(** One vote request of type [t]:
    [NoVote → T] creates and applies the full delta;
    [T → T] toggles off and reverses the delta;
    [Opposite → T] reverses the opposite delta and applies the forward one. *)
Definition step (k : Kind) (s : VoteState * Tally) (t : VoteType) : VoteState * Tally :=
  let '(st, y) := s in
  match st with
  | NoVote => (state_of t, forward k t y)
  | _ =>
      if decide (st = state_of t) then (NoVote, reversal k t y)
      else (state_of t, forward k t (reversal k (opposite t) y))
  end.
Arguments step : simpl never.

Definition replay (k : Kind) (s : VoteState * Tally) (requests : list VoteType)
    : VoteState * Tally :=
  fold_left (step k) requests s.

(** What a vote held in state [st] contributes to the tally. *)
Definition held (k : Kind) (st : VoteState) (y : Tally) : Tally :=
  match st with
  | NoVote => y
  | Upvoted => forward k UPVOTE y
  | Downvoted => forward k DOWNVOTE y
  end.

(** The state alone, one request after the other. *)
Definition next_state (st : VoteState) (t : VoteType) : VoteState :=
  if decide (st = state_of t) then NoVote else state_of t.

End Ledger.

(** ** What the ledger sees of the store *)

Inductive Target := OnPost (post_id : Z) | OnComment (comment_id : Z).

Definition kind_of (tg : Target) : Ledger.Kind :=
  match tg with OnPost _ => Ledger.PostKind | OnComment _ => Ledger.CommentKind end.

Definition vote_on (tg : Target) (vote_data : VoteType) (current_user : Z)
    (db : DB) (redis_client : RedisClient) : outcome VoteReturn :=
  match tg with
  | OnPost post_id => vote_on_post post_id vote_data current_user db redis_client
  | OnComment comment_id => vote_on_comment comment_id vote_data current_user db redis_client
  end.

(** The same user voting on the same target, request after request. *)
Fixpoint vote_sequence (tg : Target) (current_user : Z) (requests : list VoteType)
    (db : DB) (redis_client : RedisClient) : DB * RedisClient :=
  match requests with
  | [] => (db, redis_client)
  | t :: rest =>
      let o := vote_on tg t current_user db redis_client in
      vote_sequence tg current_user rest (store o) (cache o)
  end.

(** The vote rows of a user on a target. *)
Definition votes_cast (tg : Target) (user_id : Z) (db : DB) : list VoteType :=
  match tg with
  | OnPost post_id =>
      PostVote.vote_type <$> filter (post_vote_filter post_id user_id) (post_votes db)
  | OnComment comment_id =>
      CommentVote.vote_type <$> filter (comment_vote_filter comment_id user_id) (comment_votes db)
  end.

Definition vote_state (tg : Target) (user_id : Z) (db : DB) : option Ledger.VoteState :=
  match votes_cast tg user_id db with
  | [] => Some Ledger.NoVote
  | [t] => Some (Ledger.state_of t)
  | _ => None
  end.

(** Counters of a live target and karma of its author, when the row is there. *)
Definition tally (tg : Target) (db : DB) : option Ledger.Tally :=
  match tg with
  | OnPost post_id =>
      post ← query_live_post db post_id;
      author ← users db !! Post.author_id post;
      Some (Ledger.mkTally (Post.upvote_count post) (Post.downvote_count post)
                           (User.karma_score author))
  | OnComment comment_id =>
      comment ← query_live_comment db comment_id;
      author ← users db !! Comment.author_id comment;
      Some (Ledger.mkTally (Comment.upvote_count comment) (Comment.downvote_count comment)
                           (User.karma_score author))
  end.

Definition observe (tg : Target) (user_id : Z) (db : DB)
    : option (Ledger.VoteState * Ledger.Tally) :=
  st ← vote_state tg user_id db;
  y ← tally tg db;
  Some (st, y).

(** * Predicates and views of the statements *)

(** ** Votes *)

(** The target of a vote is there and not soft-deleted. *)
Definition live (tg : Target) (db : DB) : Prop :=
  match tg with
  | OnPost post_id => is_Some (query_live_post db post_id)
  | OnComment comment_id => is_Some (query_live_comment db comment_id)
  end.

(** What both vote handlers return on a toggle-off. *)
Definition removed_reply : VoteReturn :=
  ReturnDict [("message", PStr "Vote removed"); ("action", PStr "removed")].

(** A user holds at most one vote row on any post and on any comment. *)
Definition one_vote_per_target (db : DB) : Prop :=
  ∀ tg user_id, (length (votes_cast tg user_id db) ≤ 1)%nat.

Definition is_success {A} (r : Response A) : Prop :=
  match r with Success _ => True | HTTPException _ _ => False end.

(** ** The cache *)

(** The part of an outcome that the client and the store see. *)
Definition committed {A} (o : outcome A) : Response A * DB := o.1.

(** No call on the server raises; the mock client never holds an entry. *)
Definition never_faults (c : RedisClient) : Prop :=
  match c with
  | RealRedis r => ∀ n, fault r n = false
  | MockRedisClient => True
  end.

(** Reading [key] completes and finds nothing. *)
Definition cache_miss (key : string) (c : RedisClient) : Prop :=
  (redis_get key c).1 = Some None.

(** On a server that answers every call, [m] completes, only removes
    entries, and removes every key in [K]. *)
Definition deletes (m : Cache unit) (K : string → Prop) : Prop :=
  ∀ r, (∀ n, fault r n = false) →
    ∃ r', m (RealRedis r) = (Some tt, RealRedis r')
          ∧ fault r' = fault r
          ∧ (∀ k, entries r !! k = None → entries r' !! k = None)
          ∧ (∀ k, K k → entries r' !! k = None).

(** ** Accepted answers *)

(** What [accept_answer] returns when it accepts. *)
Definition accepted_reply : PyDict :=
  [("message", PStr "Answer accepted"); ("is_accepted", PBool true)].

(** The invariant as the specification words it. *)
Definition at_most_one_accepted (db : DB) : Prop :=
  ∀ c1 c2 r1 r2,
    comments db !! c1 = Some r1 → comments db !! c2 = Some r2 →
    Comment.post_id r1 = Comment.post_id r2 →
    Comment.is_accepted r1 = true → Comment.is_accepted r2 = true →
    c1 = c2.

Definition accepted_answer_is_flagged (db : DB) : Prop :=
  ∀ p post c,
    posts db !! p = Some post → Post.accepted_answer_id post = Some c →
    ∃ row, comments db !! c = Some row
           ∧ Comment.post_id row = p ∧ Comment.is_accepted row = true.

Definition accept_invariant (db : DB) : Prop :=
  at_most_one_accepted db ∧ accepted_answer_is_flagged db.

(** What the accept logic reads of a post and of a comment. *)
Definition post_view (db : DB) (p : Z) : option (option Z * bool) :=
  (λ r, (Post.accepted_answer_id r, Post.is_answered r)) <$> posts db !! p.
Definition comment_view (db : DB) (c : Z) : option (Z * bool) :=
  (λ r, (Comment.post_id r, Comment.is_accepted r)) <$> comments db !! c.

(** The invariant of reachable stores, stronger than the one above: keys
    come from the counters, no post has [is_answered] set, a post's accepted
    answer is a flagged comment of that post, and a flagged comment is its
    post's accepted answer. *)
Record store_inv (db : DB) : Prop := mk_store_inv {
  inv_next : 0 < next_post_id db ∧ 0 < next_comment_id db;
  inv_post_ids : ∀ p v, post_view db p = Some v → 0 < p < next_post_id db ∧ v.2 = false;
  inv_comment_ids : ∀ c v, comment_view db c = Some v → 0 < c < next_comment_id db;
  inv_accepted : ∀ p c b, post_view db p = Some (Some c, b) → comment_view db c = Some (p, true);
  inv_flagged : ∀ c p, comment_view db c = Some (p, true) → ∃ b, post_view db p = Some (Some c, b)
}.

Definition same_views (db db' : DB) : Prop :=
  next_post_id db' = next_post_id db ∧
  next_comment_id db' = next_comment_id db ∧
  (∀ p, post_view db' p = post_view db p) ∧
  (∀ c, comment_view db' c = comment_view db c).

(** The three things [accept_answer] can do to the views of a store that
    satisfies [store_inv]: nothing (a rejection), unaccept [c], or accept
    [c] after clearing the flag of the answer accepted before, if any. *)
Inductive accept_effect (db db' : DB) (p c : Z) : Prop :=
| effect_rejected : same_views db db' → accept_effect db db' p c
| effect_unaccepted (b : bool) :
    post_view db p = Some (Some c, b) →
    comment_view db c = Some (p, true) →
    next_post_id db' = next_post_id db → next_comment_id db' = next_comment_id db →
    (∀ q, post_view db' q = if decide (q = p) then Some (None, b) else post_view db q) →
    (∀ x, comment_view db' x
          = if decide (x = c) then Some (p, false) else comment_view db x) →
    accept_effect db db' p c
| effect_accepted (old : option Z) (b f : bool) :
    post_view db p = Some (old, b) →
    old ≠ Some c →
    comment_view db c = Some (p, f) →
    next_post_id db' = next_post_id db → next_comment_id db' = next_comment_id db →
    (∀ q, post_view db' q = if decide (q = p) then Some (Some c, b) else post_view db q) →
    (∀ x, comment_view db' x
          = if decide (x = c) then Some (p, true)
            else if decide (Some x = old) then Some (p, false)
            else comment_view db x) →
    accept_effect db db' p c.

(** ** Concrete stores and caches, to exercise the statements *)

Definition alice : UserRegistration :=
  mkUserRegistration "alice@salad.dev" "alice" "Alice" None None.
Definition bob : UserRegistration :=
  mkUserRegistration "bob@salad.dev" "bob" "Bob" None None.
Definition carol : UserRegistration :=
  mkUserRegistration "carol@salad.dev" "carol" "Carol" None None.

(** Alice (1) asks a question (post 1); Bob (2) and Carol (3) each answer it
    (comments 1 and 2). *)
Definition demo_history : list (Z * Request) :=
  [ (0, RegisterUser alice); (0, RegisterUser bob); (0, RegisterUser carol);
    (1, CreatePost QUESTION);
    (2, CreateComment 1 (mkCommentCreate None true));
    (3, CreateComment 1 (mkCommentCreate None true)) ].

Definition demo_db : DB := (run demo_history empty_db MockRedisClient).1.

(** Alice has accepted Bob's answer (comment 1). *)
Definition accepted_db : DB :=
  store (handle 1 (AcceptAnswer 1 1) demo_db MockRedisClient).

(** Alice has deleted her question. *)
Definition deleted_db : DB := store (handle 1 (DeletePost 1) demo_db MockRedisClient).

(** Alice also opens a discussion (post 2). *)
Definition discussion_db : DB :=
  store (handle 1 (CreatePost DISCUSSION) demo_db MockRedisClient).

(** No handler of the repository sets [is_locked]; this is a moderator's
    write to the table. *)
Definition lock_post (post_id : Z) : DB → DB :=
  update_post post_id (λ p,
    Post.mk (Post.post_type p) (Post.author_id p) (Post.upvote_count p)
            (Post.downvote_count p) (Post.comment_count p) (Post.answer_count p)
            (Post.is_answered p) (Post.accepted_answer_id p) true (Post.is_deleted p)).

Definition locked_db : DB := lock_post 1 demo_db.

(** A server whose second call raises, holding a profile entry cached before
    the vote. *)
Definition flaky_redis : RedisClient :=
  RealRedis (mkRedis {["user:profile:Alice" := "karma_score=0"]}
                     (λ n, bool_decide (n = 1%nat)) 0).

(** * More of the handlers: what the statements below are about *)

(** ** Requests and cache contents, for the statements on all handlers *)

(** The request that casts vote [t] on target [tg]. *)
Definition vote_request (tg : Target) (t : VoteType) : Request :=
  match tg with
  | OnPost post_id => VoteOnPost post_id t
  | OnComment comment_id => VoteOnComment comment_id t
  end.


(** The entries a client holds; the mock client holds none. *)
Definition entries_of (c : RedisClient) : gmap string string :=
  match c with RealRedis r => entries r | MockRedisClient => ∅ end.

(** A cache computation that may remove entries but never adds or changes
    one, whatever calls raise. *)
Definition only_removes {A} (m : Cache A) : Prop :=
  ∀ c, entries_of (m c).2 ⊆ entries_of c.

(** The display name of a user row, when the row is there. *)
Definition name_of (db : DB) (u : Z) : option string :=
  User.display_name <$> users db !! u.

(** The reply of [accept_answer] when it takes the acceptance back. *)
Definition unaccepted_reply : PyDict :=
  [("message", PStr "Answer unaccepted"); ("is_accepted", PBool false)].

(** ** Columns no handler writes *)

(** The columns of a row that no handler of the model assigns after the row
    has been created. *)
Definition user_ident (u : User.t) : string * string * bool :=
  (User.email u, User.username u, User.is_active u).
Definition post_ident (r : Post.t) : PostType * Z * bool :=
  (Post.post_type r, Post.author_id r, Post.is_locked r).
Definition comment_ident (r : Comment.t) : Z * Z * option Z * bool * bool :=
  (Comment.post_id r, Comment.author_id r, Comment.parent_id r,
   Comment.is_answer r, Comment.is_deleted r).

Definition ident_of_user (db : DB) (u : Z) : option (string * string * bool) :=
  user_ident <$> users db !! u.
Definition ident_of_post (db : DB) (p : Z) : option (PostType * Z * bool) :=
  post_ident <$> posts db !! p.
Definition ident_of_comment (db : DB) (c : Z) : option (Z * Z * option Z * bool * bool) :=
  comment_ident <$> comments db !! c.

(** Keys are issued by the counters and every reference of a row names a
    row that is there: the author of a post, the post and the author of a
    comment, the parent of a reply (an older comment of the same post), the
    target and the voter of a vote. *)
Record rows_inv (db : DB) : Prop := mk_rows_inv {
  ri_next : 0 < next_user_id db ∧ 0 < next_post_id db ∧ 0 < next_comment_id db ∧
            0 < next_post_vote_id db ∧ 0 < next_comment_vote_id db;
  ri_users : ∀ u v, ident_of_user db u = Some v → 0 < u < next_user_id db;
  ri_posts : ∀ p ty a l, ident_of_post db p = Some (ty, a, l) →
               0 < p < next_post_id db ∧ is_Some (ident_of_user db a);
  ri_comments : ∀ c p a par ans del, ident_of_comment db c = Some (p, a, par, ans, del) →
               0 < c < next_comment_id db ∧ is_Some (ident_of_post db p) ∧
               is_Some (ident_of_user db a) ∧
               (∀ c', par = Some c' → c' < c ∧
                  ∃ a' par' ans' del',
                    ident_of_comment db c' = Some (p, a', par', ans', del'));
  ri_post_votes :
    Forall (λ v, 0 < PostVote.id v < next_post_vote_id db ∧
                 is_Some (ident_of_post db (PostVote.post_id v)) ∧
                 is_Some (ident_of_user db (PostVote.user_id v))) (post_votes db);
  ri_comment_votes :
    Forall (λ v, 0 < CommentVote.id v < next_comment_vote_id db ∧
                 is_Some (ident_of_comment db (CommentVote.comment_id v)) ∧
                 is_Some (ident_of_user db (CommentVote.user_id v))) (comment_votes db);
  ri_post_vote_ids : NoDup (PostVote.id <$> post_votes db);
  ri_comment_vote_ids : NoDup (CommentVote.id <$> comment_votes db)
}.

(** What a request that inserts no row leaves alone. *)
Definition same_rows (db db' : DB) : Prop :=
  next_user_id db' = next_user_id db ∧
  next_post_id db' = next_post_id db ∧
  next_comment_id db' = next_comment_id db ∧
  (∀ u, ident_of_user db' u = ident_of_user db u) ∧
  (∀ p, ident_of_post db' p = ident_of_post db p) ∧
  (∀ c, ident_of_comment db' c = ident_of_comment db c).

(** What a request that is not a vote leaves alone. *)
Definition same_votes (db db' : DB) : Prop :=
  post_votes db' = post_votes db ∧ comment_votes db' = comment_votes db ∧
  next_post_vote_id db' = next_post_vote_id db ∧
  next_comment_vote_id db' = next_comment_vote_id db.

(** Rows are kept: every user, post and comment of [db] is still there in
    [db'] with the columns of its identity unchanged, and a post that was
    soft-deleted still is. *)
Definition rows_kept (db db' : DB) : Prop :=
  (∀ u v, ident_of_user db u = Some v → ident_of_user db' u = Some v) ∧
  (∀ p v, ident_of_post db p = Some v → ident_of_post db' p = Some v) ∧
  (∀ c v, ident_of_comment db c = Some v → ident_of_comment db' c = Some v) ∧
  (∀ p, Post.is_deleted <$> posts db !! p = Some true →
        Post.is_deleted <$> posts db' !! p = Some true).

(** ** Vote counters against vote rows *)

Definition post_vote_of (post_id : Z) (t : VoteType) (v : PostVote.t) : Prop :=
  PostVote.post_id v = post_id ∧ PostVote.vote_type v = t.
#[global] Instance post_vote_of_dec post_id t v : Decision (post_vote_of post_id t v).
Proof. unfold post_vote_of. apply _. Defined.

Definition comment_vote_of (comment_id : Z) (t : VoteType) (v : CommentVote.t) : Prop :=
  CommentVote.comment_id v = comment_id ∧ CommentVote.vote_type v = t.
#[global] Instance comment_vote_of_dec comment_id t v :
  Decision (comment_vote_of comment_id t v).
Proof. unfold comment_vote_of. apply _. Defined.

(** Number of rows of a table that satisfy [P]. *)
Definition count_rows {A} (P : A → Prop) `{!∀ x, Decision (P x)} (l : list A) : Z :=
  Z.of_nat (length (filter P l)).

(** The two counters of a post and of a comment. *)
Definition post_counts (db : DB) (p : Z) : option (Z * Z) :=
  (λ r, (Post.upvote_count r, Post.downvote_count r)) <$> posts db !! p.
Definition comment_counts (db : DB) (c : Z) : option (Z * Z) :=
  (λ r, (Comment.upvote_count r, Comment.downvote_count r)) <$> comments db !! c.

(** [n] more votes of type [t]. *)
Definition tally_add (t : VoteType) (n : Z) (c : Z * Z) : Z * Z :=
  match t with UPVOTE => (c.1 + n, c.2) | DOWNVOTE => (c.1, c.2 + n) end.

Definition counters_match_rows (db : DB) : Prop :=
  (∀ p up down, post_counts db p = Some (up, down) →
     up = count_rows (post_vote_of p UPVOTE) (post_votes db) ∧
     down = count_rows (post_vote_of p DOWNVOTE) (post_votes db)) ∧
  (∀ c up down, comment_counts db c = Some (up, down) →
     up = count_rows (comment_vote_of c UPVOTE) (comment_votes db) ∧
     down = count_rows (comment_vote_of c DOWNVOTE) (comment_votes db)).

Definition same_counts (db db' : DB) : Prop :=
  (∀ p, post_counts db' p = post_counts db p) ∧
  (∀ c, comment_counts db' c = comment_counts db c).

(** Number of rows of a keyed table that satisfy [Q]. *)
Definition count_map {V} (Q : V → Prop) `{!∀ x, Decision (Q x)} (m : gmap Z V) : Z :=
  count_rows (λ kv : Z * V, Q kv.2) (map_to_list m).

(** ** Activity counters against rows *)

Definition post_idents (db : DB) : gmap Z (PostType * Z * bool) :=
  post_ident <$> posts db.
Definition comment_idents (db : DB) : gmap Z (Z * Z * option Z * bool * bool) :=
  comment_ident <$> comments db.

(** Rows by what they belong to, read off the identity columns. *)
Definition post_by (u : Z) (id : PostType * Z * bool) : Prop := id.1.2 = u.
Definition comment_of_post (p : Z) (id : Z * Z * option Z * bool * bool) : Prop :=
  id.1.1.1.1 = p.
Definition answer_of_post (p : Z) (id : Z * Z * option Z * bool * bool) : Prop :=
  id.1.1.1.1 = p ∧ id.1.2 = true.
Definition reply_to (c : Z) (id : Z * Z * option Z * bool * bool) : Prop :=
  id.1.1.2 = Some c.
Definition comment_by (u : Z) (id : Z * Z * option Z * bool * bool) : Prop :=
  id.1.1.1.2 = u.

#[global] Instance post_by_dec u id : Decision (post_by u id).
Proof. unfold post_by. apply _. Defined.
#[global] Instance comment_of_post_dec p id : Decision (comment_of_post p id).
Proof. unfold comment_of_post. apply _. Defined.
#[global] Instance answer_of_post_dec p id : Decision (answer_of_post p id).
Proof. unfold answer_of_post. apply _. Defined.
#[global] Instance reply_to_dec c id : Decision (reply_to c id).
Proof. unfold reply_to. apply _. Defined.
#[global] Instance comment_by_dec u id : Decision (comment_by u id).
Proof. unfold comment_by. apply _. Defined.

(** The activity counters of a post, a comment and a user. *)
Definition post_tallies (db : DB) (p : Z) : option (Z * Z) :=
  (λ r, (Post.comment_count r, Post.answer_count r)) <$> posts db !! p.
Definition comment_replies (db : DB) (c : Z) : option Z :=
  Comment.reply_count <$> comments db !! c.
Definition user_tallies (db : DB) (u : Z) : option (Z * Z) :=
  (λ r, (User.post_count r, User.comment_count r)) <$> users db !! u.

Definition tallies_match_rows (db : DB) : Prop :=
  (∀ p cc ac, post_tallies db p = Some (cc, ac) →
     cc = count_map (comment_of_post p) (comment_idents db) ∧
     ac = count_map (answer_of_post p) (comment_idents db)) ∧
  (∀ c rc, comment_replies db c = Some rc →
     rc = count_map (reply_to c) (comment_idents db)) ∧
  (∀ u pc cc, user_tallies db u = Some (pc, cc) →
     pc = count_map (post_by u) (post_idents db) ∧
     cc = count_map (comment_by u) (comment_idents db)).

Definition same_tallies (db db' : DB) : Prop :=
  (∀ p, post_tallies db' p = post_tallies db p) ∧
  (∀ c, comment_replies db' c = comment_replies db c) ∧
  (∀ u, user_tallies db' u = user_tallies db u).

(** ** Karma against the votes and acceptances in the store *)

Definition post_author (db : DB) (p : Z) : option Z := Post.author_id <$> posts db !! p.
Definition comment_author (db : DB) (c : Z) : option Z :=
  Comment.author_id <$> comments db !! c.

(** A vote of type [t] on a post, or on a comment, written by [u]. *)
Definition post_vote_for (db : DB) (u : Z) (t : VoteType) (v : PostVote.t) : Prop :=
  post_author db (PostVote.post_id v) = Some u ∧ PostVote.vote_type v = t.
Definition comment_vote_for (db : DB) (u : Z) (t : VoteType) (v : CommentVote.t) : Prop :=
  comment_author db (CommentVote.comment_id v) = Some u ∧ CommentVote.vote_type v = t.
#[global] Instance post_vote_for_dec db u t v : Decision (post_vote_for db u t v).
Proof. unfold post_vote_for. apply _. Defined.
#[global] Instance comment_vote_for_dec db u t v : Decision (comment_vote_for db u t v).
Proof. unfold comment_vote_for. apply _. Defined.

(** Author and accepted flag of every comment. *)
Definition answer_flags (db : DB) : gmap Z (Z * bool) :=
  (λ r, (Comment.author_id r, Comment.is_accepted r)) <$> comments db.
Definition accepted_answer_by (u : Z) (y : Z * bool) : Prop := y.1 = u ∧ y.2 = true.
#[global] Instance accepted_answer_by_dec u y : Decision (accepted_answer_by u y).
Proof. unfold accepted_answer_by. apply _. Defined.

(** What the votes in the store are worth to [u], by the weights of the
    ledger. *)
Definition vote_karma (db : DB) (u : Z) : Z :=
  Ledger.weight Ledger.PostKind UPVOTE
    * count_rows (post_vote_for db u UPVOTE) (post_votes db)
  + Ledger.weight Ledger.PostKind DOWNVOTE
    * count_rows (post_vote_for db u DOWNVOTE) (post_votes db)
  + Ledger.weight Ledger.CommentKind UPVOTE
    * count_rows (comment_vote_for db u UPVOTE) (comment_votes db)
  + Ledger.weight Ledger.CommentKind DOWNVOTE
    * count_rows (comment_vote_for db u DOWNVOTE) (comment_votes db).

(** Votes received plus 15 for every accepted answer. *)
Definition karma_of (db : DB) (u : Z) : Z :=
  vote_karma db u + 15 * count_map (accepted_answer_by u) (answer_flags db).

Definition user_karma (db : DB) (u : Z) : option Z := User.karma_score <$> users db !! u.

Definition karma_matches_ledger (db : DB) : Prop :=
  ∀ u k, user_karma db u = Some k → k = karma_of db u.

(** Neither karma nor an accepted flag is touched. *)
Definition same_karma (db db' : DB) : Prop :=
  (∀ u, user_karma db' u = user_karma db u) ∧ answer_flags db' = answer_flags db.

(** ** The three names of a user *)

Definition user_names (db : DB) (u : Z) : option (string * string * string) :=
  (λ r, (User.email r, User.username r, User.display_name r)) <$> users db !! u.

(** No two users share an email address, a username or a display name. *)
Definition names_unique (db : DB) : Prop :=
  ∀ u1 u2 e1 n1 d1 e2 n2 d2,
    user_names db u1 = Some (e1, n1, d1) → user_names db u2 = Some (e2, n2, d2) →
    e1 = e2 ∨ n1 = n2 ∨ d1 = d2 → u1 = u2.

(** The author of the target of a vote. *)
Definition author_of (tg : Target) (db : DB) : option Z :=
  match tg with
  | OnPost post_id => post_author db post_id
  | OnComment comment_id => comment_author db comment_id
  end.

(** ** [toggle_bookmark]

    The bookmarks live in a table of their own, which no other handler of
    the model reads or writes. *)

Module Bookmark.
Record t := mk { id : Z; post_id : Z; user_id : Z }.
End Bookmark.

Record Bookmarks := mkBookmarks {
  bookmarks : list Bookmark.t;
  next_bookmark_id : Z
}.

(** [.filter(Bookmark.post_id == post_id, Bookmark.user_id == current_user.id)] *)
Definition bookmark_filter (post_id user_id : Z) (b : Bookmark.t) : Prop :=
  Bookmark.post_id b = post_id ∧ Bookmark.user_id b = user_id.

#[global] Instance bookmark_filter_dec post_id user_id b :
  Decision (bookmark_filter post_id user_id b).
Proof. unfold bookmark_filter. apply _. Defined.

Definition bookmark_removed : PyDict :=
  [("message", PStr "Bookmark removed"); ("is_bookmarked", PBool false)].
Definition bookmark_added : PyDict :=
  [("message", PStr "Bookmark added"); ("is_bookmarked", PBool true)].

Definition toggle_bookmark (post_id : Z) (current_user : Z) (db : DB) (table : Bookmarks)
    : Response PyDict * Bookmarks :=
  match query_live_post db post_id with
  | None => (HTTPException 404 "Post not found", table)
  | Some post =>
    match list_find (bookmark_filter post_id current_user) (bookmarks table) with
    | Some (i, existing_bookmark) =>
        (Success bookmark_removed,
         mkBookmarks (delete i (bookmarks table)) (next_bookmark_id table))
    | None =>
        let new_bookmark :=
          Bookmark.mk (next_bookmark_id table) post_id current_user in
        (Success bookmark_added,
         mkBookmarks (bookmarks table ++ [new_bookmark]) (next_bookmark_id table + 1))
    end
  end.

(** The bookmark rows of a user on a post. *)
Definition bookmarks_of (post_id user_id : Z) (table : Bookmarks) : list Bookmark.t :=
  filter (bookmark_filter post_id user_id) (bookmarks table).

Definition one_bookmark_per_post (table : Bookmarks) : Prop :=
  ∀ post_id user_id, (length (bookmarks_of post_id user_id table) ≤ 1)%nat.

(** A table to exercise the statements: Bob (2) has bookmarked post 1. *)
Definition demo_bookmarks : Bookmarks := mkBookmarks [Bookmark.mk 1 1 2] 2.

(** ** The availability checks of [routers/auth.py]

    [json.dumps] and [json.loads] are the library's; the checks are modelled
    over any pair of them, [json_loads] answering [None] where the library
    raises. *)

Section availability.
Context (json_dumps : PyDict → string) (json_loads : string → option PyDict).

(** [db.query(User).filter(column == value).first()], tested for presence. *)
Definition user_with (column : User.t → string) (value : string) (db : DB) : bool :=
  existsb (λ row : Z * User.t, String.eqb (column row.2) value) (map_to_list (users db)).

(** The first [try] block: a hit is returned as parsed; a miss, a cache
    error and an entry that fails to parse fall through to the query. *)
Definition cached_reply (cache_key : string) (redis_client : RedisClient)
    : option PyDict * RedisClient :=
  match redis_get cache_key redis_client with
  | (Some (Some cached_data), c) => (json_loads cached_data, c)
  | (_, c) => (None, c)
  end.

(** The shape the three checks share: answer from the cache, or compute
    [result] from the store, cache it and answer it. *)
Definition answer_cached (cache_key : string) (result : PyDict)
    (redis_client : RedisClient) : PyDict * RedisClient :=
  match cached_reply cache_key redis_client with
  | (Some cached, c) => (cached, c)
  | (None, c) => (result, try_except (redis_setex cache_key (json_dumps result)) c)
  end.

Definition check_email_availability (email : string) (db : DB)
    (redis_client : RedisClient) : PyDict * RedisClient :=
  let cache_key := "auth:email:" +:+ email in
  let existing_user := user_with User.email email db in
  answer_cached cache_key
    [("email", PStr email); ("available", PBool (negb existing_user))] redis_client.

Definition check_username_availability (username : string) (db : DB)
    (redis_client : RedisClient) : PyDict * RedisClient :=
  let cache_key := "auth:username:" +:+ lower username in
  let existing_user := user_with User.username (lower username) db in
  answer_cached cache_key
    [("username", PStr username); ("available", PBool (negb existing_user))] redis_client.

(** [display_name[1:]] when the name starts with ["@"]. *)
Definition strip_at (display_name : string) : string :=
  if String.prefix "@" display_name
  then String.substring 1 (String.length display_name - 1) display_name
  else display_name.

Definition check_display_name_availability (display_name : string) (db : DB)
    (redis_client : RedisClient) : PyDict * RedisClient :=
  let display_name := strip_at display_name in
  let cache_key := "auth:display_name:" +:+ display_name in
  let existing_user := user_with User.display_name display_name db in
  answer_cached cache_key
    [("display_name", PStr display_name); ("available", PBool (negb existing_user))]
    redis_client.

(** The three endpoints. *)
Inductive NameCheck := CheckEmail | CheckUsername | CheckDisplayName.

Definition check_availability (which : NameCheck) : string → DB → RedisClient
    → PyDict * RedisClient :=
  match which with
  | CheckEmail => check_email_availability
  | CheckUsername => check_username_availability
  | CheckDisplayName => check_display_name_availability
  end.

End availability.

(** A codec to exercise the statements: [key=text;key=true] for a reply of
    a string and a boolean. *)
Definition demo_dumps (d : PyDict) : string :=
  match d with
  | [(k1, PStr v1); (k2, PBool b)] =>
      k1 +:+ "=" +:+ v1 +:+ ";" +:+ k2 +:+ "=" +:+ (if b then "true" else "false")
  | _ => ""
  end.

Definition demo_loads (s : string) : option PyDict :=
  i ← String.index 0 "=" s;
  j ← String.index 0 ";" s;
  let k1 := String.substring 0 i s in
  let v1 := String.substring (i + 1) (j - i - 1) s in
  let rest := String.substring (j + 1) (String.length s - j - 1) s in
  i2 ← String.index 0 "=" rest;
  let k2 := String.substring 0 i2 rest in
  let v2 := String.substring (i2 + 1) (String.length rest - i2 - 1) rest in
  if String.eqb v2 "true" then Some [(k1, PStr v1); (k2, PBool true)]
  else if String.eqb v2 "false" then Some [(k1, PStr v1); (k2, PBool false)]
  else None.

Definition dave : UserRegistration :=
  mkUserRegistration "dave@salad.dev" "dave" "Dave" None None.

(** A server that answers every call and holds no entry. *)
Definition empty_redis : Redis := mkRedis ∅ (λ _, false) 0.

(** ** A store with votes, an accepted answer and a reply *)

Definition busy_history : list (Z * Request) :=
  (demo_history ++
   [ (2, VoteOnPost 1 UPVOTE); (3, VoteOnPost 1 DOWNVOTE);
     (1, VoteOnComment 1 UPVOTE); (3, VoteOnComment 1 UPVOTE);
     (1, VoteOnComment 2 DOWNVOTE);
     (1, AcceptAnswer 1 1);
     (3, CreateComment 1 (mkCommentCreate (Some 1) false)) ])%list.

Definition busy_db : DB := (run busy_history empty_db MockRedisClient).1.

Definition warm_redis : RedisClient :=
  RealRedis (mkRedis
    (list_to_map
       [("post:1", "p"); ("post:1:comments:1:20", "c"); ("posts:list:1:20:newest", "l");
        ("posts:tags:python", "g"); ("user:profile:Alice", "a");
        ("user:profile:Bob", "b"); ("users:search:al", "s");
        ("users:top:karma:10", "t"); ("users:stats", "n")])
    (λ _, false) 0).

(** * Lemmas on [.first()] and the rows of a filter *)

Section first_and_filter.
Context {A : Type} (P : A → Prop) `{!∀ x, Decision (P x)}.

Lemma first_of_no_row (l : list A) : filter P l = [] → list_find P l = None.
Proof.
  intros Hnil. apply list_find_None, Forall_forall.
  intros x Hx HP. by eapply filter_nil_not_elem_of.
Qed.

Lemma no_row_of_first (l : list A) : list_find P l = None → filter P l = [].
Proof.
  rewrite list_find_None. induction 1 as [|x l Hx _ IH]; [done|].
  by rewrite filter_cons_False.
Qed.

Lemma first_of_one_row (l : list A) (x : A) :
  filter P l = [x] →
  ∃ i, list_find P l = Some (i, x)
       ∧ filter P (delete i l) = []
       ∧ ∀ y, P y → filter P (<[i := y]> l) = [y].
Proof.
  induction l as [|a l IH]; [done|].
  rewrite filter_cons. destruct (decide (P a)) as [Ha|Ha].
  - intros Hx. injection Hx as -> Hnil. exists 0%nat. split_and!.
    + cbn. by rewrite decide_True.
    + done.
    + intros y Hy. change (<[0%nat := y]> (x :: l)) with (y :: l).
      by rewrite filter_cons_True, Hnil.
  - intros (i & Hfind & Hdel & Hins)%IH. exists (S i). split_and!.
    + cbn. rewrite decide_False by done. by rewrite Hfind.
    + change (delete (S i) (a :: l)) with (a :: delete i l).
      by rewrite filter_cons_False.
    + intros y Hy. change (<[S i := y]> (a :: l)) with (a :: <[i := y]> l).
      rewrite filter_cons_False by done. auto.
Qed.

Lemma first_is_a_row (l : list A) (i : nat) (x : A) :
  list_find P l = Some (i, x) → l !! i = Some x ∧ P x.
Proof. rewrite list_find_Some. by intros (? & ? & _). Qed.

Lemma rows_after_delete (l : list A) (i : nat) :
  (length (filter P (delete i l)) ≤ length (filter P l))%nat.
Proof.
  revert i. induction l as [|a l IH]; intros [|i]; [done|done| |].
  - change (delete 0%nat (a :: l)) with l.
    rewrite filter_cons. destruct (decide (P a)); cbn; lia.
  - change (delete (S i) (a :: l)) with (a :: delete i l).
    rewrite !filter_cons. specialize (IH i). destruct (decide (P a)); cbn; lia.
Qed.

Lemma rows_after_update (l : list A) (i : nat) (x y : A) :
  l !! i = Some x → (P x ↔ P y) →
  length (filter P (<[i := y]> l)) = length (filter P l).
Proof.
  revert i. induction l as [|a l IH]; intros [|i]; [done|done| |].
  - intros Hx Hxy. injection Hx as ->.
    change (<[0%nat := y]> (x :: l)) with (y :: l).
    rewrite !filter_cons.
    destruct (decide (P x)), (decide (P y)); cbn; try done; exfalso; tauto.
  - intros Hi Hxy. change (<[S i := y]> (a :: l)) with (a :: <[i := y]> l).
    rewrite !filter_cons. specialize (IH i Hi Hxy).
    destruct (decide (P a)); cbn; lia.
Qed.

Lemma first_of_appended (l : list A) (y : A) :
  filter P l = [] → P y → list_find P (l ++ [y]) = Some (length l, y).
Proof.
  intros Hnil Hy. rewrite list_find_app_r by by apply first_of_no_row.
  cbn. rewrite decide_True by done. cbn. do 2 f_equal; lia.
Qed.

Lemma delete_appended (l : list A) (y : A) :
  delete (length l) (l ++ [y])%list = l.
Proof. rewrite delete_middle. apply app_nil_r. Qed.
End first_and_filter.

Lemma alter_undo `{Countable K} {V} (f g : V → V) (k : K) (m : gmap K V) :
  (∀ x, f (g x) = x) → alter f k (alter g k m) = m.
Proof.
  intros Hfg. rewrite alter_alter_eq. apply alter_id. intros x _. apply Hfg.
Qed.

(** * The vote handlers against the ledger *)

Lemma query_live_post_Some db p post :
  query_live_post db p = Some post ↔
  posts db !! p = Some post ∧ Post.is_deleted post = false.
Proof.
  unfold query_live_post.
  destruct (posts db !! p) as [q|]; [|split; [done|by intros [? _]]].
  destruct (Post.is_deleted q) eqn:E; split; try done.
  - intros [[= ->] ?]; congruence.
  - by intros [= ->].
  - by intros [[= ->] _].
Qed.

Lemma query_live_comment_Some db c row :
  query_live_comment db c = Some row ↔
  comments db !! c = Some row ∧ Comment.is_deleted row = false.
Proof.
  unfold query_live_comment.
  destruct (comments db !! c) as [q|]; [|split; [done|by intros [? _]]].
  destruct (Comment.is_deleted q) eqn:E; split; try done.
  - intros [[= ->] ?]; congruence.
  - by intros [= ->].
  - by intros [[= ->] _].
Qed.

Lemma observe_post db p cu s :
  observe (OnPost p) cu db = Some s →
  ∃ post author,
    query_live_post db p = Some post ∧
    posts db !! p = Some post ∧ Post.is_deleted post = false ∧
    users db !! Post.author_id post = Some author ∧
    s.2 = Ledger.mkTally (Post.upvote_count post) (Post.downvote_count post)
                         (User.karma_score author) ∧
    ((s.1 = Ledger.NoVote ∧ filter (post_vote_filter p cu) (post_votes db) = []) ∨
     ∃ x, s.1 = Ledger.state_of (PostVote.vote_type x) ∧
          filter (post_vote_filter p cu) (post_votes db) = [x]).
Proof.
  unfold observe, vote_state, tally, votes_cast.
  intros (st & Hst & (y & Hy & [= <-])%bind_Some)%bind_Some.
  apply bind_Some in Hy as (post & Hpost & (author & Hauthor & [= <-])%bind_Some).
  exists post, author. pose proof Hpost as [??]%query_live_post_Some.
  split_and!; try done.
  destruct (filter _ _) as [|x [|]]; simplify_eq/=; eauto.
Qed.

Lemma observe_comment db c cu s :
  observe (OnComment c) cu db = Some s →
  ∃ row author,
    query_live_comment db c = Some row ∧
    comments db !! c = Some row ∧ Comment.is_deleted row = false ∧
    users db !! Comment.author_id row = Some author ∧
    s.2 = Ledger.mkTally (Comment.upvote_count row) (Comment.downvote_count row)
                         (User.karma_score author) ∧
    ((s.1 = Ledger.NoVote ∧ filter (comment_vote_filter c cu) (comment_votes db) = []) ∨
     ∃ x, s.1 = Ledger.state_of (CommentVote.vote_type x) ∧
          filter (comment_vote_filter c cu) (comment_votes db) = [x]).
Proof.
  unfold observe, vote_state, tally, votes_cast.
  intros (st & Hst & (y & Hy & [= <-])%bind_Some)%bind_Some.
  apply bind_Some in Hy as (row & Hrow & (author & Hauthor & [= <-])%bind_Some).
  exists row, author. pose proof Hrow as [??]%query_live_comment_Some.
  split_and!; try done.
  destruct (filter _ _) as [|x [|]]; simplify_eq/=; eauto.
Qed.

Ltac ledger_arith :=
  unfold Ledger.step, Ledger.forward, Ledger.reversal, Ledger.apply_delta; cbn;
  repeat f_equal; lia.

Ltac observe_after :=
  unfold observe, vote_state, tally, votes_cast, query_live_post, query_live_comment;
  cbn.

(** One request on a post moves what the ledger sees by one ledger step. *)
Lemma vote_on_post_step p t cu db redis s :
  observe (OnPost p) cu db = Some s →
  observe (OnPost p) cu (store (vote_on_post p t cu db redis))
  = Some (Ledger.step Ledger.PostKind s t).
Proof.
  intros (post & author & Hq & Hpost & Hlive & Hauthor & Hy & Hst)%observe_post.
  destruct s as [st y]; simpl in *; subst y.
  unfold vote_on_post. rewrite Hq. unfold query_author. rewrite Hauthor.
  destruct Hst as [[-> Hnone] | (x & -> & Hone)].
  - rewrite (first_of_no_row _ _ Hnone).
    destruct t; cbn; observe_after;
      rewrite !lookup_alter_eq, Hpost; cbn; rewrite Hlive; cbn;
      rewrite lookup_alter_eq, Hauthor; cbn;
      rewrite filter_app, Hnone; cbn;
      rewrite decide_True by (split; reflexivity); cbn;
      ledger_arith.
  - destruct (first_of_one_row _ _ _ Hone) as (i & Hfind & Hdel & Hupd).
    rewrite Hfind. pose proof (first_is_a_row _ _ _ _ Hfind) as [_ HP].
    destruct x as [vid vp vu vt]; destruct vt, t; cbn;
      (case_decide; [try discriminate | try done]); cbn; observe_after;
      rewrite !lookup_alter_eq, ?lookup_alter_eq, Hpost; cbn; rewrite Hlive; cbn;
      rewrite ?lookup_alter_eq, Hauthor; cbn;
      rewrite ?Hdel, ?Hupd by done; cbn; ledger_arith.
Qed.

(** The same for a comment. *)
Lemma vote_on_comment_step c t cu db redis s :
  observe (OnComment c) cu db = Some s →
  observe (OnComment c) cu (store (vote_on_comment c t cu db redis))
  = Some (Ledger.step Ledger.CommentKind s t).
Proof.
  intros (row & author & Hq & Hrow & Hlive & Hauthor & Hy & Hst)%observe_comment.
  destruct s as [st y]; simpl in *; subst y.
  unfold vote_on_comment. rewrite Hq. unfold query_author. rewrite Hauthor.
  destruct Hst as [[-> Hnone] | (x & -> & Hone)].
  - rewrite (first_of_no_row _ _ Hnone).
    destruct t; cbn; observe_after;
      rewrite !lookup_alter_eq, Hrow; cbn; rewrite Hlive; cbn;
      rewrite lookup_alter_eq, Hauthor; cbn;
      rewrite filter_app, Hnone; cbn;
      rewrite decide_True by (split; reflexivity); cbn;
      ledger_arith.
  - destruct (first_of_one_row _ _ _ Hone) as (i & Hfind & Hdel & Hupd).
    rewrite Hfind. pose proof (first_is_a_row _ _ _ _ Hfind) as [_ HP].
    destruct x as [vid vp vu vt]; destruct vt, t; cbn;
      (case_decide; [try discriminate | try done]); cbn; observe_after;
      rewrite !lookup_alter_eq, ?lookup_alter_eq, Hrow; cbn; rewrite Hlive; cbn;
      rewrite ?lookup_alter_eq, Hauthor; cbn;
      rewrite ?Hdel, ?Hupd by done; cbn; ledger_arith.
Qed.

Lemma vote_on_step tg t cu db redis s :
  observe tg cu db = Some s →
  observe tg cu (store (vote_on tg t cu db redis)) = Some (Ledger.step (kind_of tg) s t).
Proof.
  destruct tg; [apply vote_on_post_step | apply vote_on_comment_step].
Qed.

(** C1. For every user, every target (post or comment) and every finite
    sequence of vote requests by that user on that target, the upvote count,
    the downvote count and the author's karma after running the handlers
    are those obtained by replaying the state machine of §4.1 (create: full
    delta; same type again: toggle off, delta reversed; opposite type:
    reversal plus forward delta; weights +10/-2 on posts, +5/-1 on
    comments) from the state and counters the sequence started in.  The
    hypothesis says that the target is live, that its author's row exists
    and that the user holds at most one vote row on it, so that the ledger's
    state is defined. *)
Theorem vote_sequence_replays_ledger (tg : Target) (current_user : Z)
    (requests : list VoteType) (db : DB) (redis_client : RedisClient)
    (s : Ledger.VoteState * Ledger.Tally) :
  observe tg current_user db = Some s →
  observe tg current_user (vote_sequence tg current_user requests db redis_client).1
  = Some (Ledger.replay (kind_of tg) s requests).
Proof.
  revert db redis_client s.
  induction requests as [|t rest IH]; intros db redis_client s Hs; [done|].
  cbn [vote_sequence Ledger.replay fold_left].
  apply IH. by apply vote_on_step.
Qed.

Lemma step_closed_form k st t base :
  Ledger.step k (st, Ledger.held k st base) t
  = (Ledger.next_state st t, Ledger.held k (Ledger.next_state st t) base).
Proof.
  destruct st, t, base as [u d m];
    unfold Ledger.step, Ledger.next_state, Ledger.held; cbn;
    repeat (case_decide; try done); ledger_arith.
Qed.

(** The closed form of a replay: the tally moves by what the final state
    holds minus what the initial state held, and the final state only
    depends on the states. *)
Lemma replay_closed_form k st requests base :
  Ledger.replay k (st, Ledger.held k st base) requests
  = (fold_left Ledger.next_state requests st,
     Ledger.held k (fold_left Ledger.next_state requests st) base).
Proof.
  revert st. induction requests as [|t rest IH]; intros st; [done|].
  cbn [Ledger.replay fold_left]. rewrite step_closed_form. apply IH.
Qed.

Lemma vote_sequence_replays_ledger_witness :
  observe (OnPost 1) 2 demo_db = Some (Ledger.NoVote, Ledger.mkTally 0 0 0) ∧
  observe (OnPost 1) 2
    (vote_sequence (OnPost 1) 2 [UPVOTE; DOWNVOTE; DOWNVOTE] demo_db MockRedisClient).1
  = Some (Ledger.replay (kind_of (OnPost 1)) (Ledger.NoVote, Ledger.mkTally 0 0 0)
                        [UPVOTE; DOWNVOTE; DOWNVOTE]).
Proof.
  split; [reflexivity|].
  apply (vote_sequence_replays_ledger (OnPost 1) 2 [UPVOTE; DOWNVOTE; DOWNVOTE]
           demo_db MockRedisClient (Ledger.NoVote, Ledger.mkTally 0 0 0)).
  reflexivity.
Defined.

(** * Toggle-off *)

(** C4. For every user, live target and starting store in which the user
    holds no vote on the target, submitting the same vote type twice in a
    row first creates the vote row and then deletes it again: the second
    call answers "removed", the vote tables are what they were, and every
    post, comment and user row (hence the target's upvote and downvote
    counts and the author's karma) is back at its value from before the
    first vote. *)
Theorem same_vote_twice_restores_baseline (tg : Target) (current_user : Z)
    (t : VoteType) (db : DB) (redis_client : RedisClient) :
  live tg db →
  votes_cast tg current_user db = [] →
  let first := vote_on tg t current_user db redis_client in
  let second := vote_on tg t current_user (store first) (cache first) in
  votes_cast tg current_user (store first) = [t] ∧
  response second = Success removed_reply ∧
  votes_cast tg current_user (store second) = [] ∧
  post_votes (store second) = post_votes db ∧
  comment_votes (store second) = comment_votes db ∧
  posts (store second) = posts db ∧
  comments (store second) = comments db ∧
  users (store second) = users db.
Proof.
  destruct tg as [p|c]; cbn [live votes_cast vote_on].
  - intros [post Hq] Hnone%fmap_nil_inv. cbv zeta.
    pose proof Hq as [Hpost Hlive]%query_live_post_Some.
    destruct (vote_on_post p t current_user db redis_client) as [[r1 db1] c1] eqn:E1.
    unfold vote_on_post, query_author in E1.
    rewrite Hq, (first_of_no_row _ _ Hnone) in E1.
    cbn [store cache fst snd].
    destruct (users db !! Post.author_id post) as [author|] eqn:Hauthor;
      destruct t; injection E1 as <- <- <-;
      unfold vote_on_post, query_live_post, query_author; cbn;
      rewrite ?lookup_alter_eq, Hpost; cbn; rewrite Hlive; cbn;
      rewrite ?lookup_alter_eq, ?Hauthor; cbn;
      rewrite (first_of_appended _ _ (PostVote.mk _ p current_user _) Hnone) by done; cbn;
      rewrite decide_True by done; cbn;
      rewrite filter_app, Hnone; cbn; rewrite decide_True by done;
      rewrite ?delete_appended, ?Hnone;
      (split_and!; try done; apply alter_undo; intros [];
       unfold Post.set_upvote_count, Post.set_downvote_count, User.set_karma_score; cbn;
       f_equal; lia).
  - intros [row Hq] Hnone%fmap_nil_inv. cbv zeta.
    pose proof Hq as [Hrow Hlive]%query_live_comment_Some.
    destruct (vote_on_comment c t current_user db redis_client) as [[r1 db1] c1] eqn:E1.
    unfold vote_on_comment, query_author in E1.
    rewrite Hq, (first_of_no_row _ _ Hnone) in E1.
    cbn [store cache fst snd].
    destruct (users db !! Comment.author_id row) as [author|] eqn:Hauthor;
      destruct t; injection E1 as <- <- <-;
      unfold vote_on_comment, query_live_comment, query_author; cbn;
      rewrite ?lookup_alter_eq, Hrow; cbn; rewrite Hlive; cbn;
      rewrite ?lookup_alter_eq, ?Hauthor; cbn;
      rewrite (first_of_appended _ _ (CommentVote.mk _ c current_user _) Hnone) by done; cbn;
      rewrite decide_True by done; cbn;
      rewrite filter_app, Hnone; cbn; rewrite decide_True by done;
      rewrite ?delete_appended, ?Hnone;
      (split_and!; try done; apply alter_undo; intros [];
       unfold Comment.set_upvote_count, Comment.set_downvote_count, User.set_karma_score; cbn;
       f_equal; lia).
Qed.

Lemma same_vote_twice_restores_baseline_witness :
  live (OnComment 2) demo_db ∧
  votes_cast (OnComment 2) 1 demo_db = [] ∧
  let first := vote_on (OnComment 2) DOWNVOTE 1 demo_db MockRedisClient in
  let second := vote_on (OnComment 2) DOWNVOTE 1 (store first) (cache first) in
  votes_cast (OnComment 2) 1 (store first) = [DOWNVOTE] ∧
  response second = Success removed_reply ∧
  votes_cast (OnComment 2) 1 (store second) = [] ∧
  post_votes (store second) = post_votes demo_db ∧
  comment_votes (store second) = comment_votes demo_db ∧
  posts (store second) = posts demo_db ∧
  comments (store second) = comments demo_db ∧
  users (store second) = users demo_db.
Proof.
  assert (Hlive : live (OnComment 2) demo_db) by (vm_compute; eauto).
  assert (Hnone : votes_cast (OnComment 2) 1 demo_db = []) by reflexivity.
  split_and!; [exact Hlive | exact Hnone |].
  exact (same_vote_twice_restores_baseline (OnComment 2) 1 DOWNVOTE demo_db
           MockRedisClient Hlive Hnone).
Defined.

(** * One vote per user and target *)

(** What each handler leaves alone. *)
Lemma author_karma_posts a d db : posts (author_karma a d db) = posts db.
Proof. by destruct a as [[]|]. Qed.
Lemma author_karma_comments a d db : comments (author_karma a d db) = comments db.
Proof. by destruct a as [[]|]. Qed.
Lemma author_karma_post_votes a d db : post_votes (author_karma a d db) = post_votes db.
Proof. by destruct a as [[]|]. Qed.
Lemma author_karma_comment_votes a d db :
  comment_votes (author_karma a d db) = comment_votes db.
Proof. by destruct a as [[]|]. Qed.

Create Rewrite HintDb frame.
#[export] Hint Rewrite author_karma_posts author_karma_comments
  author_karma_post_votes author_karma_comment_votes : frame.

Ltac frame := repeat (progress (cbn; autorewrite with frame)); try done.

Lemma votes_cast_ext tg u db db' :
  post_votes db' = post_votes db → comment_votes db' = comment_votes db →
  votes_cast tg u db' = votes_cast tg u db.
Proof. intros Hp Hc. destruct tg; cbn; by rewrite ?Hp, ?Hc. Qed.

Lemma vote_on_post_votes p t cu db redis :
  comment_votes (store (vote_on_post p t cu db redis)) = comment_votes db ∧
  (post_votes (store (vote_on_post p t cu db redis)) = post_votes db
   ∨ (∃ i, post_votes (store (vote_on_post p t cu db redis)) = delete i (post_votes db))
   ∨ (∃ i x, post_votes db !! i = Some x ∧
        post_votes (store (vote_on_post p t cu db redis))
        = <[i := PostVote.set_vote_type t x]> (post_votes db))
   ∨ (filter (post_vote_filter p cu) (post_votes db) = [] ∧
      post_votes (store (vote_on_post p t cu db redis))
      = (post_votes db ++ [PostVote.mk (next_post_vote_id db) p cu t])%list)).
Proof.
  unfold vote_on_post.
  destruct (query_live_post db p) as [post|]; [|by split; [|left]].
  destruct (list_find _ _) as [[i x]|] eqn:Hfind.
  - apply first_is_a_row in Hfind as [Hi Hx].
    case_decide.
    + split; [by destruct (PostVote.vote_type x); frame|].
      right; left. exists i. by destruct (PostVote.vote_type x); frame.
    + split; [by destruct (PostVote.vote_type x); frame|].
      right; right; left. exists i, x. split; [done|].
      by destruct (PostVote.vote_type x); frame.
  - apply no_row_of_first in Hfind.
    split; [by destruct t; frame|].
    right; right; right. split; [done|]. by destruct t; frame.
Qed.

Lemma post_vote_step_keeps_one (l l' : list PostVote.t) p cu t next :
  (l' = l
   ∨ (∃ i, l' = delete i l)
   ∨ (∃ i x, l !! i = Some x ∧ l' = <[i := PostVote.set_vote_type t x]> l)
   ∨ (filter (post_vote_filter p cu) l = [] ∧ l' = (l ++ [PostVote.mk next p cu t])%list)) →
  ∀ p' u', (length (filter (post_vote_filter p' u') l) ≤ 1)%nat →
           (length (filter (post_vote_filter p' u') l') ≤ 1)%nat.
Proof.
  intros [-> | [[i ->] | [(i & x & Hi & ->) | [Hnone ->]]]] p' u' Hle.
  - done.
  - pose proof (rows_after_delete (post_vote_filter p' u') l i). lia.
  - by rewrite (rows_after_update _ l i x).
  - rewrite filter_app, length_app. cbn.
    case_decide as Hnew; cbn; [|lia].
    destruct Hnew as [<- <-]; cbn in *. rewrite Hnone. cbn. lia.
Qed.

Lemma vote_on_comment_votes c t cu db redis :
  post_votes (store (vote_on_comment c t cu db redis)) = post_votes db ∧
  (comment_votes (store (vote_on_comment c t cu db redis)) = comment_votes db
   ∨ (∃ i, comment_votes (store (vote_on_comment c t cu db redis))
           = delete i (comment_votes db))
   ∨ (∃ i x, comment_votes db !! i = Some x ∧
        comment_votes (store (vote_on_comment c t cu db redis))
        = <[i := CommentVote.set_vote_type t x]> (comment_votes db))
   ∨ (filter (comment_vote_filter c cu) (comment_votes db) = [] ∧
      comment_votes (store (vote_on_comment c t cu db redis))
      = (comment_votes db ++ [CommentVote.mk (next_comment_vote_id db) c cu t])%list)).
Proof.
  unfold vote_on_comment.
  destruct (query_live_comment db c) as [row|]; [|by split; [|left]].
  destruct (list_find _ _) as [[i x]|] eqn:Hfind.
  - apply first_is_a_row in Hfind as [Hi Hx].
    case_decide.
    + split; [by destruct (CommentVote.vote_type x); frame|].
      right; left. exists i. by destruct (CommentVote.vote_type x); frame.
    + split; [by destruct (CommentVote.vote_type x); frame|].
      right; right; left. exists i, x. split; [done|].
      by destruct (CommentVote.vote_type x); frame.
  - apply no_row_of_first in Hfind.
    split; [by destruct t; frame|].
    right; right; right. split; [done|]. by destruct t; frame.
Qed.

Lemma comment_vote_step_keeps_one (l l' : list CommentVote.t) c cu t next :
  (l' = l
   ∨ (∃ i, l' = delete i l)
   ∨ (∃ i x, l !! i = Some x ∧ l' = <[i := CommentVote.set_vote_type t x]> l)
   ∨ (filter (comment_vote_filter c cu) l = [] ∧
      l' = (l ++ [CommentVote.mk next c cu t])%list)) →
  ∀ c' u', (length (filter (comment_vote_filter c' u') l) ≤ 1)%nat →
           (length (filter (comment_vote_filter c' u') l') ≤ 1)%nat.
Proof.
  intros [-> | [[i ->] | [(i & x & Hi & ->) | [Hnone ->]]]] c' u' Hle.
  - done.
  - pose proof (rows_after_delete (comment_vote_filter c' u') l i). lia.
  - by rewrite (rows_after_update _ l i x).
  - rewrite filter_app, length_app. cbn.
    case_decide as Hnew; cbn; [|lia].
    destruct Hnew as [<- <-]; cbn in *. rewrite Hnone. cbn. lia.
Qed.

Lemma one_vote_ext db db' :
  post_votes db' = post_votes db → comment_votes db' = comment_votes db →
  one_vote_per_target db → one_vote_per_target db'.
Proof. intros Hp Hc H tg u. rewrite (votes_cast_ext tg u db db') by done. apply H. Qed.

Lemma vote_on_keeps_one_vote tg t cu db redis :
  one_vote_per_target db → one_vote_per_target (store (vote_on tg t cu db redis)).
Proof.
  intros H tg' u'. specialize (H tg' u').
  destruct tg' as [p'|c'], tg as [p|c]; cbn [vote_on votes_cast] in *;
    rewrite length_fmap in *.
  - destruct (vote_on_post_votes p t cu db redis) as [_ Hshape].
    by eapply post_vote_step_keeps_one.
  - destruct (vote_on_comment_votes c t cu db redis) as [-> _]. done.
  - destruct (vote_on_post_votes p t cu db redis) as [-> _]. done.
  - destruct (vote_on_comment_votes c t cu db redis) as [_ Hshape].
    by eapply comment_vote_step_keeps_one.
Qed.

Lemma unaccept_previous_post_votes post db :
  post_votes (unaccept_previous post db) = post_votes db.
Proof. unfold unaccept_previous. repeat (case_match; try done); frame. Qed.
Lemma unaccept_previous_comment_votes post db :
  comment_votes (unaccept_previous post db) = comment_votes db.
Proof. unfold unaccept_previous. repeat (case_match; try done); frame. Qed.
Lemma unaccept_previous_posts post db :
  posts (unaccept_previous post db) = posts db.
Proof. unfold unaccept_previous. repeat (case_match; try done); frame. Qed.
#[export] Hint Rewrite unaccept_previous_post_votes unaccept_previous_comment_votes
  unaccept_previous_posts : frame.

Lemma accept_answer_votes p c cu db redis :
  post_votes (store (accept_answer p c cu db redis)) = post_votes db ∧
  comment_votes (store (accept_answer p c cu db redis)) = comment_votes db.
Proof. split; unfold accept_answer; repeat (case_match; try done); frame. Qed.

Lemma create_comment_votes p d cu db redis :
  post_votes (store (create_comment p d cu db redis)) = post_votes db ∧
  comment_votes (store (create_comment p d cu db redis)) = comment_votes db.
Proof. split; unfold create_comment; repeat (case_match; try done); frame. Qed.

Lemma create_post_votes ty cu db redis :
  post_votes (store (create_post ty cu db redis)) = post_votes db ∧
  comment_votes (store (create_post ty cu db redis)) = comment_votes db.
Proof. done. Qed.

Lemma delete_post_votes p cu db redis :
  post_votes (store (delete_post p cu db redis)) = post_votes db ∧
  comment_votes (store (delete_post p cu db redis)) = comment_votes db.
Proof. split; unfold delete_post; repeat (case_match; try done); frame. Qed.

Lemma update_profile_votes d cu db redis :
  post_votes (store (update_profile d cu db redis)) = post_votes db ∧
  comment_votes (store (update_profile d cu db redis)) = comment_votes db.
Proof. split; unfold update_profile; repeat (case_match; try done); frame. Qed.

Lemma register_user_votes d db redis :
  post_votes (store (register_user d db redis)) = post_votes db ∧
  comment_votes (store (register_user d db redis)) = comment_votes db.
Proof. split; unfold register_user; repeat (case_match; try done); frame. Qed.

Lemma store_map_outcome {A B} (f : Response A → Response B) (o : outcome A) :
  store (map_outcome f o) = store o.
Proof. done. Qed.

Lemma handle_keeps_one_vote sub req db redis :
  one_vote_per_target db → one_vote_per_target (store (handle sub req db redis)).
Proof.
  intros H. destruct req; cbn [handle]; rewrite store_map_outcome;
    unfold authenticated; try (destruct (get_current_user sub db); [|done]).
  - eapply one_vote_ext; [apply register_user_votes..|done].
  - eapply one_vote_ext; [apply create_post_votes..|done].
  - eapply one_vote_ext; [apply delete_post_votes..|done].
  - eapply one_vote_ext; [apply create_comment_votes..|done].
  - by apply (vote_on_keeps_one_vote (OnPost _)).
  - by apply (vote_on_keeps_one_vote (OnComment _)).
  - eapply one_vote_ext; [apply accept_answer_votes..|done].
  - eapply one_vote_ext; [apply update_profile_votes..|done].
Qed.

(** C5. Along every sequence of requests (votes on posts and on comments,
    and every other write request of the model), a user holds at most one
    PostVote row per post and at most one CommentVote row per comment at all
    times, provided this held of the store the sequence started from: a vote
    handler deletes the row it found, changes its type in place, or appends
    a row only when its query found none. *)
Theorem at_most_one_vote_per_user_and_target (history : list (Z * Request))
    (db : DB) (redis_client : RedisClient) :
  one_vote_per_target db →
  one_vote_per_target (run history db redis_client).1.
Proof.
  revert db redis_client.
  induction history as [|[sub req] rest IH]; intros db redis_client H; [done|].
  cbn [run]. apply IH. by apply handle_keeps_one_vote.
Qed.

Lemma at_most_one_vote_per_user_and_target_witness :
  one_vote_per_target empty_db ∧
  one_vote_per_target
    (run (demo_history ++ [(2, VoteOnPost 1 UPVOTE); (2, VoteOnPost 1 DOWNVOTE);
                           (3, VoteOnPost 1 UPVOTE); (1, VoteOnComment 1 UPVOTE)])
         empty_db MockRedisClient).1.
Proof.
  assert (H0 : one_vote_per_target empty_db) by (intros [p|c] u; cbn; lia).
  split; [exact H0|].
  exact (at_most_one_vote_per_user_and_target _ empty_db MockRedisClient H0).
Defined.

(** * The cache never decides a write *)

Ltac cache_blind h := intros; unfold committed, h; repeat case_match; reflexivity.

Lemma vote_on_post_cache_blind p t cu db c1 c2 :
  committed (vote_on_post p t cu db c1) = committed (vote_on_post p t cu db c2).
Proof. cache_blind vote_on_post. Qed.
Lemma vote_on_comment_cache_blind c t cu db c1 c2 :
  committed (vote_on_comment c t cu db c1) = committed (vote_on_comment c t cu db c2).
Proof. cache_blind vote_on_comment. Qed.
Lemma accept_answer_cache_blind p c cu db c1 c2 :
  committed (accept_answer p c cu db c1) = committed (accept_answer p c cu db c2).
Proof. cache_blind accept_answer. Qed.
Lemma create_comment_cache_blind p d cu db c1 c2 :
  committed (create_comment p d cu db c1) = committed (create_comment p d cu db c2).
Proof. cache_blind create_comment. Qed.
Lemma create_post_cache_blind ty cu db c1 c2 :
  committed (create_post ty cu db c1) = committed (create_post ty cu db c2).
Proof. cache_blind create_post. Qed.
Lemma delete_post_cache_blind p cu db c1 c2 :
  committed (delete_post p cu db c1) = committed (delete_post p cu db c2).
Proof. cache_blind delete_post. Qed.
Lemma update_profile_cache_blind d cu db c1 c2 :
  committed (update_profile d cu db c1) = committed (update_profile d cu db c2).
Proof. cache_blind update_profile. Qed.
Lemma register_user_cache_blind d db c1 c2 :
  committed (register_user d db c1) = committed (register_user d db c2).
Proof. cache_blind register_user. Qed.

Lemma committed_map_outcome {A B} (f : Response A → Response B) (o1 o2 : outcome A) :
  committed o1 = committed o2 → committed (map_outcome f o1) = committed (map_outcome f o2).
Proof.
  destruct o1 as [[r1 d1] k1], o2 as [[r2 d2] k2]. unfold committed. cbn.
  by intros [= -> ->].
Qed.

(** C7. For every write request (vote on a post or a comment, comment
    creation, accept, profile update, registration, and also post creation
    and deletion) and every behaviour of the cache, including a client that
    raises on any call and the mock client, what the request answers and the
    store it leaves are the same: a failure inside the invalidation sweep
    never fails the request and never touches the committed rows, so the
    handler answers exactly as with a healthy cache.  (In [update_profile]
    the sweep runs before the commit rather than after it; it is guarded in
    the same way.) *)
Theorem cache_failure_never_fails_the_write (sub : Z) (req : Request) (db : DB)
    (c1 c2 : RedisClient) :
  response (handle sub req db c1) = response (handle sub req db c2) ∧
  store (handle sub req db c1) = store (handle sub req db c2).
Proof.
  enough (committed (handle sub req db c1) = committed (handle sub req db c2)) as H.
  { unfold committed, response, store in *. by rewrite H. }
  destruct req; cbn [handle]; apply committed_map_outcome; unfold authenticated;
    try (destruct (get_current_user sub db); [|done]).
  - apply register_user_cache_blind.
  - apply create_post_cache_blind.
  - apply delete_post_cache_blind.
  - apply create_comment_cache_blind.
  - apply vote_on_post_cache_blind.
  - apply vote_on_comment_cache_blind.
  - apply accept_answer_cache_blind.
  - apply update_profile_cache_blind.
Qed.

(** * [is_answered] under [accept_answer] *)

(** C10. Whatever [accept_answer] does (accept, transfer, unaccept or
    reject), it leaves the [is_answered] flag of every post as it was, also
    when it sets or clears [accepted_answer_id]. *)
Theorem accept_answer_leaves_is_answered (post_id comment_id current_user : Z)
    (db : DB) (redis_client : RedisClient) (p : Z) :
  Post.is_answered <$>
    posts (store (accept_answer post_id comment_id current_user db redis_client)) !! p
  = Post.is_answered <$> posts db !! p.
Proof.
  unfold accept_answer. repeat (case_match; try done); frame;
    rewrite lookup_alter;
    (destruct (decide (post_id = p)) as [->|]; [by destruct (posts db !! p)|done]).
Qed.

(** * The response model of the vote endpoints *)

Lemma removed_reply_is_not_a_VoteResponse :
  VoteResponse_validate removed_reply = None.
Proof. reflexivity. Qed.

(** Whenever a vote handler answers with its "removed" dict, the endpoint
    answers 500. *)
Lemma removed_reply_becomes_500 r :
  r = Success removed_reply →
  with_response_model r = HTTPException 500 "Internal Server Error".
Proof. by intros ->. Qed.

(** C9, evaluated where the code departs from it.  Bob has upvoted post 1
    and sends the same upvote again.  The handler removes the vote row,
    takes the upvote and the karma back and returns its "removed" dict; the
    dict has none of the fields of the endpoint's response model, so the
    client receives a 500 instead of the removed indicator.  A first vote
    and a changed vote do answer with the resulting vote. *)
Theorem toggle_off_reply_fails_response_model :
  let voted := (run (demo_history ++ [(2, VoteOnPost 1 UPVOTE)]) empty_db MockRedisClient).1 in
  let again := handle 2 (VoteOnPost 1 UPVOTE) voted MockRedisClient in
  response (handle 2 (VoteOnPost 1 UPVOTE) demo_db MockRedisClient)
    = Success (ReplyVote (mkVoteResponse 1 UPVOTE)) ∧
  response (handle 2 (VoteOnPost 1 DOWNVOTE) voted MockRedisClient)
    = Success (ReplyVote (mkVoteResponse 1 DOWNVOTE)) ∧
  response (vote_on_post 1 UPVOTE 2 voted MockRedisClient) = Success removed_reply ∧
  response again = HTTPException 500 "Internal Server Error" ∧
  votes_cast (OnPost 1) 2 voted = [UPVOTE] ∧
  votes_cast (OnPost 1) 2 (store again) = [] ∧
  tally (OnPost 1) (store again) = tally (OnPost 1) demo_db.
Proof. vm_compute. by split_and!. Qed.

(** * The sweep after a vote on a post *)

Lemma deletes_ret : deletes (cache_ret tt) (λ _, False).
Proof. intros r _. exists r. by split_and!. Qed.

Lemma deletes_key key : deletes (redis_delete key) (λ k, k = key).
Proof.
  intros r Hr. unfold redis_delete, on_real, redis_call. rewrite Hr. cbn.
  eexists. split; [reflexivity|]. cbn. split_and!; [done| |].
  - intros k Hk. rewrite lookup_delete. by case_decide.
  - intros k ->. apply lookup_delete_eq.
Qed.

Lemma deletes_seq m1 m2 K1 K2 :
  deletes m1 K1 → deletes m2 K2 → deletes (m1 ;; m2) (λ k, K1 k ∨ K2 k).
Proof.
  intros H1 H2 r Hr.
  destruct (H1 r Hr) as (r1 & E1 & Hf1 & Hmono1 & Hk1).
  destruct (H2 r1) as (r2 & E2 & Hf2 & Hmono2 & Hk2).
  { intros n. by rewrite Hf1. }
  exists r2. unfold cache_bind. rewrite E1, E2. split_and!; [done|congruence|auto|].
  intros k [?|?]; auto.
Qed.

Lemma deletes_each keys : deletes (delete_each keys) (λ k, k ∈ keys).
Proof.
  induction keys as [|key rest IH]; cbn [delete_each].
  - intros r _. exists r. split_and!; try done. by intros k ?%elem_of_nil.
  - intros r Hr.
    destruct (deletes_seq _ _ _ _ (deletes_key key) IH r Hr) as (r' & E & ? & ? & Hk).
    exists r'. split_and!; try done.
    intros k [->|?]%elem_of_cons; apply Hk; auto.
Qed.

Lemma deletes_prefix p : deletes (sweep_prefix p) (λ k, String.prefix p k = true).
Proof.
  intros r Hr. unfold sweep_prefix, cache_bind.
  unfold redis_scan_iter at 1, on_real, redis_call. rewrite Hr. cbn.
  set (keys := filter _ _).
  destruct (deletes_each keys (mkRedis (entries r) (fault r) (S (calls r))) Hr)
    as (r' & E & Hf & Hmono & Hk).
  exists r'. split_and!; try done. cbn in *.
  intros k Hp. destruct (entries r !! k) as [v|] eqn:Hv; [|by apply Hmono].
  apply Hk. subst keys. apply list_elem_of_filter. split; [done|].
  apply list_elem_of_fmap. exists (k, v). split; [done|].
  by apply elem_of_map_to_list.
Qed.

Lemma deletes_weaken m (K K' : string → Prop) :
  deletes m K → (∀ k, K' k → K k) → deletes m K'.
Proof.
  intros H HK r Hr. destruct (H r Hr) as (r' & ? & ? & ? & Hk).
  exists r'. split_and!; auto.
Qed.

Lemma deletes_post_vote_sweep post_id uid author :
  deletes (post_vote_sweep post_id (Some (uid, author)))
    (λ k, k = "post:" +:+ pretty post_id
          ∨ String.prefix "posts:list:" k = true
          ∨ k = "user:profile:" +:+ User.display_name author
          ∨ String.prefix "users:top:" k = true).
Proof.
  unfold post_vote_sweep.
  repeat first [apply deletes_seq | apply deletes_key | apply deletes_prefix].
Qed.

Lemma miss_after_deletes m K c :
  never_faults c → deletes m K → (m MockRedisClient).2 = MockRedisClient →
  ∀ k, K k → cache_miss k (try_except m c).
Proof.
  intros Hc Hm Hmock k Hk. destruct c as [r|]; unfold try_except, cache_miss.
  - destruct (Hm r Hc) as (r' & -> & Hf & _ & Hdel). cbn.
    unfold redis_call. rewrite Hf, Hc. cbn. by rewrite Hdel.
  - by rewrite Hmock.
Qed.

Lemma vote_on_post_cache p t cu db redis post :
  query_live_post db p = Some post →
  cache (vote_on_post p t cu db redis)
  = try_except (post_vote_sweep p (query_author db (Post.author_id post))) redis.
Proof. intros Hq. unfold vote_on_post. rewrite Hq. by repeat case_match. Qed.

(** C6, as amended.  After every [vote_on_post] that reaches a live post
    (a first vote, a changed vote or a toggle-off), if no cache call raises
    and the row of the post's author exists, then the entry of the post and
    the entry of the author's profile are gone and so is every entry under
    the prefixes of the post lists and of the leaderboards: reading any of
    these keys afterwards is a miss. *)
Theorem vote_on_post_sweep_leaves_no_stale_entry (post_id : Z) (vote_data : VoteType)
    (current_user : Z) (db : DB) (redis_client : RedisClient)
    (post : Post.t) (post_author : User.t) :
  never_faults redis_client →
  query_live_post db post_id = Some post →
  users db !! Post.author_id post = Some post_author →
  let after := cache (vote_on_post post_id vote_data current_user db redis_client) in
  cache_miss ("post:" +:+ pretty post_id) after ∧
  cache_miss ("user:profile:" +:+ User.display_name post_author) after ∧
  (∀ key, String.prefix "posts:list:" key = true → cache_miss key after) ∧
  (∀ key, String.prefix "users:top:" key = true → cache_miss key after).
Proof.
  intros Hc Hq Ha. cbv zeta. rewrite (vote_on_post_cache _ _ _ _ _ _ Hq).
  unfold query_author. rewrite Ha.
  pose proof (miss_after_deletes _ _ redis_client Hc
                (deletes_post_vote_sweep post_id (Post.author_id post) post_author)
                eq_refl) as Hmiss.
  split_and!; intros; apply Hmiss; auto.
Qed.

(** C6 as stated fails when the cache raises during the sweep: Bob's upvote
    on Alice's post is committed (her karma is 10 now), the scan of the
    post lists raises, the rest of the sweep is skipped and Alice's cached
    profile survives; the next read of that key is a hit on the entry cached
    before the vote. *)
Lemma sweep_cut_short_keeps_stale_profile :
  let o := vote_on_post 1 UPVOTE 2 demo_db flaky_redis in
  query_live_post demo_db 1 = Some (Post.mk QUESTION 1 0 0 2 2 false None false false) ∧
  User.display_name <$> users demo_db !! 1 = Some "Alice" ∧
  response o = Success (ReturnModel (mkVoteResponse 1 UPVOTE)) ∧
  User.karma_score <$> users (store o) !! 1 = Some 10 ∧
  (redis_get "user:profile:Alice" (cache o)).1 = Some (Some "karma_score=0") ∧
  ¬ cache_miss "user:profile:Alice" (cache o).
Proof. vm_compute. by split_and!. Qed.

Lemma vote_on_post_sweep_leaves_no_stale_entry_witness :
  let redis_client :=
    RealRedis (mkRedis (<["post:1" := "p"]> (<["posts:list:1:20:newest" := "l"]>
                         (<["user:profile:Alice" := "a"]> {["users:top:karma:10" := "t"]})))
                       (λ _, false) 0) in
  let after := cache (vote_on_post 1 UPVOTE 2 demo_db redis_client) in
  never_faults redis_client ∧
  cache_miss ("post:" +:+ pretty 1) after ∧
  cache_miss ("user:profile:" +:+ "Alice") after ∧
  (∀ key, String.prefix "posts:list:" key = true → cache_miss key after) ∧
  (∀ key, String.prefix "users:top:" key = true → cache_miss key after).
Proof.
  intros redis_client after.
  assert (Hc : never_faults redis_client) by (intros n; reflexivity).
  split; [exact Hc|].
  exact (vote_on_post_sweep_leaves_no_stale_entry 1 UPVOTE 2 demo_db redis_client
           (Post.mk QUESTION 1 0 0 2 2 false None false false)
           (User.mk "alice@salad.dev" "alice" "Alice" None None (Some "Alice") true 1 0 0)
           Hc eq_refl eq_refl).
Defined.

(** * Locked and deleted targets, and the errors of the accept path *)

(** C8 as stated fails on a soft-deleted post: after Alice has deleted her
    post, Bob's vote on it is answered 404 and nothing is counted. *)
Lemma vote_on_deleted_post_is_not_found :
  Post.is_deleted <$> posts deleted_db !! 1 = Some true ∧
  get_current_user 2 deleted_db = Success 2 ∧
  response (vote_on_post 1 UPVOTE 2 deleted_db MockRedisClient)
    = HTTPException 404 "Post not found" ∧
  store (vote_on_post 1 UPVOTE 2 deleted_db MockRedisClient) = deleted_db.
Proof. vm_compute. by split_and!. Qed.

Lemma vote_on_post_success p t cu db redis post :
  query_live_post db p = Some post →
  is_success (response (vote_on_post p t cu db redis)).
Proof. intros Hq. unfold vote_on_post. rewrite Hq. by repeat case_match. Qed.

(** C8, as amended.  A lock on a post does not stop a vote on it: the vote
    is answered and counted as the ledger says.  A soft-deleted or missing
    post or comment cannot be voted on: the answer is 404 (NotFound) and the
    store is untouched.  Creating a comment on a locked post is rejected
    with 403.  On the accept path a missing or soft-deleted post yields 404
    (NotFound); then a requester who is not the post's author yields 403
    (Forbidden); then a post that is not a question yields 400
    (InvalidOperation); then a comment that is missing, soft-deleted or of
    another post yields 404 (NotFound).  Every rejection leaves the store
    and the cache as they were. *)
Theorem locks_deletions_and_accept_errors (db : DB) (redis_client : RedisClient)
    (current_user : Z) :
  (* a lock does not stop a vote on the post: it is answered and counted *)
  (∀ post_id vote_data post s,
     posts db !! post_id = Some post →
     Post.is_locked post = true → Post.is_deleted post = false →
     observe (OnPost post_id) current_user db = Some s →
     let o := vote_on_post post_id vote_data current_user db redis_client in
     is_success (response o) ∧
     observe (OnPost post_id) current_user (store o)
       = Some (Ledger.step Ledger.PostKind s vote_data)) ∧
  (* a soft-deleted or missing post or comment cannot be voted on *)
  (∀ post_id vote_data,
     query_live_post db post_id = None →
     vote_on_post post_id vote_data current_user db redis_client
       = (HTTPException 404 "Post not found", db, redis_client)) ∧
  (∀ comment_id vote_data,
     query_live_comment db comment_id = None →
     vote_on_comment comment_id vote_data current_user db redis_client
       = (HTTPException 404 "Comment not found", db, redis_client)) ∧
  (* no comment on a locked post *)
  (∀ post_id comment_data post,
     query_live_post db post_id = Some post → Post.is_locked post = true →
     create_comment post_id comment_data current_user db redis_client
       = (HTTPException 403 "Post is locked for comments", db, redis_client)) ∧
  (* the accept path, in the order of its checks *)
  (∀ post_id comment_id,
     query_live_post db post_id = None →
     accept_answer post_id comment_id current_user db redis_client
       = (HTTPException 404 "Post not found", db, redis_client)) ∧
  (∀ post_id comment_id post,
     query_live_post db post_id = Some post → Post.author_id post ≠ current_user →
     accept_answer post_id comment_id current_user db redis_client
       = (HTTPException 403 "Only the post author can accept answers", db, redis_client)) ∧
  (∀ post_id comment_id post,
     query_live_post db post_id = Some post → Post.author_id post = current_user →
     Post.post_type post ≠ QUESTION →
     accept_answer post_id comment_id current_user db redis_client
       = (HTTPException 400 "Only questions can have accepted answers", db, redis_client)) ∧
  (∀ post_id comment_id post,
     query_live_post db post_id = Some post → Post.author_id post = current_user →
     Post.post_type post = QUESTION →
     query_live_comment_of db comment_id post_id = None →
     accept_answer post_id comment_id current_user db redis_client
       = (HTTPException 404 "Comment not found", db, redis_client)).
Proof.
  split_and!.
  - intros p t post s Hpost _ Hlive Hs. cbv zeta. split.
    + eapply vote_on_post_success. by apply query_live_post_Some.
    + by apply vote_on_post_step.
  - intros p t Hq. unfold vote_on_post. by rewrite Hq.
  - intros c t Hq. unfold vote_on_comment. by rewrite Hq.
  - intros p d post Hq Hlock. unfold create_comment. by rewrite Hq, Hlock.
  - intros p c Hq. unfold accept_answer. by rewrite Hq.
  - intros p c post Hq Hne. unfold accept_answer. rewrite Hq.
    by rewrite (proj2 (Z.eqb_neq _ _) Hne).
  - intros p c post Hq Hau Hty. unfold accept_answer. rewrite Hq, Hau, Z.eqb_refl.
    by rewrite bool_decide_eq_false_2.
  - intros p c post Hq Hau Hty Hc. unfold accept_answer.
    rewrite Hq, Hau, Z.eqb_refl, Hc. by rewrite bool_decide_eq_true_2.
Qed.

Lemma locks_deletions_and_accept_errors_witness :
  (let o := vote_on_post 1 UPVOTE 2 locked_db MockRedisClient in
   is_success (response o) ∧
   observe (OnPost 1) 2 (store o)
     = Some (Ledger.step Ledger.PostKind (Ledger.NoVote, Ledger.mkTally 0 0 0) UPVOTE)) ∧
  vote_on_post 1 UPVOTE 2 deleted_db MockRedisClient
    = (HTTPException 404 "Post not found", deleted_db, MockRedisClient) ∧
  vote_on_comment 7 UPVOTE 2 demo_db MockRedisClient
    = (HTTPException 404 "Comment not found", demo_db, MockRedisClient) ∧
  create_comment 1 (mkCommentCreate None false) 2 locked_db MockRedisClient
    = (HTTPException 403 "Post is locked for comments", locked_db, MockRedisClient) ∧
  accept_answer 1 1 1 deleted_db MockRedisClient
    = (HTTPException 404 "Post not found", deleted_db, MockRedisClient) ∧
  accept_answer 1 1 2 demo_db MockRedisClient
    = (HTTPException 403 "Only the post author can accept answers", demo_db,
       MockRedisClient) ∧
  accept_answer 2 1 1 discussion_db MockRedisClient
    = (HTTPException 400 "Only questions can have accepted answers", discussion_db,
       MockRedisClient) ∧
  accept_answer 1 7 1 demo_db MockRedisClient
    = (HTTPException 404 "Comment not found", demo_db, MockRedisClient).
Proof.
  split_and!.
  - apply (proj1 (locks_deletions_and_accept_errors locked_db MockRedisClient 2)
             1 UPVOTE (Post.mk QUESTION 1 0 0 2 2 false None true false)
             (Ledger.NoVote, Ledger.mkTally 0 0 0)); reflexivity.
  - apply (locks_deletions_and_accept_errors deleted_db MockRedisClient 2). reflexivity.
  - apply (locks_deletions_and_accept_errors demo_db MockRedisClient 2). reflexivity.
  - apply (locks_deletions_and_accept_errors locked_db MockRedisClient 2)
      with (post := Post.mk QUESTION 1 0 0 2 2 false None true false); reflexivity.
  - apply (locks_deletions_and_accept_errors deleted_db MockRedisClient 1). reflexivity.
  - apply (locks_deletions_and_accept_errors demo_db MockRedisClient 2)
      with (post := Post.mk QUESTION 1 0 0 2 2 false None false false);
      [reflexivity | vm_compute; discriminate].
  - apply (locks_deletions_and_accept_errors discussion_db MockRedisClient 1)
      with (post := Post.mk DISCUSSION 1 0 0 0 0 false None false false);
      [reflexivity | reflexivity | discriminate].
  - apply (locks_deletions_and_accept_errors demo_db MockRedisClient 1)
      with (post := Post.mk QUESTION 1 0 0 2 2 false None false false); reflexivity.
Defined.

(** * The accepted answer of a post *)

Lemma store_inv_same_views db db' : same_views db db' → store_inv db → store_inv db'.
Proof.
  intros (Hp & Hc & Hpv & Hcv) [H1 H2 H3 H4 H5].
  split; rewrite ?Hp, ?Hc; setoid_rewrite Hpv || idtac; setoid_rewrite Hcv || idtac; done.
Qed.

Lemma view_alter {V W} (g : V → W) (f : V → V) (k q : Z) (m : gmap Z V) :
  (∀ x, g (f x) = g x) → g <$> alter f k m !! q = g <$> m !! q.
Proof.
  intros Hgf. rewrite lookup_alter. case_decide; subst; [|done].
  destruct (m !! q); cbn; [|done]. by rewrite Hgf.
Qed.

Lemma author_karma_next_post_id a d db :
  next_post_id (author_karma a d db) = next_post_id db.
Proof. by destruct a as [[]|]. Qed.
Lemma author_karma_next_comment_id a d db :
  next_comment_id (author_karma a d db) = next_comment_id db.
Proof. by destruct a as [[]|]. Qed.
#[export] Hint Rewrite author_karma_next_post_id author_karma_next_comment_id : frame.

Lemma unaccept_previous_next_post_id post db :
  next_post_id (unaccept_previous post db) = next_post_id db.
Proof. unfold unaccept_previous. repeat (case_match; try done); frame. Qed.
Lemma unaccept_previous_next_comment_id post db :
  next_comment_id (unaccept_previous post db) = next_comment_id db.
Proof. unfold unaccept_previous. repeat (case_match; try done); frame. Qed.
#[export] Hint Rewrite unaccept_previous_next_post_id
  unaccept_previous_next_comment_id : frame.

Ltac views :=
  unfold same_views, post_view, comment_view; frame;
  split_and!; intros; rewrite ?view_alter by done; done.

Lemma vote_on_post_views p t cu db redis : same_views db (store (vote_on_post p t cu db redis)).
Proof. unfold vote_on_post. repeat (case_match; try done); views. Qed.
Lemma vote_on_comment_views c t cu db redis : same_views db (store (vote_on_comment c t cu db redis)).
Proof. unfold vote_on_comment. repeat (case_match; try done); views. Qed.
Lemma update_profile_views d cu db redis : same_views db (store (update_profile d cu db redis)).
Proof. unfold update_profile. repeat (case_match; try done); views. Qed.
Lemma register_user_views d db redis : same_views db (store (register_user d db redis)).
Proof. unfold register_user. repeat (case_match; try done); views. Qed.
Lemma delete_post_views p cu db redis : same_views db (store (delete_post p cu db redis)).
Proof. unfold delete_post. repeat (case_match; try done); views. Qed.

Lemma post_view_insert db p q row :
  (λ r, (Post.accepted_answer_id r, Post.is_answered r)) <$> <[p := row]> (posts db) !! q
  = if decide (p = q) then Some (Post.accepted_answer_id row, Post.is_answered row)
    else post_view db q.
Proof. rewrite lookup_insert. by case_decide. Qed.

Lemma comment_view_insert db c q row :
  (λ r, (Comment.post_id r, Comment.is_accepted r)) <$> <[c := row]> (comments db) !! q
  = if decide (c = q) then Some (Comment.post_id row, Comment.is_accepted row)
    else comment_view db q.
Proof. rewrite lookup_insert. by case_decide. Qed.

Lemma create_post_store_inv ty cu db redis :
  store_inv db → store_inv (store (create_post ty cu db redis)).
Proof.
  intros [[Hn1 Hn2] Hpid Hcid Hacc Hflag].
  split; unfold post_view, comment_view; cbn; fold (comment_view db).
  - lia.
  - intros p v. rewrite post_view_insert. case_decide; [intros [= <-]; cbn; lia|].
    intros Hv. destruct (Hpid _ _ Hv). split; [lia|done].
  - done.
  - intros p c b. rewrite post_view_insert. case_decide; [done|]. apply Hacc.
  - intros c p Hc. destruct (Hflag _ _ Hc) as [b Hb]. exists b.
    rewrite post_view_insert. case_decide; [|done].
    destruct (Hpid _ _ Hb); lia.
Qed.

(** [create_comment] rejects, or adds an unflagged comment of the post under
    the next key and touches nothing else the accept logic reads. *)
Lemma create_comment_effect p d cu db redis :
  let db' := store (create_comment p d cu db redis) in
  db' = db ∨
  (next_post_id db' = next_post_id db ∧
   next_comment_id db' = next_comment_id db + 1 ∧
   (∀ q, post_view db' q = post_view db q) ∧
   (∀ x, comment_view db' x
         = if decide (next_comment_id db = x) then Some (p, false)
           else comment_view db x)).
Proof.
  cbv zeta. unfold create_comment.
  repeat (case_match; try (by left)); right;
    unfold post_view, comment_view; frame;
    (split_and!; [done | done | |]; intros;
     rewrite ?view_alter by done; [done | apply comment_view_insert]).
Qed.

Lemma create_comment_store_inv p d cu db redis :
  store_inv db → store_inv (store (create_comment p d cu db redis)).
Proof.
  intros Hinv.
  destruct (create_comment_effect p d cu db redis) as [-> | (Hn1 & Hn2 & Hpv & Hcv)];
    [done|].
  destruct Hinv as [[Hp0 Hc0] Hpid Hcid Hacc Hflag].
  split; rewrite ?Hn1, ?Hn2.
  - lia.
  - intros q v. rewrite Hpv. apply Hpid.
  - intros x v. rewrite Hcv. case_decide as Hx; [intros _; lia|].
    intros Hv. pose proof (Hcid _ _ Hv). lia.
  - intros q c b. rewrite Hpv, Hcv. intros Hc%Hacc.
    pose proof (Hcid _ _ Hc). case_decide; [lia|done].
  - intros x q. rewrite Hcv. setoid_rewrite Hpv. case_decide; [done|]. apply Hflag.
Qed.

Lemma query_live_comment_of_Some db c p row :
  query_live_comment_of db c p = Some row →
  comments db !! c = Some row ∧ Comment.post_id row = p ∧ Comment.is_deleted row = false.
Proof.
  unfold query_live_comment_of. destruct (comments db !! c) as [r|]; [|done].
  destruct (Comment.post_id r =? p) eqn:Hp; [|done].
  destruct (Comment.is_deleted r) eqn:Hd; [done|].
  intros [= <-]. by apply Z.eqb_eq in Hp.
Qed.

Lemma post_view_set_accepted db p q v :
  (λ r, (Post.accepted_answer_id r, Post.is_answered r))
    <$> alter (Post.set_accepted_answer_id v) p (posts db) !! q
  = if decide (q = p) then (λ w, (v, w.2)) <$> post_view db p else post_view db q.
Proof.
  unfold post_view. rewrite lookup_alter.
  destruct (decide (p = q)) as [->|]; [rewrite decide_True by done|by rewrite decide_False].
  by destruct (posts db !! q).
Qed.

Lemma comment_view_set_flag (m : gmap Z Comment.t) c x f :
  (λ r, (Comment.post_id r, Comment.is_accepted r))
    <$> alter (Comment.set_is_accepted f) c m !! x
  = if decide (x = c)
    then (λ r, (Comment.post_id r, f)) <$> m !! c
    else (λ r, (Comment.post_id r, Comment.is_accepted r)) <$> m !! x.
Proof.
  rewrite lookup_alter.
  destruct (decide (c = x)) as [->|]; [rewrite decide_True by done|by rewrite decide_False].
  by destruct (m !! x).
Qed.

Lemma accept_answer_effect p c cu db redis :
  store_inv db →
  accept_effect db (store (accept_answer p c cu db redis)) p c.
Proof.
  intros [[Hn1 Hn2] Hpid Hcid Hacc Hflag].
  unfold accept_answer.
  destruct (query_live_post db p) as [post|] eqn:Hq; [|by apply effect_rejected].
  apply query_live_post_Some in Hq as [Hpost _].
  destruct (negb _); [by apply effect_rejected|].
  destruct (negb _); [by apply effect_rejected|].
  destruct (query_live_comment_of db c p) as [comment|] eqn:Hc; [|by apply effect_rejected].
  apply query_live_comment_of_Some in Hc as (Hcomment & Hcp & _).
  assert (Hpv : post_view db p = Some (Post.accepted_answer_id post, Post.is_answered post))
    by (unfold post_view; by rewrite Hpost).
  assert (Hcv : comment_view db c = Some (p, Comment.is_accepted comment))
    by (unfold comment_view; rewrite Hcomment; cbn; by rewrite Hcp).
  destruct (Comment.is_accepted comment && _) eqn:Hcond.
  - apply andb_true_iff in Hcond as [Hflagged Hsame%bool_decide_eq_true].
    rewrite Hsame in Hpv. rewrite Hflagged in Hcv.
    eapply effect_unaccepted; [exact Hpv|exact Hcv|by frame|by frame| |].
    + intros q. unfold post_view at 1. frame. rewrite post_view_set_accepted, Hpv.
      done.
    + intros x. unfold comment_view at 1. frame. rewrite comment_view_set_flag, Hcomment.
      cbn. by rewrite Hcp.
  - assert (Hne : Post.accepted_answer_id post ≠ Some c).
    { intros Hsame. rewrite Hsame in Hpv. apply Hacc in Hpv.
      rewrite Hcv in Hpv. injection Hpv as Hflagged.
      rewrite Hflagged, Hsame in Hcond. by rewrite bool_decide_eq_true_2 in Hcond. }
    clear Hcond.
    eapply effect_accepted; [exact Hpv|exact Hne|exact Hcv| | | |].
    + by frame.
    + by frame.
    + intros q. unfold post_view at 1. frame. rewrite post_view_set_accepted, Hpv.
      done.
    + intros x. unfold comment_view at 1. frame. rewrite comment_view_set_flag.
      unfold unaccept_previous.
      destruct (Post.accepted_answer_id post) as [old|] eqn:Hold; cbn [truthy].
      * pose proof (Hacc _ _ _ Hpv) as Hov. pose proof (Hcid _ _ Hov) as Hpos.
        unfold comment_view in Hov.
        destruct (comments db !! old) as [orow|] eqn:Horow; [|done].
        injection Hov as Hop Hof.
        rewrite (proj2 (Z.eqb_neq old 0)) by lia. cbn [negb]. frame.
        assert (old ≠ c) by congruence.
        destruct (decide (x = c)) as [->|].
        { rewrite lookup_alter_ne, Hcomment by done. cbn. by rewrite Hcp. }
        rewrite comment_view_set_flag, Horow. cbn. rewrite Hop.
        destruct (decide (x = old)) as [->|].
        { by rewrite decide_True. }
        rewrite decide_False by congruence. done.
      * destruct (decide (x = c)) as [->|].
        { rewrite Hcomment. cbn. by rewrite Hcp. }
        by rewrite decide_False.
Qed.

Lemma accept_effect_store_inv db db' p c :
  store_inv db → accept_effect db db' p c → store_inv db'.
Proof.
  intros Hinv [Hsame | b Hpv Hcv Hn1 Hn2 Hpv' Hcv' | old b f Hpv Hne Hcv Hn1 Hn2 Hpv' Hcv'].
  { by eapply store_inv_same_views. }
  - destruct Hinv as [Hnext Hpid Hcid Hacc Hflag].
    split; rewrite ?Hn1, ?Hn2; [done|..].
    + intros q v. rewrite Hpv'. case_decide as Hq; [|apply Hpid].
      subst q. intros [= <-]. apply (Hpid _ _ Hpv).
    + intros x v. rewrite Hcv'. case_decide as Hx; [|apply Hcid].
      subst x. intros _. apply (Hcid _ _ Hcv).
    + intros q c0 b0. rewrite Hpv', Hcv'. case_decide as Hq; [done|].
      intros Hc0%Hacc. case_decide as Hx; [|done].
      subst c0. congruence.
    + intros x q. rewrite Hcv'. case_decide as Hx; [done|].
      intros Hxq. destruct (Hflag _ _ Hxq) as [b0 Hb0]. exists b0.
      rewrite Hpv'. case_decide as Hq; [|done]. subst q. congruence.
  - destruct Hinv as [Hnext Hpid Hcid Hacc Hflag].
    split; rewrite ?Hn1, ?Hn2; [done|..].
    + intros q v. rewrite Hpv'. case_decide as Hq; [|apply Hpid].
      subst q. intros [= <-]. apply (Hpid _ _ Hpv).
    + intros x v. rewrite Hcv'. case_decide as Hx.
      { subst x. intros _. apply (Hcid _ _ Hcv). }
      case_decide as Hold; [|apply Hcid].
      subst old. intros _. apply (Hcid _ _ (Hacc _ _ _ Hpv)).
    + intros q c0 b0. rewrite Hpv', Hcv'. case_decide as Hq.
      { subst q. intros [= <- <-]. by rewrite decide_True. }
      intros Hc0%Hacc. case_decide as Hx; [subst c0; congruence|].
      case_decide as Hold; [|done].
      subst old. apply Hacc in Hpv. congruence.
    + intros x q. rewrite Hcv'. case_decide as Hx.
      { intros [= <-]. subst x. exists b. rewrite Hpv'. by rewrite decide_True. }
      case_decide as Hold; [done|].
      intros Hxq. destruct (Hflag _ _ Hxq) as [b0 Hb0]. exists b0.
      rewrite Hpv'. case_decide as Hq; [|done]. subst q. congruence.
Qed.

Lemma accept_answer_store_inv p c cu db redis :
  store_inv db → store_inv (store (accept_answer p c cu db redis)).
Proof. intros H. eapply accept_effect_store_inv; [done|by apply accept_answer_effect]. Qed.

Lemma empty_db_store_inv : store_inv empty_db.
Proof. by split. Qed.

Lemma handle_store_inv sub req db redis :
  store_inv db → store_inv (store (handle sub req db redis)).
Proof.
  intros H. destruct req; cbn [handle]; rewrite store_map_outcome;
    unfold authenticated; try (destruct (get_current_user sub db); [|done]).
  - eapply store_inv_same_views; [apply register_user_views|done].
  - by apply create_post_store_inv.
  - eapply store_inv_same_views; [apply delete_post_views|done].
  - by apply create_comment_store_inv.
  - eapply store_inv_same_views; [apply vote_on_post_views|done].
  - eapply store_inv_same_views; [apply vote_on_comment_views|done].
  - by apply accept_answer_store_inv.
  - eapply store_inv_same_views; [apply update_profile_views|done].
Qed.

Lemma run_store_inv history db redis :
  store_inv db → store_inv (run history db redis).1.
Proof.
  revert db redis. induction history as [|[sub req] rest IH]; intros db redis H; [done|].
  cbn [run]. apply IH. by apply handle_store_inv.
Qed.

Lemma reachable_store_inv db : reachable db → store_inv db.
Proof. intros (history & redis & <-). apply run_store_inv, empty_db_store_inv. Qed.

Lemma store_inv_accept_invariant db : store_inv db → accept_invariant db.
Proof.
  intros [_ _ _ Hacc Hflag]. split.
  - intros c1 c2 r1 r2 H1 H2 Hp Ha1 Ha2.
    assert (Hv1 : comment_view db c1 = Some (Comment.post_id r1, true))
      by (unfold comment_view; rewrite H1; cbn; by rewrite Ha1).
    assert (Hv2 : comment_view db c2 = Some (Comment.post_id r1, true))
      by (unfold comment_view; rewrite H2; cbn; by rewrite Ha2, Hp).
    destruct (Hflag _ _ Hv1) as [b1 Hb1], (Hflag _ _ Hv2) as [b2 Hb2]. congruence.
  - intros p post c Hpost Hc.
    assert (Hv : post_view db p = Some (Some c, Post.is_answered post))
      by (unfold post_view; rewrite Hpost; cbn; by rewrite Hc).
    apply Hacc in Hv. unfold comment_view in Hv.
    destruct (comments db !! c) as [row|]; [|done].
    injection Hv as ??. by exists row.
Qed.

(** C2. In every reachable store, and in the store any call of
    [accept_answer] (accept, transfer, unaccept or rejection) makes of it,
    at most one comment per post has [is_accepted] set, and whenever a
    post's [accepted_answer_id] is set it names a comment of that post whose
    [is_accepted] flag is set. *)
Theorem accept_answer_keeps_one_accepted_answer (db : DB)
    (post_id comment_id current_user : Z) (redis_client : RedisClient) :
  reachable db →
  accept_invariant db ∧
  accept_invariant (store (accept_answer post_id comment_id current_user db redis_client)).
Proof.
  intros Hinv%reachable_store_inv. split; apply store_inv_accept_invariant; [done|].
  by apply accept_answer_store_inv.
Qed.

(** C3. Let a live question name comment [c1] (author C) as its accepted
    answer and let [c2] (author D) be another live comment of the same post.
    When the post's author asks to accept [c2], the handler answers
    "accepted" and its one commit leaves: [c1] unflagged, [c2] flagged,
    [accepted_answer_id = c2], C's karma lowered by 15 and D's raised by 15
    (both on the same row when C and D are the same user), every other
    user's karma as it was.  Primary keys start at 1; the handler's test
    [if post.accepted_answer_id:] reads an id of 0 as no accepted answer,
    hence [c1 ≠ 0]. *)
Theorem accept_transfers_the_accepted_answer (db : DB) (redis_client : RedisClient)
    (post_id c1 c2 current_user : Z) (post : Post.t) (row1 row2 : Comment.t)
    (C D : User.t) :
  posts db !! post_id = Some post →
  Post.is_deleted post = false →
  Post.post_type post = QUESTION →
  Post.author_id post = current_user →
  Post.accepted_answer_id post = Some c1 →
  c1 ≠ 0 →
  comments db !! c1 = Some row1 →
  users db !! Comment.author_id row1 = Some C →
  comments db !! c2 = Some row2 →
  Comment.post_id row2 = post_id →
  Comment.is_deleted row2 = false →
  users db !! Comment.author_id row2 = Some D →
  c2 ≠ c1 →
  let o := accept_answer post_id c2 current_user db redis_client in
  response o = Success accepted_reply ∧
  Comment.is_accepted <$> comments (store o) !! c1 = Some false ∧
  Comment.is_accepted <$> comments (store o) !! c2 = Some true ∧
  Post.accepted_answer_id <$> posts (store o) !! post_id = Some (Some c2) ∧
  ∀ u, User.karma_score <$> users (store o) !! u
       = (λ k, k - (if decide (u = Comment.author_id row1) then 15 else 0)
                 + (if decide (u = Comment.author_id row2) then 15 else 0))
         <$> (User.karma_score <$> users db !! u).
Proof.
  intros Hpost Hlive Hty Hau Hacc Hnz Hc1 HC Hc2 Hp2 Hd2 HD Hne. cbv zeta.
  unfold accept_answer, query_live_post, query_live_comment_of.
  rewrite Hpost, Hlive, Hau, Z.eqb_refl, Hty, Hc2, Hp2, Z.eqb_refl, Hd2, Hacc.
  rewrite bool_decide_eq_true_2 by done. cbn [negb andb].
  rewrite bool_decide_eq_false_2 by congruence. rewrite andb_false_r.
  unfold unaccept_previous. rewrite Hacc. cbn [truthy].
  rewrite (proj2 (Z.eqb_neq c1 0)) by done. cbn [negb]. rewrite Hc1.
  unfold query_author. cbn. rewrite HC. cbn.
  assert (HD' : is_Some (alter (User.set_karma_score (λ k, k + -15))
                           (Comment.author_id row1) (users db)
                         !! Comment.author_id row2))
    by (apply lookup_alter_is_Some; eauto).
  destruct HD' as [D' ->]. cbn.
  split_and!.
  - done.
  - by rewrite lookup_alter_ne, lookup_alter_eq, Hc1.
  - by rewrite lookup_alter_eq, lookup_alter_ne, Hc2.
  - by rewrite lookup_alter_eq, Hpost.
  - intros u. rewrite !lookup_alter.
    repeat case_decide; subst; rewrite ?HC, ?HD; cbn;
      try (destruct (users db !! u); cbn); try done;
      unfold User.set_karma_score; cbn; try congruence;
      try (replace D with C by congruence); f_equal; lia.
Qed.

Lemma accept_answer_keeps_one_accepted_answer_witness :
  reachable accepted_db ∧
  accept_invariant accepted_db ∧
  accept_invariant (store (accept_answer 1 2 1 accepted_db MockRedisClient)).
Proof.
  assert (Hr : reachable accepted_db).
  { exists (demo_history ++ [(1, AcceptAnswer 1 1)])%list, MockRedisClient.
    vm_compute. reflexivity. }
  split; [exact Hr|].
  exact (accept_answer_keeps_one_accepted_answer accepted_db 1 2 1 MockRedisClient Hr).
Defined.

Lemma accept_transfers_the_accepted_answer_witness :
  let o := accept_answer 1 2 1 accepted_db MockRedisClient in
  response o = Success accepted_reply ∧
  Comment.is_accepted <$> comments (store o) !! 1 = Some false ∧
  Comment.is_accepted <$> comments (store o) !! 2 = Some true ∧
  Post.accepted_answer_id <$> posts (store o) !! 1 = Some (Some 2) ∧
  ∀ u, User.karma_score <$> users (store o) !! u
       = (λ k, k - (if decide (u = 2) then 15 else 0) + (if decide (u = 3) then 15 else 0))
         <$> (User.karma_score <$> users accepted_db !! u).
Proof.
  apply (accept_transfers_the_accepted_answer accepted_db MockRedisClient 1 1 2 1
           (Post.mk QUESTION 1 0 0 2 2 false (Some 1) false false)
           (Comment.mk 1 2 None 0 0 0 true true false)
           (Comment.mk 1 3 None 0 0 0 true false false)
           (User.mk "bob@salad.dev" "bob" "Bob" None None (Some "Bob") true 0 1 15)
           (User.mk "carol@salad.dev" "carol" "Carol" None None (Some "Carol") true 0 1 0));
    first [lia | vm_compute; reflexivity].
Defined.

(** X25. In a reachable store no post has [is_answered] set, accepted answer
    or not. *)
Lemma reachable_is_answered_false db p post :
  reachable db → posts db !! p = Some post → Post.is_answered post = false.
Proof.
  intros [_ Hpid _ _ _]%reachable_store_inv Hpost.
  apply (Hpid p (Post.accepted_answer_id post, Post.is_answered post)).
  unfold post_view. by rewrite Hpost.
Qed.

Lemma reachable_is_answered_false_witness :
  posts accepted_db !! 1
  = Some (Post.mk QUESTION 1 0 0 2 2 false (Some 1) false false) ∧
  Post.is_answered (Post.mk QUESTION 1 0 0 2 2 false (Some 1) false false) = false.
Proof.
  assert (Hr : reachable accepted_db).
  { exists (demo_history ++ [(1, AcceptAnswer 1 1)])%list, MockRedisClient.
    vm_compute. reflexivity. }
  assert (Hrow : posts accepted_db !! 1
                 = Some (Post.mk QUESTION 1 0 0 2 2 false (Some 1) false false))
    by (vm_compute; reflexivity).
  split; [exact Hrow|].
  exact (reachable_is_answered_false accepted_db 1 _ Hr Hrow).
Defined.

Example accepted_db_is_answered :
  (λ r, (Post.accepted_answer_id r, Post.is_answered r)) <$> posts accepted_db !! 1
  = Some (Some 1, false).
Proof. reflexivity. Qed.

(** * Rejected requests *)




(** * The write handlers and the contents of the cache *)

Lemma only_removes_ret {A} (a : A) : only_removes (cache_ret a).
Proof. by intros c. Qed.

Lemma only_removes_raise {A} : only_removes (py_raise (A := A)).
Proof. by intros c. Qed.

Lemma only_removes_bind {A B} (m : Cache A) (k : A → Cache B) :
  only_removes m → (∀ a, only_removes (k a)) → only_removes (cache_bind m k).
Proof.
  intros Hm Hk c. unfold cache_bind. specialize (Hm c).
  destruct (m c) as [[a|] c']; [|done].
  etrans; [apply Hk|done].
Qed.

Lemma only_removes_delete key : only_removes (redis_delete key).
Proof.
  intros [r|]; [|done]. unfold redis_delete, on_real, redis_call.
  destruct (fault r (calls r)); cbn; [done|]. apply delete_subseteq.
Qed.

Lemma only_removes_scan p : only_removes (redis_scan_iter p).
Proof.
  intros [r|]; [|done]. unfold redis_scan_iter, on_real, redis_call.
  by destruct (fault r (calls r)).
Qed.

Lemma only_removes_delete_each keys : only_removes (delete_each keys).
Proof.
  induction keys as [|key rest IH]; cbn [delete_each].
  - apply only_removes_ret.
  - apply only_removes_bind; [apply only_removes_delete|done].
Qed.

Lemma only_removes_sweep_prefix p : only_removes (sweep_prefix p).
Proof.
  apply only_removes_bind; [apply only_removes_scan|].
  intros keys. apply only_removes_delete_each.
Qed.

Ltac only_removes :=
  repeat first
    [ apply only_removes_sweep_prefix
    | apply only_removes_delete
    | apply only_removes_ret
    | apply only_removes_raise
    | apply only_removes_bind; [|intros ?]
    | match goal with |- only_removes (match ?a with _ => _ end) => destruct a as [[]|] end ].

Lemma only_removes_try (m : Cache unit) c :
  only_removes m → entries_of (try_except m c) ⊆ entries_of c.
Proof. intros Hm. apply Hm. Qed.

Lemma sweeps_only_remove :
  (∀ p a, only_removes (post_vote_sweep p a)) ∧
  (∀ p a, only_removes (comment_vote_sweep p a)) ∧
  (∀ p a, only_removes (accept_sweep p a)) ∧
  (∀ p n, only_removes (comment_sweep p n)) ∧
  (∀ n, only_removes (create_post_sweep n)) ∧
  (∀ p n, only_removes (delete_post_sweep p n)) ∧
  (∀ n, only_removes (profile_sweep n)) ∧
  (∀ u, only_removes (register_sweep u)).
Proof.
  split_and!; intros;
    unfold post_vote_sweep, comment_vote_sweep, accept_sweep, comment_sweep,
      create_post_sweep, delete_post_sweep, profile_sweep, register_sweep;
    only_removes.
Qed.

(** X2. No write request adds or changes a cache entry: whatever the
    request, the store, the entries and the calls that raise, the entries
    after the request are among the entries before it. *)
Theorem write_handlers_never_fill_the_cache (sub : Z) (req : Request) (db : DB)
    (redis_client : RedisClient) :
  entries_of (cache (handle sub req db redis_client)) ⊆ entries_of redis_client.
Proof.
  destruct sweeps_only_remove as (H1 & H2 & H3 & H4 & H5 & H6 & H7 & H8).
  destruct req; cbn [handle]; unfold cache, map_outcome, authenticated; cbn;
    try (destruct (get_current_user sub db); cbn; [|done]);
    unfold register_user, create_post, delete_post, create_comment, vote_on_post,
      vote_on_comment, accept_answer, update_profile;
    repeat case_match; cbn; try done;
    apply only_removes_try; auto.
Qed.

(** X3. Registration leaves the cache client exactly as it was, entries and
    call count: its sweep raises at [next(get_redis())] before the first
    deletion, and the exception is swallowed. *)
Theorem register_user_leaves_the_cache_untouched (user_data : UserRegistration)
    (db : DB) (redis_client : RedisClient) :
  cache (register_user user_data db redis_client) = redis_client.
Proof. unfold register_user. by repeat case_match. Qed.

(** * The sweeps of the other handlers, on a cache that answers *)

Ltac deletes_sweep :=
  repeat first [apply deletes_prefix | apply deletes_key | apply deletes_seq].

Lemma deletes_comment_vote_sweep p uid author :
  deletes (comment_vote_sweep p (Some (uid, author)))
    (λ k, String.prefix ("post:" +:+ pretty p +:+ ":comments:") k = true
          ∨ k = "user:profile:" +:+ User.display_name author
          ∨ String.prefix "users:top:" k = true).
Proof. unfold comment_vote_sweep. deletes_sweep. Qed.

Lemma deletes_accept_sweep p uid author :
  deletes (accept_sweep p (Some (uid, author)))
    (λ k, k = "post:" +:+ pretty p
          ∨ String.prefix ("post:" +:+ pretty p +:+ ":comments:") k = true
          ∨ k = "user:profile:" +:+ User.display_name author
          ∨ String.prefix "users:top:" k = true).
Proof. unfold accept_sweep. deletes_sweep. Qed.

Lemma deletes_comment_sweep p name :
  deletes (comment_sweep p name)
    (λ k, k = "post:" +:+ pretty p
          ∨ String.prefix ("post:" +:+ pretty p +:+ ":comments:") k = true
          ∨ String.prefix "posts:list:" k = true
          ∨ k = "user:profile:" +:+ name).
Proof. unfold comment_sweep. deletes_sweep. Qed.


Lemma deletes_delete_post_sweep p name :
  deletes (delete_post_sweep p name)
    (λ k, k = "post:" +:+ pretty p
          ∨ String.prefix "posts:list:" k = true
          ∨ k = "user:profile:" +:+ name).
Proof. unfold delete_post_sweep. deletes_sweep. Qed.

Lemma deletes_profile_sweep name :
  deletes (profile_sweep name)
    (λ k, k = "user:profile:" +:+ name
          ∨ String.prefix "users:search:" k = true
          ∨ String.prefix "users:top:" k = true
          ∨ k = "users:stats").
Proof. unfold profile_sweep. deletes_sweep. Qed.


(** X4. After a vote on a live comment whose author row is there, with a
    cache that answers every call, a read of any key under the comment list
    of the comment's post, of the author's profile key and of any key under
    [users:top:] is a miss. *)
Theorem vote_on_comment_sweep (comment_id : Z) (vote_data : VoteType)
    (current_user : Z) (db : DB) (redis_client : RedisClient)
    (comment : Comment.t) (comment_author : User.t) :
  never_faults redis_client →
  query_live_comment db comment_id = Some comment →
  users db !! Comment.author_id comment = Some comment_author →
  let after := cache (vote_on_comment comment_id vote_data current_user db redis_client) in
  (∀ key, String.prefix ("post:" +:+ pretty (Comment.post_id comment) +:+ ":comments:") key
          = true → cache_miss key after) ∧
  cache_miss ("user:profile:" +:+ User.display_name comment_author) after ∧
  (∀ key, String.prefix "users:top:" key = true → cache_miss key after).
Proof.
  intros Hc Hq Ha. cbv zeta.
  assert (cache (vote_on_comment comment_id vote_data current_user db redis_client)
          = try_except (comment_vote_sweep (Comment.post_id comment)
                          (Some (Comment.author_id comment, comment_author))) redis_client)
    as ->.
  { unfold vote_on_comment, query_author. rewrite Hq, Ha. by repeat case_match. }
  pose proof (miss_after_deletes _ _ redis_client Hc
                (deletes_comment_vote_sweep (Comment.post_id comment)
                   (Comment.author_id comment) comment_author) eq_refl) as Hmiss.
  split_and!; intros; apply Hmiss; auto.
Qed.

Lemma vote_on_comment_sweep_witness :
  let after := cache (vote_on_comment 1 UPVOTE 1 demo_db warm_redis) in
  (∀ key, String.prefix ("post:" +:+ pretty 1 +:+ ":comments:") key = true →
          cache_miss key after) ∧
  cache_miss ("user:profile:" +:+ "Bob") after ∧
  (∀ key, String.prefix "users:top:" key = true → cache_miss key after).
Proof.
  apply (vote_on_comment_sweep 1 UPVOTE 1 demo_db warm_redis
           (Comment.mk 1 2 None 0 0 0 true false false)
           (User.mk "bob@salad.dev" "bob" "Bob" None None (Some "Bob") true 0 1 0));
    [intros n; reflexivity | vm_compute; reflexivity | vm_compute; reflexivity].
Defined.



Lemma name_of_author_karma a d db u : name_of (author_karma a d db) u = name_of db u.
Proof.
  unfold name_of. destruct a as [[v ?]|]; [|done]. cbn. by rewrite view_alter.
Qed.

Lemma name_of_unaccept_previous post db u :
  name_of (unaccept_previous post db) u = name_of db u.
Proof.
  unfold unaccept_previous. repeat (case_match; try done).
  by rewrite name_of_author_karma.
Qed.

Lemma query_author_name db a name :
  name_of db a = Some name →
  ∃ u, query_author db a = Some (a, u) ∧ User.display_name u = name.
Proof.
  unfold name_of, query_author. destruct (users db !! a) as [u|]; [|done].
  intros [= <-]. eauto.
Qed.

(** X6. After an [accept_answer] that succeeds (accept or unaccept), with a
    cache that answers every call, a read of the post's key, of any key under
    its comment lists, of the profile key of the comment's author and of any
    key under [users:top:] is a miss. *)
Theorem accept_answer_sweep (post_id comment_id current_user : Z) (db : DB)
    (redis_client : RedisClient) (comment : Comment.t) (comment_author : User.t) :
  never_faults redis_client →
  comments db !! comment_id = Some comment →
  users db !! Comment.author_id comment = Some comment_author →
  let o := accept_answer post_id comment_id current_user db redis_client in
  is_success (response o) →
  cache_miss ("post:" +:+ pretty post_id) (cache o) ∧
  (∀ key, String.prefix ("post:" +:+ pretty post_id +:+ ":comments:") key = true →
          cache_miss key (cache o)) ∧
  cache_miss ("user:profile:" +:+ User.display_name comment_author) (cache o) ∧
  (∀ key, String.prefix "users:top:" key = true → cache_miss key (cache o)).
Proof.
  intros Hc Hcomment Ha. cbv zeta.
  assert (Hname : name_of db (Comment.author_id comment)
                  = Some (User.display_name comment_author))
    by (unfold name_of; by rewrite Ha).
  unfold accept_answer.
  destruct (query_live_post db post_id) as [post|]; [|done].
  destruct (negb _); [done|]. destruct (negb _); [done|].
  destruct (query_live_comment_of db comment_id post_id) as [row|] eqn:Hq; [|done].
  apply query_live_comment_of_Some in Hq as (Hrow & _ & _).
  assert (row = comment) as -> by congruence.
  destruct (Comment.is_accepted comment && _); intros _; unfold cache; cbn [snd].
  all: match goal with |- context [accept_sweep _ (query_author ?d ?a)] =>
         destruct (query_author_name d a (User.display_name comment_author))
           as (u & -> & Hu) end.
  1: done.
  2: { change (name_of (unaccept_previous post db) (Comment.author_id comment)
               = Some (User.display_name comment_author)).
       by rewrite name_of_unaccept_previous. }
  all: rewrite <- Hu;
    pose proof (miss_after_deletes _ _ redis_client Hc
                  (deletes_accept_sweep post_id (Comment.author_id comment) u) eq_refl)
      as Hmiss;
    split_and!; intros; apply Hmiss; auto.
Qed.

Lemma accept_answer_sweep_witness :
  let o := accept_answer 1 1 1 demo_db warm_redis in
  cache_miss ("post:" +:+ pretty 1) (cache o) ∧
  (∀ key, String.prefix ("post:" +:+ pretty 1 +:+ ":comments:") key = true →
          cache_miss key (cache o)) ∧
  cache_miss ("user:profile:" +:+ "Bob") (cache o) ∧
  (∀ key, String.prefix "users:top:" key = true → cache_miss key (cache o)).
Proof.
  apply (accept_answer_sweep 1 1 1 demo_db warm_redis
           (Comment.mk 1 2 None 0 0 0 true false false)
           (User.mk "bob@salad.dev" "bob" "Bob" None None (Some "Bob") true 0 1 0));
    [intros n; reflexivity | vm_compute; reflexivity | vm_compute; reflexivity | vm_compute; exact I].
Defined.

(** X7. After a [create_comment] that succeeds, with a cache that answers
    every call, a read of the post's key, of any key under its comment lists
    and under [posts:list:], and of the commenter's profile key is a miss. *)
Theorem create_comment_sweep (post_id : Z) (comment_data : CommentCreate)
    (current_user : Z) (db : DB) (redis_client : RedisClient) :
  never_faults redis_client →
  let o := create_comment post_id comment_data current_user db redis_client in
  is_success (response o) →
  cache_miss ("post:" +:+ pretty post_id) (cache o) ∧
  (∀ key, String.prefix ("post:" +:+ pretty post_id +:+ ":comments:") key = true →
          cache_miss key (cache o)) ∧
  (∀ key, String.prefix "posts:list:" key = true → cache_miss key (cache o)) ∧
  cache_miss ("user:profile:" +:+ display_name_of db current_user) (cache o).
Proof.
  intros Hc. cbv zeta.
  pose proof (miss_after_deletes _ _ redis_client Hc
                (deletes_comment_sweep post_id (display_name_of db current_user)) eq_refl)
    as Hmiss.
  unfold create_comment. repeat (case_match; try done); intros _; unfold cache; cbn [snd].
  all: match goal with |- context [comment_sweep _ ?n] =>
         replace n with (display_name_of db current_user) end.
  all: try (split_and!; intros; apply Hmiss; auto).
  all: unfold display_name_of; cbn; rewrite lookup_alter;
    case_decide; [|done]; by destruct (users db !! current_user).
Qed.

Lemma create_comment_sweep_witness :
  let o := create_comment 1 (mkCommentCreate (Some 1) false) 1 demo_db warm_redis in
  cache_miss ("post:" +:+ pretty 1) (cache o) ∧
  (∀ key, String.prefix ("post:" +:+ pretty 1 +:+ ":comments:") key = true →
          cache_miss key (cache o)) ∧
  (∀ key, String.prefix "posts:list:" key = true → cache_miss key (cache o)) ∧
  cache_miss ("user:profile:" +:+ display_name_of demo_db 1) (cache o).
Proof.
  apply (create_comment_sweep 1 (mkCommentCreate (Some 1) false) 1 demo_db warm_redis);
    [intros n; reflexivity | vm_compute; exact I].
Defined.

(** X8. After a [delete_post] that succeeds, with a cache that answers every
    call, a read of the post's key, of any key under [posts:list:] and of
    the requester's profile key is a miss. *)
Theorem delete_post_sweep_misses (post_id current_user : Z) (db : DB)
    (redis_client : RedisClient) :
  never_faults redis_client →
  let o := delete_post post_id current_user db redis_client in
  is_success (response o) →
  cache_miss ("post:" +:+ pretty post_id) (cache o) ∧
  (∀ key, String.prefix "posts:list:" key = true → cache_miss key (cache o)) ∧
  cache_miss ("user:profile:" +:+ display_name_of db current_user) (cache o).
Proof.
  intros Hc. cbv zeta.
  pose proof (miss_after_deletes _ _ redis_client Hc
                (deletes_delete_post_sweep post_id (display_name_of db current_user)) eq_refl)
    as Hmiss.
  unfold delete_post. repeat (case_match; try done); intros _; unfold cache; cbn [snd].
  change (display_name_of _ current_user) with (display_name_of db current_user).
  split_and!; intros; apply Hmiss; auto.
Qed.

Lemma delete_post_sweep_misses_witness :
  let o := delete_post 1 1 demo_db warm_redis in
  cache_miss ("post:" +:+ pretty 1) (cache o) ∧
  (∀ key, String.prefix "posts:list:" key = true → cache_miss key (cache o)) ∧
  cache_miss ("user:profile:" +:+ display_name_of demo_db 1) (cache o).
Proof.
  apply (delete_post_sweep_misses 1 1 demo_db warm_redis);
    [intros n; reflexivity | vm_compute; exact I].
Defined.

(** X9. After [update_profile], accepted or refused, with a cache that
    answers every call, a read of the profile key under the user's display
    name as it was before the request, of any key under [users:search:] and
    [users:top:], and of [users:stats] is a miss. *)
Theorem update_profile_sweep (profile_data : UserUpdate) (current_user : Z) (db : DB)
    (redis_client : RedisClient) :
  never_faults redis_client →
  let after := cache (update_profile profile_data current_user db redis_client) in
  cache_miss ("user:profile:" +:+ display_name_of db current_user) after ∧
  (∀ key, String.prefix "users:search:" key = true → cache_miss key after) ∧
  (∀ key, String.prefix "users:top:" key = true → cache_miss key after) ∧
  cache_miss "users:stats" after.
Proof.
  intros Hc. cbv zeta.
  pose proof (miss_after_deletes _ _ redis_client Hc
                (deletes_profile_sweep (display_name_of db current_user)) eq_refl)
    as Hmiss.
  assert (cache (update_profile profile_data current_user db redis_client)
          = try_except (profile_sweep (display_name_of db current_user)) redis_client)
    as -> by (unfold update_profile; by repeat case_match).
  split_and!; intros; apply Hmiss; auto.
Qed.

Lemma update_profile_sweep_witness :
  let after :=
    cache (update_profile (mkUserUpdate (Given (Some "Bob")) Unset Unset) 1 demo_db
             warm_redis) in
  cache_miss ("user:profile:" +:+ display_name_of demo_db 1) after ∧
  (∀ key, String.prefix "users:search:" key = true → cache_miss key after) ∧
  (∀ key, String.prefix "users:top:" key = true → cache_miss key after) ∧
  cache_miss "users:stats" after.
Proof.
  apply (update_profile_sweep (mkUserUpdate (Given (Some "Bob")) Unset Unset) 1 demo_db
           warm_redis).
  intros n; reflexivity.
Defined.

(** * A repeated vote *)

(** X10. A user who holds one vote of type [t] on a live target and sends the
    same vote again is answered 500 by the endpoint, although the handler
    has removed the vote: afterwards the user holds no vote on the target. *)
Theorem repeated_vote_is_answered_500 (tg : Target) (t : VoteType) (sub : Z) (db : DB)
    (redis_client : RedisClient) :
  is_success (get_current_user sub db) →
  live tg db →
  votes_cast tg sub db = [t] →
  let o := handle sub (vote_request tg t) db redis_client in
  response o = HTTPException 500 "Internal Server Error" ∧
  votes_cast tg sub (store o) = [].
Proof.
  intros Hauth Hlive Hcast. cbv zeta.
  assert (get_current_user sub db = Success sub) as Hsub.
  { unfold get_current_user in *. by repeat case_match. }
  destruct tg as [p|c]; cbn [vote_request handle live votes_cast] in *;
    unfold authenticated; rewrite Hsub; destruct Hlive as [row Hq].
  - apply fmap_cons_inv in Hcast as (v & l & Ht & Hnil & Hf). symmetry in Hnil. apply fmap_nil_inv in Hnil as ->.
    destruct (first_of_one_row _ _ _ Hf) as (i & Hfind & Hdel & _).
    unfold vote_on_post. rewrite Hq, Hfind, decide_True by done.
    unfold map_outcome, response, store. cbn [fst snd with_response_model].
    split; [done|].
    cbn [with_post_votes post_votes]. destruct (PostVote.vote_type v); frame.
    all: by rewrite Hdel.
  - apply fmap_cons_inv in Hcast as (v & l & Ht & Hnil & Hf). symmetry in Hnil. apply fmap_nil_inv in Hnil as ->.
    destruct (first_of_one_row _ _ _ Hf) as (i & Hfind & Hdel & _).
    unfold vote_on_comment. rewrite Hq, Hfind, decide_True by done.
    unfold map_outcome, response, store. cbn [fst snd with_response_model].
    split; [done|].
    cbn [with_comment_votes comment_votes]. destruct (CommentVote.vote_type v); frame.
    all: by rewrite Hdel.
Qed.

Lemma repeated_vote_is_answered_500_witness :
  let o := handle 1 (vote_request (OnComment 1) UPVOTE) busy_db MockRedisClient in
  response o = HTTPException 500 "Internal Server Error" ∧
  votes_cast (OnComment 1) 1 (store o) = [].
Proof.
  apply (repeated_vote_is_answered_500 (OnComment 1) UPVOTE 1 busy_db MockRedisClient);
    [vm_compute; exact I | vm_compute; eauto | vm_compute; reflexivity].
Defined.

(** * Accepting and unaccepting *)

Lemma karma_undo (d : Z) (u : User.t) :
  User.set_karma_score (λ k, k + - d) (User.set_karma_score (λ k, k + d) u) = u.
Proof. destruct u. unfold User.set_karma_score. cbn. f_equal. lia. Qed.

(** X11. On a live question of the requester that has no accepted answer,
    accepting a live, unaccepted comment of the post and then sending the
    same request again first accepts, then unaccepts, and leaves the store
    exactly as it was before the two requests. *)
Theorem accept_twice_restores_store (db : DB) (redis_client : RedisClient)
    (post_id comment_id current_user : Z) (post : Post.t) (comment : Comment.t) :
  query_live_post db post_id = Some post →
  Post.author_id post = current_user →
  Post.post_type post = QUESTION →
  Post.accepted_answer_id post = None →
  query_live_comment_of db comment_id post_id = Some comment →
  Comment.is_accepted comment = false →
  let first := accept_answer post_id comment_id current_user db redis_client in
  let second := accept_answer post_id comment_id current_user (store first) (cache first) in
  response first = Success accepted_reply ∧
  response second = Success unaccepted_reply ∧
  store second = db.
Proof.
  intros Hq Hau Hty Hacc Hc Hflag. cbv zeta.
  pose proof Hq as [Hpost Hlive]%query_live_post_Some.
  pose proof Hc as (Hrow & Hp & Hdel)%query_live_comment_of_Some.
  destruct (accept_answer post_id comment_id current_user db redis_client)
    as [[r1 db1] c1] eqn:E1.
  unfold accept_answer in E1.
  rewrite Hq, Hau, Z.eqb_refl, Hty, bool_decide_eq_true_2, Hc, Hflag in E1 by done.
  unfold unaccept_previous in E1. rewrite Hacc in E1. cbn in E1.
  injection E1 as <- <- <-.
  split; [done|]. cbn [store cache fst snd].
  unfold accept_answer, query_live_post, query_live_comment_of, query_author.
  destruct db as [us ps cs pv cv n1 n2 n3 n4 n5]. cbn in Hpost, Hrow |- *.
  destruct (us !! Comment.author_id comment) as [author|] eqn:Hauthor; cbn.
  all: rewrite !lookup_alter_eq, Hpost, Hrow; cbn.
  all: unfold Post.set_accepted_answer_id, Comment.set_is_accepted; cbn.
  all: rewrite Hlive, Hau, Z.eqb_refl, Hty, bool_decide_eq_true_2, Hp, Z.eqb_refl, Hdel by done.
  all: cbn; rewrite bool_decide_eq_true_2 by done; cbn.
  all: rewrite ?lookup_alter_eq, ?Hauthor; cbn.
  all: split; [done|]; unfold store, update_user, update_post, update_comment,
         with_users, with_posts, with_comments; cbn; f_equal.
  all: rewrite alter_alter_eq; apply alter_id; intros x Hx; simplify_eq; cbn.
  all: first [ apply (karma_undo 15)
             | by destruct post; cbn in *; subst
             | by destruct comment; cbn in *; subst ].
Qed.

Lemma accept_twice_restores_store_witness :
  let first := accept_answer 1 2 1 demo_db MockRedisClient in
  let second := accept_answer 1 2 1 (store first) (cache first) in
  response first = Success accepted_reply ∧
  response second = Success unaccepted_reply ∧
  store second = demo_db.
Proof.
  apply (accept_twice_restores_store demo_db MockRedisClient 1 2 1
           (Post.mk QUESTION 1 0 0 2 2 false None false false)
           (Comment.mk 1 3 None 0 0 0 true false false)); vm_compute; reflexivity.
Defined.

Lemma ident_of_user_is_Some db u : is_Some (ident_of_user db u) ↔ is_Some (users db !! u).
Proof. unfold ident_of_user. apply fmap_is_Some. Qed.
Lemma ident_of_post_is_Some db p : is_Some (ident_of_post db p) ↔ is_Some (posts db !! p).
Proof. unfold ident_of_post. apply fmap_is_Some. Qed.
Lemma ident_of_comment_is_Some db c :
  is_Some (ident_of_comment db c) ↔ is_Some (comments db !! c).
Proof. unfold ident_of_comment. apply fmap_is_Some. Qed.

Lemma ident_of_post_row db p row :
  posts db !! p = Some row →
  ident_of_post db p = Some (Post.post_type row, Post.author_id row, Post.is_locked row).
Proof. unfold ident_of_post. by intros ->. Qed.
Lemma ident_of_comment_row db c row :
  comments db !! c = Some row →
  ident_of_comment db c
  = Some (Comment.post_id row, Comment.author_id row, Comment.parent_id row,
          Comment.is_answer row, Comment.is_deleted row).
Proof. unfold ident_of_comment. by intros ->. Qed.


Lemma author_karma_next_user_id a d db :
  next_user_id (author_karma a d db) = next_user_id db.
Proof. by destruct a as [[]|]. Qed.
Lemma author_karma_next_post_vote_id a d db :
  next_post_vote_id (author_karma a d db) = next_post_vote_id db.
Proof. by destruct a as [[]|]. Qed.
Lemma author_karma_next_comment_vote_id a d db :
  next_comment_vote_id (author_karma a d db) = next_comment_vote_id db.
Proof. by destruct a as [[]|]. Qed.
Lemma author_karma_ident a d db u :
  user_ident <$> users (author_karma a d db) !! u = user_ident <$> users db !! u.
Proof. destruct a as [[]|]; [|done]. cbn. by rewrite view_alter. Qed.
#[export] Hint Rewrite author_karma_next_user_id author_karma_next_post_vote_id
  author_karma_next_comment_vote_id author_karma_ident : frame.

Lemma unaccept_previous_next_user_id post db :
  next_user_id (unaccept_previous post db) = next_user_id db.
Proof. unfold unaccept_previous. repeat (case_match; try done); frame. Qed.
Lemma unaccept_previous_next_post_vote_id post db :
  next_post_vote_id (unaccept_previous post db) = next_post_vote_id db.
Proof. unfold unaccept_previous. repeat (case_match; try done); frame. Qed.
Lemma unaccept_previous_next_comment_vote_id post db :
  next_comment_vote_id (unaccept_previous post db) = next_comment_vote_id db.
Proof. unfold unaccept_previous. repeat (case_match; try done); frame. Qed.
Lemma unaccept_previous_user_ident post db u :
  user_ident <$> users (unaccept_previous post db) !! u = user_ident <$> users db !! u.
Proof.
  unfold unaccept_previous. repeat (case_match; try done); frame;
    by rewrite ?view_alter.
Qed.
Lemma unaccept_previous_comment_ident post db c :
  comment_ident <$> comments (unaccept_previous post db) !! c
  = comment_ident <$> comments db !! c.
Proof.
  unfold unaccept_previous. repeat (case_match; try done); frame;
    by rewrite ?view_alter.
Qed.
#[export] Hint Rewrite unaccept_previous_next_user_id unaccept_previous_next_post_vote_id
  unaccept_previous_next_comment_vote_id unaccept_previous_user_ident
  unaccept_previous_comment_ident : frame.

Ltac rows :=
  unfold same_rows, ident_of_user, ident_of_post, ident_of_comment;
  split_and!; intros;
  repeat (progress (cbn; autorewrite with frame;
                    rewrite ?view_alter
                      by first [done | by intros; unfold apply_field; repeat case_match]));
  done.

Lemma vote_on_post_rows p t cu db redis : same_rows db (store (vote_on_post p t cu db redis)).
Proof. unfold vote_on_post. repeat (case_match; try done); rows. Qed.
Lemma vote_on_comment_rows c t cu db redis :
  same_rows db (store (vote_on_comment c t cu db redis)).
Proof. unfold vote_on_comment. repeat (case_match; try done); rows. Qed.
Lemma accept_answer_rows p c cu db redis :
  same_rows db (store (accept_answer p c cu db redis)).
Proof. unfold accept_answer. repeat (case_match; try done); rows. Qed.
Lemma delete_post_rows p cu db redis : same_rows db (store (delete_post p cu db redis)).
Proof. unfold delete_post. repeat (case_match; try done); rows. Qed.
Lemma update_profile_rows d cu db redis :
  same_rows db (store (update_profile d cu db redis)).
Proof.
  unfold update_profile. repeat (case_match; try done); rows.
Qed.

(** The vote rows after a vote on a post: untouched, one row deleted, one
    row's type changed in place, or a row with the next key appended. *)
Lemma vote_on_post_rows_votes p t cu db redis :
  let db' := store (vote_on_post p t cu db redis) in
  comment_votes db' = comment_votes db ∧
  next_comment_vote_id db' = next_comment_vote_id db ∧
  ((next_post_vote_id db' = next_post_vote_id db ∧
    (post_votes db' = post_votes db
     ∨ (∃ i, post_votes db' = delete i (post_votes db))
     ∨ (∃ i x, post_votes db !! i = Some x ∧
               post_votes db' = <[i := PostVote.set_vote_type t x]> (post_votes db))))
   ∨ (is_Some (posts db !! p) ∧
      next_post_vote_id db' = next_post_vote_id db + 1 ∧
      post_votes db'
      = (post_votes db ++ [PostVote.mk (next_post_vote_id db) p cu t])%list)).
Proof.
  cbv zeta. unfold vote_on_post.
  destruct (query_live_post db p) as [post|] eqn:Hq; [|by split_and!; [..|left; split; [|left]]].
  apply query_live_post_Some in Hq as [Hpost _].
  destruct (list_find _ _) as [[i x]|] eqn:Hfind.
  - apply first_is_a_row in Hfind as [Hi Hx].
    case_decide; (split_and!; [by destruct (PostVote.vote_type x); frame..|]);
      left; (split; [by destruct (PostVote.vote_type x); frame|]); right.
    + left. exists i. by destruct (PostVote.vote_type x); frame.
    + right. exists i, x. split; [done|]. by destruct (PostVote.vote_type x); frame.
  - split_and!; [by destruct t; frame..|]. right.
    split_and!; [by eexists | by destruct t; frame..].
Qed.

Lemma vote_on_comment_rows_votes c t cu db redis :
  let db' := store (vote_on_comment c t cu db redis) in
  post_votes db' = post_votes db ∧
  next_post_vote_id db' = next_post_vote_id db ∧
  ((next_comment_vote_id db' = next_comment_vote_id db ∧
    (comment_votes db' = comment_votes db
     ∨ (∃ i, comment_votes db' = delete i (comment_votes db))
     ∨ (∃ i x, comment_votes db !! i = Some x ∧
               comment_votes db'
               = <[i := CommentVote.set_vote_type t x]> (comment_votes db))))
   ∨ (is_Some (comments db !! c) ∧
      next_comment_vote_id db' = next_comment_vote_id db + 1 ∧
      comment_votes db'
      = (comment_votes db ++ [CommentVote.mk (next_comment_vote_id db) c cu t])%list)).
Proof.
  cbv zeta. unfold vote_on_comment.
  destruct (query_live_comment db c) as [row|] eqn:Hq;
    [|by split_and!; [..|left; split; [|left]]].
  apply query_live_comment_Some in Hq as [Hrow _].
  destruct (list_find _ _) as [[i x]|] eqn:Hfind.
  - apply first_is_a_row in Hfind as [Hi Hx].
    case_decide; (split_and!; [by destruct (CommentVote.vote_type x); frame..|]);
      left; (split; [by destruct (CommentVote.vote_type x); frame|]); right.
    + left. exists i. by destruct (CommentVote.vote_type x); frame.
    + right. exists i, x. split; [done|]. by destruct (CommentVote.vote_type x); frame.
  - split_and!; [by destruct t; frame..|]. right.
    split_and!; [by eexists | by destruct t; frame..].
Qed.

Ltac same_votes := unfold same_votes; split_and!; frame.

Lemma accept_answer_same_votes p c cu db redis :
  same_votes db (store (accept_answer p c cu db redis)).
Proof. unfold accept_answer. repeat (case_match; try done); same_votes. Qed.
Lemma delete_post_same_votes p cu db redis :
  same_votes db (store (delete_post p cu db redis)).
Proof. unfold delete_post. repeat (case_match; try done); same_votes. Qed.
Lemma update_profile_same_votes d cu db redis :
  same_votes db (store (update_profile d cu db redis)).
Proof. unfold update_profile. repeat (case_match; try done); same_votes. Qed.
Lemma register_user_same_votes d db redis :
  same_votes db (store (register_user d db redis)).
Proof. unfold register_user. repeat (case_match; try done); same_votes. Qed.
Lemma create_post_same_votes ty cu db redis :
  same_votes db (store (create_post ty cu db redis)).
Proof. unfold create_post. same_votes. Qed.
Lemma create_comment_same_votes p d cu db redis :
  same_votes db (store (create_comment p d cu db redis)).
Proof. unfold create_comment. repeat (case_match; try done); same_votes. Qed.

(** [register_user] rejects, or adds one row under the next key. *)
Lemma register_user_rows d db redis :
  let db' := store (register_user d db redis) in
  db' = db ∨
  (next_user_id db' = next_user_id db + 1 ∧
   next_post_id db' = next_post_id db ∧
   next_comment_id db' = next_comment_id db ∧
   (∀ u, ident_of_user db' u
         = if decide (next_user_id db = u) then Some (ur_email d, ur_username d, true)
           else ident_of_user db u) ∧
   (∀ p, ident_of_post db' p = ident_of_post db p) ∧
   (∀ c, ident_of_comment db' c = ident_of_comment db c)).
Proof.
  cbv zeta. unfold register_user. repeat (case_match; try (by left)). right.
  unfold ident_of_user, ident_of_post, ident_of_comment. cbn.
  split_and!; try done. intros u. rewrite lookup_insert. by case_decide.
Qed.

Lemma create_post_rows ty cu db redis :
  let db' := store (create_post ty cu db redis) in
  next_user_id db' = next_user_id db ∧
  next_post_id db' = next_post_id db + 1 ∧
  next_comment_id db' = next_comment_id db ∧
  (∀ u, ident_of_user db' u = ident_of_user db u) ∧
  (∀ p, ident_of_post db' p
        = if decide (next_post_id db = p) then Some (ty, cu, false)
          else ident_of_post db p) ∧
  (∀ c, ident_of_comment db' c = ident_of_comment db c).
Proof.
  cbv zeta. unfold create_post, ident_of_user, ident_of_post, ident_of_comment. cbn.
  split_and!; try done.
  - intros u. by rewrite view_alter.
  - intros p. rewrite lookup_insert. by case_decide.
Qed.

(** [create_comment] rejects, or adds one comment of a post that is there,
    under the next key; its parent, if it names one, is a row of the table,
    and a comment of the same post unless the id is 0. *)
Lemma create_comment_rows p d cu db redis :
  let db' := store (create_comment p d cu db redis) in
  db' = db ∨
  (is_Some (posts db !! p) ∧
   (∀ par, cc_parent_id d = Some par →
      ∃ prow, comments db !! par = Some prow ∧ (par ≠ 0 → Comment.post_id prow = p)) ∧
   next_user_id db' = next_user_id db ∧
   next_post_id db' = next_post_id db ∧
   next_comment_id db' = next_comment_id db + 1 ∧
   (∀ u, ident_of_user db' u = ident_of_user db u) ∧
   (∀ q, ident_of_post db' q = ident_of_post db q) ∧
   (∀ c, ident_of_comment db' c
         = if decide (next_comment_id db = c)
           then Some (p, cu, cc_parent_id d, cc_is_answer d, false)
           else ident_of_comment db c)).
Proof.
  cbv zeta. unfold create_comment. cbv zeta.
  destruct (query_live_post db p) as [post|] eqn:Hq; [|by left].
  apply query_live_post_Some in Hq as [Hpost _].
  destruct (Post.is_locked post); [by left|].
  destruct (_ && _) eqn:Hparent; [by left|].
  destruct (negb match cc_parent_id d with
                  | Some parent_id => bool_decide (is_Some (comments db !! parent_id))
                  | None => true
                  end) eqn:Hfk; [by left|].
  right. split; [by eexists|]. split.
  { intros par Hpar. rewrite Hpar in Hparent, Hfk.
    apply negb_false_iff, bool_decide_eq_true in Hfk as [prow Hprow].
    exists prow. split; [done|]. intros Hnz.
    cbn in Hparent. rewrite (proj2 (Z.eqb_neq par 0)) in Hparent by done.
    cbn in Hparent. apply negb_false_iff, bool_decide_eq_true in Hparent as [r Hr].
    apply query_live_comment_of_Some in Hr as (Hr & Hp & _). congruence. }
  unfold ident_of_user, ident_of_post, ident_of_comment.
  repeat case_match; frame;
    (split_and!; [done..| | |]; intros;
     rewrite ?view_alter by done; try done;
     rewrite lookup_insert; by case_decide).
Qed.

Lemma rows_inv_same db db' :
  same_rows db db' → same_votes db db' → rows_inv db → rows_inv db'.
Proof.
  intros (Hn1 & Hn2 & Hn3 & Hu & Hp & Hc) (Hpv & Hcv & Hn4 & Hn5) [H0 H1 H2 H3 H4 H5 H6 H7].
  split; rewrite ?Hn1, ?Hn2, ?Hn3, ?Hn4, ?Hn5, ?Hpv, ?Hcv; try done.
  - intros u v. rewrite Hu. apply H1.
  - intros p ty a l. rewrite Hp, Hu. apply H2.
  - intros c p a par ans del. rewrite Hc, Hp, Hu. setoid_rewrite Hc. apply H3.
  - eapply Forall_impl; [done|]. intros v. cbn. by rewrite Hp, Hu.
  - eapply Forall_impl; [done|]. intros v. cbn. by rewrite Hc, Hu.
Qed.

Lemma rows_inv_vote_on_post p t cu db redis :
  is_Some (ident_of_user db cu) →
  rows_inv db → rows_inv (store (vote_on_post p t cu db redis)).
Proof.
  intros Hcu [H0 H1 H2 H3 H4 H5 H6 H7].
  destruct (vote_on_post_rows p t cu db redis) as (Hn1 & Hn2 & Hn3 & Hu & Hp & Hc).
  destruct (vote_on_post_rows_votes p t cu db redis) as (Hcv & Hn5 & Hshape).
  split; rewrite ?Hn1, ?Hn2, ?Hn3, ?Hn5, ?Hcv; try done.
  - destruct H0 as (?&?&?&?&?). destruct Hshape as [[-> _]|(_ & -> & _)]; split_and!; lia.
  - intros u v. rewrite Hu. apply H1.
  - intros q ty a l. rewrite Hp, Hu. apply H2.
  - intros c q a par ans del. rewrite Hc, Hp, Hu. setoid_rewrite Hc. apply H3.
  - assert (Forall (λ v, 0 < PostVote.id v < next_post_vote_id db ∧
                       is_Some (ident_of_post (store (vote_on_post p t cu db redis))
                                  (PostVote.post_id v)) ∧
                       is_Some (ident_of_user (store (vote_on_post p t cu db redis))
                                  (PostVote.user_id v))) (post_votes db)) as H4'.
    { eapply Forall_impl; [done|]. intros v. cbn. by rewrite Hp, Hu. }
    destruct Hshape as [[-> [-> | [(i & ->) | (i & x & Hi & ->)]]] | (Hpost & -> & ->)].
    + done.
    + by apply Forall_delete.
    + apply Forall_insert; [done|]. by apply (Forall_lookup_1 _ _ _ _ H4') in Hi.
    + apply Forall_app. split.
      * apply (Forall_impl _ _ _ H4'). intros v (? & ? & ?). split_and!; [lia..|done|done].
      * apply Forall_singleton. cbn. split_and!; [lia..| |by rewrite Hu].
        rewrite Hp. unfold ident_of_post. by apply fmap_is_Some.
  - eapply Forall_impl; [done|]. intros v. cbn. by rewrite Hc, Hu.
  - destruct Hshape as [[_ [-> | [(i & ->) | (i & x & Hi & ->)]]] | (Hpost & _ & ->)].
    + done.
    + rewrite list_fmap_delete. apply (sublist_NoDup _ _ H6), sublist_delete.
    + rewrite list_fmap_insert, list_insert_id; [done|]. by rewrite list_lookup_fmap, Hi.
    + rewrite fmap_app. apply NoDup_app. split_and!; [done| |apply NoDup_singleton].
      intros k (v & -> & Hv)%list_elem_of_fmap. cbn. rewrite list_elem_of_singleton.
      apply (proj1 (Forall_forall _ _) H4) in Hv. lia.
Qed.

Lemma rows_inv_vote_on_comment c t cu db redis :
  is_Some (ident_of_user db cu) →
  rows_inv db → rows_inv (store (vote_on_comment c t cu db redis)).
Proof.
  intros Hcu [H0 H1 H2 H3 H4 H5 H6 H7].
  destruct (vote_on_comment_rows c t cu db redis) as (Hn1 & Hn2 & Hn3 & Hu & Hp & Hc).
  destruct (vote_on_comment_rows_votes c t cu db redis) as (Hpv & Hn4 & Hshape).
  split; rewrite ?Hn1, ?Hn2, ?Hn3, ?Hn4, ?Hpv; try done.
  - destruct H0 as (?&?&?&?&?). destruct Hshape as [[-> _]|(_ & -> & _)]; split_and!; lia.
  - intros u v. rewrite Hu. apply H1.
  - intros q ty a l. rewrite Hp, Hu. apply H2.
  - intros x q a par ans del. rewrite Hc, Hp, Hu. setoid_rewrite Hc. apply H3.
  - eapply Forall_impl; [done|]. intros v. cbn. by rewrite Hp, Hu.
  - assert (Forall (λ v, 0 < CommentVote.id v < next_comment_vote_id db ∧
                       is_Some (ident_of_comment (store (vote_on_comment c t cu db redis))
                                  (CommentVote.comment_id v)) ∧
                       is_Some (ident_of_user (store (vote_on_comment c t cu db redis))
                                  (CommentVote.user_id v))) (comment_votes db)) as H5'.
    { eapply Forall_impl; [done|]. intros v. cbn. by rewrite Hc, Hu. }
    destruct Hshape as [[-> [-> | [(i & ->) | (i & x & Hi & ->)]]] | (Hrow & -> & ->)].
    + done.
    + by apply Forall_delete.
    + apply Forall_insert; [done|]. by apply (Forall_lookup_1 _ _ _ _ H5') in Hi.
    + apply Forall_app. split.
      * apply (Forall_impl _ _ _ H5'). intros v (? & ? & ?). split_and!; [lia..|done|done].
      * apply Forall_singleton. cbn. split_and!; [lia..| |by rewrite Hu].
        rewrite Hc. unfold ident_of_comment. by apply fmap_is_Some.
  - destruct Hshape as [[_ [-> | [(i & ->) | (i & x & Hi & ->)]]] | (Hrow & _ & ->)].
    + done.
    + rewrite list_fmap_delete. apply (sublist_NoDup _ _ H7), sublist_delete.
    + rewrite list_fmap_insert, list_insert_id; [done|]. by rewrite list_lookup_fmap, Hi.
    + rewrite fmap_app. apply NoDup_app. split_and!; [done| |apply NoDup_singleton].
      intros k (v & -> & Hv)%list_elem_of_fmap. cbn. rewrite list_elem_of_singleton.
      apply (proj1 (Forall_forall _ _) H5) in Hv. lia.
Qed.

Lemma rows_inv_register_user d db redis :
  rows_inv db → rows_inv (store (register_user d db redis)).
Proof.
  intros Hinv.
  destruct (register_user_same_votes d db redis) as (Hpv & Hcv & Hn4 & Hn5).
  destruct (register_user_rows d db redis)
    as [-> | (Hn1 & Hn2 & Hn3 & Hu & Hp & Hc)]; [done|].
  destruct Hinv as [H0 H1 H2 H3 H4 H5 H6 H7].
  assert (∀ u, is_Some (ident_of_user db u) →
               is_Some (ident_of_user (store (register_user d db redis)) u)) as Hmono.
  { intros u Hsome. rewrite Hu. by case_decide. }
  split; rewrite ?Hn1, ?Hn2, ?Hn3, ?Hn4, ?Hn5, ?Hpv, ?Hcv; try done.
  - destruct H0 as (?&?&?&?&?). split_and!; lia.
  - intros u v. rewrite Hu. case_decide; [intros _; lia|].
    intros Hv. pose proof (H1 _ _ Hv). lia.
  - intros p ty a l. rewrite Hp. intros Hv. destruct (H2 _ _ _ _ Hv). auto.
  - intros c p a par ans del. rewrite Hc, Hp. setoid_rewrite Hc. intros Hv.
    destruct (H3 _ _ _ _ _ _ Hv) as (? & ? & ? & ?). auto.
  - eapply Forall_impl; [exact H4|]. intros v (? & ? & ?). rewrite Hp. auto.
  - eapply Forall_impl; [exact H5|]. intros v (? & ? & ?). rewrite Hc. auto.
Qed.

Lemma rows_inv_create_post ty cu db redis :
  is_Some (ident_of_user db cu) →
  rows_inv db → rows_inv (store (create_post ty cu db redis)).
Proof.
  intros Hcu Hinv.
  destruct (create_post_same_votes ty cu db redis) as (Hpv & Hcv & Hn4 & Hn5).
  destruct (create_post_rows ty cu db redis) as (Hn1 & Hn2 & Hn3 & Hu & Hp & Hc).
  destruct Hinv as [H0 H1 H2 H3 H4 H5 H6 H7].
  assert (∀ p, is_Some (ident_of_post db p) →
               is_Some (ident_of_post (store (create_post ty cu db redis)) p)) as Hmono.
  { intros p Hsome. rewrite Hp. by case_decide. }
  split; rewrite ?Hn1, ?Hn2, ?Hn3, ?Hn4, ?Hn5, ?Hpv, ?Hcv; try done.
  - destruct H0 as (?&?&?&?&?). split_and!; lia.
  - intros u v. rewrite Hu. apply H1.
  - intros p ty' a l. rewrite Hp, Hu. case_decide.
    + intros [= <- <- <-]. split; [lia|done].
    + intros Hv. destruct (H2 _ _ _ _ Hv). split; [lia|done].
  - intros c p a par ans del. rewrite Hc, Hu. setoid_rewrite Hc. intros Hv.
    destruct (H3 _ _ _ _ _ _ Hv) as (? & ? & ? & ?). auto.
  - eapply Forall_impl; [exact H4|]. intros v (? & ? & ?). rewrite Hu. auto.
  - eapply Forall_impl; [exact H5|]. intros v. cbn. by rewrite Hc, Hu.
Qed.

Lemma rows_inv_create_comment p d cu db redis :
  is_Some (ident_of_user db cu) →
  rows_inv db → rows_inv (store (create_comment p d cu db redis)).
Proof.
  intros Hcu Hinv.
  destruct (create_comment_same_votes p d cu db redis) as (Hpv & Hcv & Hn4 & Hn5).
  destruct (create_comment_rows p d cu db redis)
    as [-> | (Hpost & Hparent & Hn1 & Hn2 & Hn3 & Hu & Hp & Hc)]; [done|].
  destruct Hinv as [H0 H1 H2 H3 H4 H5 H6 H7].
  assert (∀ c, is_Some (ident_of_comment db c) →
               is_Some (ident_of_comment (store (create_comment p d cu db redis)) c))
    as Hmono.
  { intros c Hsome. rewrite Hc. by case_decide. }
  split; rewrite ?Hn1, ?Hn2, ?Hn3, ?Hn4, ?Hn5, ?Hpv, ?Hcv; try done.
  - destruct H0 as (?&?&?&?&?). split_and!; lia.
  - intros u v. rewrite Hu. apply H1.
  - intros q ty a l. rewrite Hp, Hu. apply H2.
  - intros c q a par ans del. rewrite Hc, Hp, Hu. case_decide as Hnew.
    + intros [= <- <- <- <- <-]. split_and!; [lia..| |done|].
      { unfold ident_of_post. by apply fmap_is_Some. }
      intros c' Hpar. destruct (Hparent _ Hpar) as (prow & Hprow & Hsame).
      assert (ident_of_comment db c' = Some (comment_ident prow)) as Hid
        by (unfold ident_of_comment; by rewrite Hprow).
      destruct (H3 c' _ _ _ _ _ Hid) as (Hc' & _).
      split; [lia|]. rewrite Hc, decide_False by lia. rewrite Hid.
      rewrite <- Hsame by lia. unfold comment_ident. eauto.
    + intros Hv. destruct (H3 _ _ _ _ _ _ Hv) as (? & ? & ? & Hpar).
      split_and!; [lia..|done|done|].
      intros c' Hc'. destruct (Hpar _ Hc') as [? Hrow]. split; [done|].
      rewrite Hc, decide_False by lia. done.
  - eapply Forall_impl; [exact H4|]. intros v. cbn. by rewrite Hp, Hu.
  - eapply Forall_impl; [exact H5|]. intros v (? & ? & ?). rewrite Hu. auto.
Qed.

Lemma empty_db_rows_inv : rows_inv empty_db.
Proof.
  split; try done; try apply Forall_nil; try apply NoDup_nil; done.
Qed.

Lemma authenticated_user sub db :
  is_success (get_current_user sub db) →
  get_current_user sub db = Success sub ∧ is_Some (ident_of_user db sub).
Proof.
  unfold get_current_user, ident_of_user.
  destruct (users db !! sub) as [u|]; [|done]. destruct (User.is_active u); [|done].
  intros _. split; [done|]. by eexists.
Qed.

Lemma handle_rows_inv sub req db redis :
  rows_inv db → rows_inv (store (handle sub req db redis)).
Proof.
  intros H. destruct req; cbn [handle]; rewrite store_map_outcome.
  1: by apply rows_inv_register_user.
  all: unfold authenticated;
    destruct (get_current_user sub db) as [cu|] eqn:Hauth; [|done];
    destruct (authenticated_user sub db) as [Hcu Hsub]; [by rewrite Hauth|];
    rewrite Hcu in Hauth; injection Hauth as <-.
  - by apply rows_inv_create_post.
  - eapply rows_inv_same; [apply delete_post_rows|apply delete_post_same_votes|done].
  - by apply rows_inv_create_comment.
  - by apply rows_inv_vote_on_post.
  - by apply rows_inv_vote_on_comment.
  - eapply rows_inv_same; [apply accept_answer_rows|apply accept_answer_same_votes|done].
  - eapply rows_inv_same; [apply update_profile_rows|apply update_profile_same_votes|done].
Qed.

Lemma run_invariant (I : DB → Prop) :
  (∀ sub req db redis, I db → I (store (handle sub req db redis))) →
  ∀ history db redis, I db → I (run history db redis).1.
Proof.
  intros Hstep history. induction history as [|[sub req] rest IH]; intros db redis H; [done|].
  cbn [run]. apply IH. by apply Hstep.
Qed.

Lemma reachable_rows_inv db : reachable db → rows_inv db.
Proof.
  intros (history & redis & <-).
  apply (run_invariant rows_inv); [apply handle_rows_inv|apply empty_db_rows_inv].
Qed.

(** The store of [busy_history] is reachable by construction. *)
Lemma busy_db_reachable : reachable busy_db.
Proof. exists busy_history, MockRedisClient; unfold busy_db; reflexivity. Qed.

Ltac deleted_view :=
  intros;
  repeat (progress (cbn; autorewrite with frame; rewrite ?view_alter by done)); done.

Lemma handle_keeps_deleted sub req db redis p :
  rows_inv db →
  Post.is_deleted <$> posts db !! p = Some true →
  Post.is_deleted <$> posts (store (handle sub req db redis)) !! p = Some true.
Proof.
  intros Hinv Hdel.
  destruct req; cbn [handle]; rewrite store_map_outcome; unfold authenticated;
    try (destruct (get_current_user sub db); [|done]).
  - unfold register_user. repeat (case_match; try done).
  - unfold create_post. cbn. rewrite lookup_insert_ne; [done|].
    intros <-. destruct (posts db !! next_post_id db) as [row|] eqn:Hrow; [|done].
    destruct (ri_posts db Hinv (next_post_id db) (Post.post_type row) (Post.author_id row)
                (Post.is_locked row)) as [? _]; [|lia].
    unfold ident_of_post. by rewrite Hrow.
  - unfold delete_post. repeat (case_match; try done). cbn.
    rewrite lookup_alter. case_decide; [|done]. subst.
    by destruct (posts db !! p).
  - unfold create_comment. repeat (case_match; try done); deleted_view.
  - unfold vote_on_post. repeat (case_match; try done); deleted_view.
  - unfold vote_on_comment. repeat (case_match; try done); deleted_view.
  - unfold accept_answer. repeat (case_match; try done); deleted_view.
  - unfold update_profile. repeat (case_match; try done); deleted_view.
Qed.

Lemma handle_rows_kept sub req db redis :
  rows_inv db → rows_kept db (store (handle sub req db redis)).
Proof.
  intros Hinv. split_and!; [..|intros p; by apply handle_keeps_deleted].
  all: destruct req; cbn [handle]; rewrite store_map_outcome; unfold authenticated;
    try (destruct (get_current_user sub db) as [cu|]; [|done]).
  all: lazymatch goal with
       | |- context [register_user ?d _ _] =>
           destruct (register_user_rows d db redis)
             as [-> | (_ & _ & _ & Hu & Hp & Hc)]; [done|]
       | |- context [create_post ?ty _ _ _] =>
           destruct (create_post_rows ty cu db redis) as (_ & _ & _ & Hu & Hp & Hc)
       | |- context [delete_post ?p _ _ _] =>
           destruct (delete_post_rows p cu db redis) as (_ & _ & _ & Hu & Hp & Hc)
       | |- context [create_comment ?p ?d _ _ _] =>
           destruct (create_comment_rows p d cu db redis)
             as [-> | (_ & _ & _ & _ & _ & Hu & Hp & Hc)]; [done|]
       | |- context [vote_on_post ?p ?t _ _ _] =>
           destruct (vote_on_post_rows p t cu db redis) as (_ & _ & _ & Hu & Hp & Hc)
       | |- context [vote_on_comment ?c ?t _ _ _] =>
           destruct (vote_on_comment_rows c t cu db redis) as (_ & _ & _ & Hu & Hp & Hc)
       | |- context [accept_answer ?p ?c _ _ _] =>
           destruct (accept_answer_rows p c cu db redis) as (_ & _ & _ & Hu & Hp & Hc)
       | |- context [update_profile ?d _ _ _] =>
           destruct (update_profile_rows d cu db redis) as (_ & _ & _ & Hu & Hp & Hc)
       end.
  all: intros k v Hv; rewrite ?Hu, ?Hp, ?Hc; try done.
  - case_decide; [|done]. pose proof (ri_users db Hinv _ _ Hv). lia.
  - case_decide; [|done]. destruct v as [[ty a] l].
    destruct (ri_posts db Hinv _ _ _ _ Hv). lia.
  - case_decide; [|done]. destruct v as [[[[p a] par] ans] del].
    destruct (ri_comments db Hinv _ _ _ _ _ _ Hv). lia.
Qed.

Lemma rows_kept_refl db : rows_kept db db.
Proof. by split_and!. Qed.

Lemma rows_kept_trans db1 db2 db3 :
  rows_kept db1 db2 → rows_kept db2 db3 → rows_kept db1 db3.
Proof.
  intros (H1 & H2 & H3 & H4) (H1' & H2' & H3' & H4'). split_and!; eauto.
Qed.

Lemma run_rows_kept history db redis :
  rows_inv db → rows_kept db (run history db redis).1.
Proof.
  revert db redis. induction history as [|[sub req] rest IH]; intros db redis Hinv.
  - apply rows_kept_refl.
  - cbn [run]. eapply rows_kept_trans; [by apply handle_rows_kept|].
    apply IH. by apply handle_rows_inv.
Qed.

(** X12. No request removes a user, a post or a comment, or rewrites the
    columns that identify it; soft deletion of a post is final. *)
Theorem rows_are_never_removed_or_reassigned (db : DB) (history : list (Z * Request))
    (redis_client : RedisClient) :
  reachable db →
  let db' := (run history db redis_client).1 in
  (∀ u row, users db !! u = Some row →
     ∃ row', users db' !! u = Some row' ∧
             User.email row' = User.email row ∧
             User.username row' = User.username row ∧
             User.is_active row' = User.is_active row) ∧
  (∀ p row, posts db !! p = Some row →
     ∃ row', posts db' !! p = Some row' ∧
             Post.post_type row' = Post.post_type row ∧
             Post.author_id row' = Post.author_id row ∧
             Post.is_locked row' = Post.is_locked row ∧
             (Post.is_deleted row = true → Post.is_deleted row' = true)) ∧
  (∀ c row, comments db !! c = Some row →
     ∃ row', comments db' !! c = Some row' ∧
             Comment.post_id row' = Comment.post_id row ∧
             Comment.author_id row' = Comment.author_id row ∧
             Comment.parent_id row' = Comment.parent_id row ∧
             Comment.is_answer row' = Comment.is_answer row ∧
             Comment.is_deleted row' = Comment.is_deleted row).
Proof.
  intros Hinv%reachable_rows_inv. cbv zeta.
  destruct (run_rows_kept history db redis_client Hinv) as (Hu & Hp & Hc & Hd).
  split_and!.
  - intros u row Hrow. specialize (Hu u (user_ident row)).
    unfold ident_of_user in Hu. rewrite Hrow in Hu. specialize (Hu eq_refl).
    apply fmap_Some in Hu as (row' & Hrow' & [= ? ? ?]). eauto 10.
  - intros p row Hrow. specialize (Hp p (post_ident row)). specialize (Hd p).
    unfold ident_of_post in Hp. rewrite Hrow in Hp, Hd. specialize (Hp eq_refl).
    apply fmap_Some in Hp as (row' & Hrow' & [= ? ? ?]). rewrite Hrow' in Hd.
    exists row'. split_and!; try done. intros Hdel. cbn in Hd. rewrite Hdel in Hd.
    by injection (Hd eq_refl).
  - intros c row Hrow. specialize (Hc c (comment_ident row)).
    unfold ident_of_comment in Hc. rewrite Hrow in Hc. specialize (Hc eq_refl).
    apply fmap_Some in Hc as (row' & Hrow' & [= ? ? ? ? ?]). eauto 10.
Qed.

Lemma rows_are_never_removed_or_reassigned_witness :
  let db' := (run [(1, DeletePost 1); (2, VoteOnPost 1 UPVOTE);
                   (0, RegisterUser dave)] busy_db MockRedisClient).1 in
  (∀ u row, users busy_db !! u = Some row →
     ∃ row', users db' !! u = Some row' ∧
             User.email row' = User.email row ∧
             User.username row' = User.username row ∧
             User.is_active row' = User.is_active row) ∧
  (∀ p row, posts busy_db !! p = Some row →
     ∃ row', posts db' !! p = Some row' ∧
             Post.post_type row' = Post.post_type row ∧
             Post.author_id row' = Post.author_id row ∧
             Post.is_locked row' = Post.is_locked row ∧
             (Post.is_deleted row = true → Post.is_deleted row' = true)) ∧
  (∀ c row, comments busy_db !! c = Some row →
     ∃ row', comments db' !! c = Some row' ∧
             Comment.post_id row' = Comment.post_id row ∧
             Comment.author_id row' = Comment.author_id row ∧
             Comment.parent_id row' = Comment.parent_id row ∧
             Comment.is_answer row' = Comment.is_answer row ∧
             Comment.is_deleted row' = Comment.is_deleted row).
Proof.
  apply (rows_are_never_removed_or_reassigned busy_db).
  exists busy_history, MockRedisClient; unfold busy_db; reflexivity.
Defined.

(** X13. In a reachable store every reference resolves: the author of a post,
    the post and the author of a comment, the target and the voter of a
    vote are rows of their tables.  So the author lookups of the vote and
    accept handlers ([if post_author:], [if comment_author:]) always find
    their row. *)
Theorem references_resolve (db : DB) :
  reachable db →
  (∀ p post, posts db !! p = Some post →
     is_Some (query_author db (Post.author_id post))) ∧
  (∀ c comment, comments db !! c = Some comment →
     is_Some (posts db !! Comment.post_id comment) ∧
     is_Some (query_author db (Comment.author_id comment))) ∧
  (∀ v, v ∈ post_votes db →
     is_Some (posts db !! PostVote.post_id v) ∧ is_Some (users db !! PostVote.user_id v)) ∧
  (∀ v, v ∈ comment_votes db →
     is_Some (comments db !! CommentVote.comment_id v) ∧
     is_Some (users db !! CommentVote.user_id v)).
Proof.
  intros [H0 H1 H2 H3 H4 H5 H6 H7]%reachable_rows_inv.
  assert (∀ u, is_Some (ident_of_user db u) → is_Some (query_author db u)) as Hq.
  { intros u [x Hx]%ident_of_user_is_Some. unfold query_author. rewrite Hx. by eexists. }
  split_and!.
  - intros p post Hpost%ident_of_post_row. destruct (H2 _ _ _ _ Hpost). auto.
  - intros c row Hrow%ident_of_comment_row.
    destruct (H3 _ _ _ _ _ _ Hrow) as (_ & ? & ? & _).
    split; [by apply ident_of_post_is_Some | auto].
  - intros v Hv. apply (proj1 (Forall_forall _ _) H4) in Hv as (_ & ? & ?).
    split; [by apply ident_of_post_is_Some | by apply ident_of_user_is_Some].
  - intros v Hv. apply (proj1 (Forall_forall _ _) H5) in Hv as (_ & ? & ?).
    split; [by apply ident_of_comment_is_Some | by apply ident_of_user_is_Some].
Qed.

Lemma references_resolve_witness :
  (∀ p post, posts busy_db !! p = Some post →
     is_Some (query_author busy_db (Post.author_id post))) ∧
  (∀ c comment, comments busy_db !! c = Some comment →
     is_Some (posts busy_db !! Comment.post_id comment) ∧
     is_Some (query_author busy_db (Comment.author_id comment))) ∧
  (∀ v, v ∈ post_votes busy_db →
     is_Some (posts busy_db !! PostVote.post_id v) ∧
     is_Some (users busy_db !! PostVote.user_id v)) ∧
  (∀ v, v ∈ comment_votes busy_db →
     is_Some (comments busy_db !! CommentVote.comment_id v) ∧
     is_Some (users busy_db !! CommentVote.user_id v)).
Proof.
  apply (references_resolve busy_db).
  exists busy_history, MockRedisClient; unfold busy_db; reflexivity.
Defined.

(** X14. In a reachable store the parent of a reply is an older comment of
    the same post: reply threads never cross posts and never form a cycle. *)
Theorem reply_parent_is_older_comment_of_same_post (db : DB) (c parent_id : Z)
    (comment : Comment.t) :
  reachable db →
  comments db !! c = Some comment →
  Comment.parent_id comment = Some parent_id →
  0 < parent_id < c ∧
  ∃ parent, comments db !! parent_id = Some parent ∧
            Comment.post_id parent = Comment.post_id comment.
Proof.
  intros [H0 H1 H2 H3 H4 H5 H6 H7]%reachable_rows_inv Hrow%ident_of_comment_row Hpar.
  destruct (H3 _ _ _ _ _ _ Hrow) as (_ & _ & _ & Hparent).
  destruct (Hparent _ Hpar) as (Hlt & a' & par' & ans' & del' & Hid).
  pose proof (H3 _ _ _ _ _ _ Hid) as (? & _).
  split; [lia|]. unfold ident_of_comment in Hid.
  apply fmap_Some in Hid as (parent & Hparent_row & [= ? _ _ _ _]). eauto.
Qed.

Lemma reply_parent_is_older_comment_of_same_post_witness :
  0 < 1 < 3 ∧
  ∃ parent, comments busy_db !! 1 = Some parent ∧ Comment.post_id parent = 1.
Proof.
  apply (reply_parent_is_older_comment_of_same_post busy_db 3 1
           (Comment.mk 1 3 (Some 1) 0 0 0 false false false));
    [exists busy_history, MockRedisClient; unfold busy_db; reflexivity | vm_compute; reflexivity | reflexivity].
Defined.

(** X15. Keys are issued by the counters: in a reachable store every key is
    positive and below its table's counter, and no two vote rows share an
    id. *)
Theorem keys_come_from_the_counters (db : DB) :
  reachable db →
  (∀ u, is_Some (users db !! u) → 0 < u < next_user_id db) ∧
  (∀ p, is_Some (posts db !! p) → 0 < p < next_post_id db) ∧
  (∀ c, is_Some (comments db !! c) → 0 < c < next_comment_id db) ∧
  (∀ v, v ∈ post_votes db → 0 < PostVote.id v < next_post_vote_id db) ∧
  (∀ v, v ∈ comment_votes db → 0 < CommentVote.id v < next_comment_vote_id db) ∧
  NoDup (PostVote.id <$> post_votes db) ∧
  NoDup (CommentVote.id <$> comment_votes db).
Proof.
  intros [H0 H1 H2 H3 H4 H5 H6 H7]%reachable_rows_inv.
  split_and!; try done.
  - intros u [v Hv]%ident_of_user_is_Some. eauto.
  - intros p [row Hrow%ident_of_post_row]. by destruct (H2 _ _ _ _ Hrow).
  - intros c [row Hrow%ident_of_comment_row]. by destruct (H3 _ _ _ _ _ _ Hrow).
  - intros v Hv. by apply (proj1 (Forall_forall _ _) H4) in Hv as (? & _).
  - intros v Hv. by apply (proj1 (Forall_forall _ _) H5) in Hv as (? & _).
Qed.

Lemma keys_come_from_the_counters_witness :
  (∀ u, is_Some (users busy_db !! u) → 0 < u < next_user_id busy_db) ∧
  (∀ p, is_Some (posts busy_db !! p) → 0 < p < next_post_id busy_db) ∧
  (∀ c, is_Some (comments busy_db !! c) → 0 < c < next_comment_id busy_db) ∧
  (∀ v, v ∈ post_votes busy_db → 0 < PostVote.id v < next_post_vote_id busy_db) ∧
  (∀ v, v ∈ comment_votes busy_db →
        0 < CommentVote.id v < next_comment_vote_id busy_db) ∧
  NoDup (PostVote.id <$> post_votes busy_db) ∧
  NoDup (CommentVote.id <$> comment_votes busy_db).
Proof.
  apply (keys_come_from_the_counters busy_db).
  exists busy_history, MockRedisClient; unfold busy_db; reflexivity.
Defined.

Section count_rows.
Context {A : Type} (P : A → Prop) `{!∀ x, Decision (P x)}.

Lemma count_rows_app (l k : list A) :
  count_rows P (l ++ k)%list = count_rows P l + count_rows P k.
Proof. unfold count_rows. rewrite filter_app, length_app. lia. Qed.

Lemma count_rows_cons (x : A) (l : list A) :
  count_rows P (x :: l) = (if decide (P x) then 1 else 0) + count_rows P l.
Proof.
  unfold count_rows. rewrite filter_cons. case_decide; cbn [length]; lia.
Qed.

Lemma count_rows_nil : count_rows P [] = 0.
Proof. done. Qed.

Lemma count_rows_delete (l : list A) (i : nat) (x : A) :
  l !! i = Some x →
  count_rows P (delete i l) = count_rows P l - (if decide (P x) then 1 else 0).
Proof.
  intros Hi. rewrite delete_take_drop.
  rewrite <- (take_drop_middle l i x Hi) at 3.
  rewrite !count_rows_app, count_rows_cons. lia.
Qed.

Lemma count_rows_insert (l : list A) (i : nat) (x y : A) :
  l !! i = Some x →
  count_rows P (<[i := y]> l)
  = count_rows P l - (if decide (P x) then 1 else 0) + (if decide (P y) then 1 else 0).
Proof.
  intros Hi. rewrite insert_take_drop by by eapply lookup_lt_Some.
  rewrite <- (take_drop_middle l i x Hi) at 3.
  rewrite !count_rows_app, !count_rows_cons. lia.
Qed.

Lemma count_rows_none (l : list A) :
  Forall (λ x, ¬ P x) l → count_rows P l = 0.
Proof.
  induction 1 as [|x l Hx _ IH]; [done|].
  rewrite count_rows_cons, IH. by rewrite decide_False.
Qed.
End count_rows.

Ltac counts_view :=
  intros; unfold post_counts, comment_counts;
  repeat (progress (cbn; autorewrite with frame)); rewrite ?lookup_alter;
  repeat case_decide; subst; try done;
  repeat match goal with |- context [?m !! ?k] => destruct (m !! k) end;
  cbn; unfold tally_add; cbn; repeat f_equal; try done; try lia.

(** What a vote on a post does to the vote rows and to the counters. *)
Lemma vote_on_post_counts p t cu db redis :
  let db' := store (vote_on_post p t cu db redis) in
  comment_votes db' = comment_votes db ∧
  (∀ c, comment_counts db' c = comment_counts db c) ∧
  ((post_votes db' = post_votes db ∧ ∀ q, post_counts db' q = post_counts db q)
   ∨ (∃ i x, post_votes db !! i = Some x ∧ PostVote.post_id x = p ∧
        PostVote.vote_type x = t ∧
        post_votes db' = delete i (post_votes db) ∧
        ∀ q, post_counts db' q
             = if decide (q = p) then tally_add t (-1) <$> post_counts db q
               else post_counts db q)
   ∨ (∃ i x, post_votes db !! i = Some x ∧ PostVote.post_id x = p ∧
        PostVote.vote_type x ≠ t ∧
        post_votes db' = <[i := PostVote.set_vote_type t x]> (post_votes db) ∧
        ∀ q, post_counts db' q
             = if decide (q = p)
               then tally_add t 1 <$> (tally_add (PostVote.vote_type x) (-1)
                                         <$> post_counts db q)
               else post_counts db q)
   ∨ (post_votes db'
      = (post_votes db ++ [PostVote.mk (next_post_vote_id db) p cu t])%list ∧
      ∀ q, post_counts db' q
           = if decide (q = p) then tally_add t 1 <$> post_counts db q
             else post_counts db q)).
Proof.
  cbv zeta. unfold vote_on_post.
  destruct (query_live_post db p) as [post|] eqn:Hq; [|by split_and!; [..|left]].
  destruct (list_find _ _) as [[i x]|] eqn:Hfind.
  - apply first_is_a_row in Hfind as [Hi [Hx _]].
    case_decide as Ht.
    + split_and!; [destruct (PostVote.vote_type x); by counts_view..|].
      right; left. exists i, x. split_and!; try done.
      * by destruct (PostVote.vote_type x); frame.
      * subst t. destruct (PostVote.vote_type x); counts_view.
    + split_and!; [destruct (PostVote.vote_type x); by counts_view..|].
      right; right; left. exists i, x. split_and!; try done.
      * by destruct (PostVote.vote_type x); frame.
      * destruct (PostVote.vote_type x), t; try done; counts_view.
  - split_and!; [destruct t; by counts_view..|].
    right; right; right. split; [by destruct t; frame|].
    destruct t; counts_view.
Qed.

Lemma vote_on_comment_counts c t cu db redis :
  let db' := store (vote_on_comment c t cu db redis) in
  post_votes db' = post_votes db ∧
  (∀ p, post_counts db' p = post_counts db p) ∧
  ((comment_votes db' = comment_votes db ∧ ∀ q, comment_counts db' q = comment_counts db q)
   ∨ (∃ i x, comment_votes db !! i = Some x ∧ CommentVote.comment_id x = c ∧
        CommentVote.vote_type x = t ∧
        comment_votes db' = delete i (comment_votes db) ∧
        ∀ q, comment_counts db' q
             = if decide (q = c) then tally_add t (-1) <$> comment_counts db q
               else comment_counts db q)
   ∨ (∃ i x, comment_votes db !! i = Some x ∧ CommentVote.comment_id x = c ∧
        CommentVote.vote_type x ≠ t ∧
        comment_votes db' = <[i := CommentVote.set_vote_type t x]> (comment_votes db) ∧
        ∀ q, comment_counts db' q
             = if decide (q = c)
               then tally_add t 1 <$> (tally_add (CommentVote.vote_type x) (-1)
                                         <$> comment_counts db q)
               else comment_counts db q)
   ∨ (comment_votes db'
      = (comment_votes db ++ [CommentVote.mk (next_comment_vote_id db) c cu t])%list ∧
      ∀ q, comment_counts db' q
           = if decide (q = c) then tally_add t 1 <$> comment_counts db q
             else comment_counts db q)).
Proof.
  cbv zeta. unfold vote_on_comment.
  destruct (query_live_comment db c) as [row|] eqn:Hq; [|by split_and!; [..|left]].
  destruct (list_find _ _) as [[i x]|] eqn:Hfind.
  - apply first_is_a_row in Hfind as [Hi [Hx _]].
    case_decide as Ht.
    + split_and!; [destruct (CommentVote.vote_type x); by counts_view..|].
      right; left. exists i, x. split_and!; try done.
      * by destruct (CommentVote.vote_type x); frame.
      * subst t. destruct (CommentVote.vote_type x); counts_view.
    + split_and!; [destruct (CommentVote.vote_type x); by counts_view..|].
      right; right; left. exists i, x. split_and!; try done.
      * by destruct (CommentVote.vote_type x); frame.
      * destruct (CommentVote.vote_type x), t; try done; counts_view.
  - split_and!; [destruct t; by counts_view..|].
    right; right; right. split; [by destruct t; frame|].
    destruct t; counts_view.
Qed.

Lemma unaccept_previous_comment_counts post db c :
  (λ r, (Comment.upvote_count r, Comment.downvote_count r))
    <$> comments (unaccept_previous post db) !! c
  = (λ r, (Comment.upvote_count r, Comment.downvote_count r)) <$> comments db !! c.
Proof.
  unfold unaccept_previous. repeat (case_match; try done); frame;
    by rewrite ?view_alter.
Qed.
#[export] Hint Rewrite unaccept_previous_comment_counts : frame.

Ltac same_counts :=
  unfold same_counts, post_counts, comment_counts;
  split_and!; intros;
  repeat (progress (cbn; autorewrite with frame; rewrite ?view_alter by done)); done.

Lemma register_user_same_counts d db redis :
  same_counts db (store (register_user d db redis)).
Proof. unfold register_user. repeat (case_match; try done); same_counts. Qed.
Lemma delete_post_same_counts p cu db redis :
  same_counts db (store (delete_post p cu db redis)).
Proof. unfold delete_post. repeat (case_match; try done); same_counts. Qed.
Lemma accept_answer_same_counts p c cu db redis :
  same_counts db (store (accept_answer p c cu db redis)).
Proof. unfold accept_answer. repeat (case_match; try done); same_counts. Qed.
Lemma update_profile_same_counts d cu db redis :
  same_counts db (store (update_profile d cu db redis)).
Proof. unfold update_profile. repeat (case_match; try done); same_counts. Qed.

Lemma create_post_counts ty cu db redis :
  let db' := store (create_post ty cu db redis) in
  (∀ p, post_counts db' p
        = if decide (next_post_id db = p) then Some (0, 0) else post_counts db p) ∧
  (∀ c, comment_counts db' c = comment_counts db c).
Proof.
  cbv zeta. unfold create_post, post_counts, comment_counts. cbn.
  split; [|done]. intros p. rewrite lookup_insert. by case_decide.
Qed.

Lemma create_comment_counts p d cu db redis :
  let db' := store (create_comment p d cu db redis) in
  db' = db ∨
  ((∀ q, post_counts db' q = post_counts db q) ∧
   (∀ c, comment_counts db' c
         = if decide (next_comment_id db = c) then Some (0, 0) else comment_counts db c)).
Proof.
  cbv zeta. unfold create_comment.
  repeat (case_match; try (by left)); right;
    unfold post_counts, comment_counts; frame;
    (split; intros; rewrite ?view_alter by done; try done;
     rewrite lookup_insert; by case_decide).
Qed.

Lemma counters_same db db' :
  same_counts db db' → same_votes db db' →
  counters_match_rows db → counters_match_rows db'.
Proof.
  intros [Hp Hc] (Hpv & Hcv & _) [H1 H2].
  split; intros k up down; rewrite ?Hp, ?Hc, ?Hpv, ?Hcv; auto.
Qed.

Lemma post_vote_of_weight q ty x :
  (if decide (post_vote_of q ty x) then 1 else 0)
  = if decide (PostVote.post_id x = q) then
      if decide (PostVote.vote_type x = ty) then 1 else 0
    else 0.
Proof. unfold post_vote_of. repeat case_decide; tauto. Qed.

Lemma comment_vote_of_weight q ty x :
  (if decide (comment_vote_of q ty x) then 1 else 0)
  = if decide (CommentVote.comment_id x = q) then
      if decide (CommentVote.vote_type x = ty) then 1 else 0
    else 0.
Proof. unfold comment_vote_of. repeat case_decide; tauto. Qed.

Ltac count_votes :=
  rewrite ?count_rows_app, ?count_rows_cons, ?count_rows_nil,
    ?post_vote_of_weight, ?comment_vote_of_weight;
  cbn [PostVote.post_id PostVote.vote_type PostVote.set_vote_type
       CommentVote.comment_id CommentVote.vote_type CommentVote.set_vote_type];
  repeat case_decide; try congruence; try lia.

Lemma counters_vote_on_post p t cu db redis :
  counters_match_rows db → counters_match_rows (store (vote_on_post p t cu db redis)).
Proof.
  intros [H1 H2].
  destruct (vote_on_post_counts p t cu db redis) as (Hcv & Hcc & Heffect).
  split; [|intros c up down; rewrite Hcc, Hcv; apply H2].
  intros q up down.
  destruct Heffect as [[-> Hpc] | [(i & x & Hi & Hx & Ht & -> & Hpc)
    | [(i & x & Hi & Hx & Ht & -> & Hpc) | [-> Hpc]]]]; rewrite Hpc.
  - apply H1.
  - rewrite !(count_rows_delete _ _ _ _ Hi).
    case_decide as Hqp; [subst q|];
      (destruct (post_counts db _) as [[u0 d0]|] eqn:E; [|done]);
      destruct (H1 _ _ _ E) as [-> ->];
      destruct t, (PostVote.vote_type x) eqn:Hty; try done; cbn; intros [= <- <-];
      split; count_votes.
  - rewrite !(count_rows_insert _ _ _ _ _ Hi).
    case_decide as Hqp; [subst q|];
      (destruct (post_counts db _) as [[u0 d0]|] eqn:E; [|done]);
      destruct (H1 _ _ _ E) as [-> ->];
      destruct t, (PostVote.vote_type x) eqn:Hty; try done; cbn; intros [= <- <-];
      split; count_votes.
  - case_decide as Hqp; [subst q|];
      (destruct (post_counts db _) as [[u0 d0]|] eqn:E; [|done]);
      destruct (H1 _ _ _ E) as [-> ->];
      destruct t; cbn; intros [= <- <-]; split; count_votes.
Qed.

Lemma counters_vote_on_comment c t cu db redis :
  counters_match_rows db → counters_match_rows (store (vote_on_comment c t cu db redis)).
Proof.
  intros [H1 H2].
  destruct (vote_on_comment_counts c t cu db redis) as (Hpv & Hpc & Heffect).
  split; [intros p up down; rewrite Hpc, Hpv; apply H1|].
  intros q up down.
  destruct Heffect as [[-> Hcc] | [(i & x & Hi & Hx & Ht & -> & Hcc)
    | [(i & x & Hi & Hx & Ht & -> & Hcc) | [-> Hcc]]]]; rewrite Hcc.
  - apply H2.
  - rewrite !(count_rows_delete _ _ _ _ Hi).
    case_decide as Hqc; [subst q|];
      (destruct (comment_counts db _) as [[u0 d0]|] eqn:E; [|done]);
      destruct (H2 _ _ _ E) as [-> ->];
      destruct t, (CommentVote.vote_type x) eqn:Hty; try done; cbn; intros [= <- <-];
      split; count_votes.
  - rewrite !(count_rows_insert _ _ _ _ _ Hi).
    case_decide as Hqc; [subst q|];
      (destruct (comment_counts db _) as [[u0 d0]|] eqn:E; [|done]);
      destruct (H2 _ _ _ E) as [-> ->];
      destruct t, (CommentVote.vote_type x) eqn:Hty; try done; cbn; intros [= <- <-];
      split; count_votes.
  - case_decide as Hqc; [subst q|];
      (destruct (comment_counts db _) as [[u0 d0]|] eqn:E; [|done]);
      destruct (H2 _ _ _ E) as [-> ->];
      destruct t; cbn; intros [= <- <-]; split; count_votes.
Qed.

(** No vote row names a post or a comment that is not there. *)
Lemma no_votes_on_missing_post db p ty :
  rows_inv db → posts db !! p = None →
  count_rows (post_vote_of p ty) (post_votes db) = 0.
Proof.
  intros Hinv Hnone. apply count_rows_none.
  eapply Forall_impl; [apply (ri_post_votes db Hinv)|].
  intros v (_ & [x Hx] & _) [<- _]. unfold ident_of_post in Hx. by rewrite Hnone in Hx.
Qed.

Lemma no_votes_on_missing_comment db c ty :
  rows_inv db → comments db !! c = None →
  count_rows (comment_vote_of c ty) (comment_votes db) = 0.
Proof.
  intros Hinv Hnone. apply count_rows_none.
  eapply Forall_impl; [apply (ri_comment_votes db Hinv)|].
  intros v (_ & [x Hx] & _) [<- _]. unfold ident_of_comment in Hx. by rewrite Hnone in Hx.
Qed.

Lemma next_post_is_missing db : rows_inv db → posts db !! next_post_id db = None.
Proof.
  intros Hinv. destruct (posts db !! next_post_id db) as [row|] eqn:Hrow; [|done].
  destruct (ri_posts db Hinv (next_post_id db) (Post.post_type row) (Post.author_id row)
              (Post.is_locked row)) as [? _]; [|lia].
  unfold ident_of_post. by rewrite Hrow.
Qed.

Lemma next_comment_is_missing db : rows_inv db → comments db !! next_comment_id db = None.
Proof.
  intros Hinv. destruct (comments db !! next_comment_id db) as [row|] eqn:Hrow; [|done].
  destruct (ri_comments db Hinv (next_comment_id db) (Comment.post_id row)
              (Comment.author_id row) (Comment.parent_id row) (Comment.is_answer row)
              (Comment.is_deleted row)) as [? _]; [|lia].
  unfold ident_of_comment. by rewrite Hrow.
Qed.

Lemma counters_create_post ty cu db redis :
  rows_inv db →
  counters_match_rows db → counters_match_rows (store (create_post ty cu db redis)).
Proof.
  intros Hinv [H1 H2].
  destruct (create_post_counts ty cu db redis) as [Hpc Hcc].
  destruct (create_post_same_votes ty cu db redis) as (Hpv & Hcv & _).
  split; intros k up down; rewrite ?Hpc, ?Hcc, ?Hpv, ?Hcv; [|apply H2].
  case_decide as Hk; [|apply H1]. subst k. intros [= <- <-].
  by rewrite !no_votes_on_missing_post by auto using next_post_is_missing.
Qed.

Lemma counters_create_comment p d cu db redis :
  rows_inv db →
  counters_match_rows db → counters_match_rows (store (create_comment p d cu db redis)).
Proof.
  intros Hinv [H1 H2].
  destruct (create_comment_counts p d cu db redis) as [-> | [Hpc Hcc]]; [done|].
  destruct (create_comment_same_votes p d cu db redis) as (Hpv & Hcv & _).
  split; intros k up down; rewrite ?Hpc, ?Hcc, ?Hpv, ?Hcv; [apply H1|].
  case_decide as Hk; [|apply H2]. subst k. intros [= <- <-].
  by rewrite !no_votes_on_missing_comment by auto using next_comment_is_missing.
Qed.

Lemma handle_counters sub req db redis :
  rows_inv db →
  counters_match_rows db → counters_match_rows (store (handle sub req db redis)).
Proof.
  intros Hinv H. destruct req; cbn [handle]; rewrite store_map_outcome;
    unfold authenticated;
    try (destruct (get_current_user sub db) as [cu|]; [|done]).
  - eapply counters_same;
      [apply register_user_same_counts|apply register_user_same_votes|done].
  - by apply counters_create_post.
  - eapply counters_same; [apply delete_post_same_counts|apply delete_post_same_votes|done].
  - by apply counters_create_comment.
  - by apply counters_vote_on_post.
  - by apply counters_vote_on_comment.
  - eapply counters_same;
      [apply accept_answer_same_counts|apply accept_answer_same_votes|done].
  - eapply counters_same;
      [apply update_profile_same_counts|apply update_profile_same_votes|done].
Qed.

(** X16. In a reachable store the two counters of every post and of every
    comment are the numbers of its upvote and downvote rows. *)
Theorem vote_counters_count_the_vote_rows (db : DB) :
  reachable db →
  (∀ p post, posts db !! p = Some post →
     Post.upvote_count post = count_rows (post_vote_of p UPVOTE) (post_votes db) ∧
     Post.downvote_count post = count_rows (post_vote_of p DOWNVOTE) (post_votes db)) ∧
  (∀ c comment, comments db !! c = Some comment →
     Comment.upvote_count comment
     = count_rows (comment_vote_of c UPVOTE) (comment_votes db) ∧
     Comment.downvote_count comment
     = count_rows (comment_vote_of c DOWNVOTE) (comment_votes db)).
Proof.
  intros (history & redis & <-).
  assert (rows_inv (run history empty_db redis).1 ∧
          counters_match_rows (run history empty_db redis).1) as [_ [H1 H2]].
  { apply (run_invariant (λ db, rows_inv db ∧ counters_match_rows db)).
    - intros sub req db r [Hinv Hc]. split; [by apply handle_rows_inv|].
      by apply handle_counters.
    - split; [apply empty_db_rows_inv|]. by split. }
  split.
  - intros p post Hpost. apply H1. unfold post_counts. by rewrite Hpost.
  - intros c row Hrow. apply H2. unfold comment_counts. by rewrite Hrow.
Qed.

Lemma vote_counters_count_the_vote_rows_witness :
  (∀ p post, posts busy_db !! p = Some post →
     Post.upvote_count post = count_rows (post_vote_of p UPVOTE) (post_votes busy_db) ∧
     Post.downvote_count post
     = count_rows (post_vote_of p DOWNVOTE) (post_votes busy_db)) ∧
  (∀ c comment, comments busy_db !! c = Some comment →
     Comment.upvote_count comment
     = count_rows (comment_vote_of c UPVOTE) (comment_votes busy_db) ∧
     Comment.downvote_count comment
     = count_rows (comment_vote_of c DOWNVOTE) (comment_votes busy_db)).
Proof.
  apply (vote_counters_count_the_vote_rows busy_db).
  exists busy_history, MockRedisClient; unfold busy_db; reflexivity.
Defined.

Section count_map.
Context {V : Type} (Q : V → Prop) `{!∀ x, Decision (Q x)}.

Lemma count_rows_Permutation {A} (P : A → Prop) `{!∀ x, Decision (P x)} (l k : list A) :
  l ≡ₚ k → count_rows P l = count_rows P k.
Proof. intros Hlk. unfold count_rows. by rewrite Hlk. Qed.

Lemma count_map_empty : count_map Q (∅ : gmap Z V) = 0.
Proof. unfold count_map. by rewrite map_to_list_empty. Qed.

Lemma count_map_insert (m : gmap Z V) (k : Z) (x : V) :
  m !! k = None →
  count_map Q (<[k := x]> m) = (if decide (Q x) then 1 else 0) + count_map Q m.
Proof.
  intros Hk. unfold count_map.
  rewrite (count_rows_Permutation _ _ _ (map_to_list_insert m k x Hk)).
  by rewrite count_rows_cons.
Qed.

Lemma count_map_update (m : gmap Z V) (k : Z) (x y : V) :
  m !! k = Some x →
  count_map Q (<[k := y]> m)
  = count_map Q m - (if decide (Q x) then 1 else 0) + (if decide (Q y) then 1 else 0).
Proof.
  intros Hk. rewrite <- (insert_delete_eq m k y).
  rewrite count_map_insert by apply lookup_delete_eq.
  rewrite <- (insert_delete_id m k x Hk) at 2.
  rewrite count_map_insert by apply lookup_delete_eq. lia.
Qed.

Lemma count_map_none (m : gmap Z V) :
  (∀ k x, m !! k = Some x → ¬ Q x) → count_map Q m = 0.
Proof.
  intros Hno. apply count_rows_none, Forall_forall.
  intros [k x] Hkx%elem_of_map_to_list. by apply (Hno k x).
Qed.

Lemma count_map_nonneg (m : gmap Z V) : 0 ≤ count_map Q m.
Proof. unfold count_map, count_rows. lia. Qed.
End count_map.

Lemma count_map_fmap {V W} (g : V → W) (Q : W → Prop) `{!∀ x, Decision (Q x)}
    (m : gmap Z V) :
  count_map Q (g <$> m) = count_map (λ x, Q (g x)) m.
Proof.
  unfold count_map, count_rows. rewrite map_to_list_fmap. f_equal.
  induction (map_to_list m) as [|[k x] l IH]; [done|].
  cbn [fmap list_fmap]. rewrite !filter_cons. cbn.
  case_decide; cbn [length]; by rewrite IH.
Qed.

Lemma post_idents_lookup db p : post_idents db !! p = ident_of_post db p.
Proof. unfold post_idents, ident_of_post. apply lookup_fmap. Qed.
Lemma comment_idents_lookup db c : comment_idents db !! c = ident_of_comment db c.
Proof. unfold comment_idents, ident_of_comment. apply lookup_fmap. Qed.

Lemma same_rows_idents db db' :
  same_rows db db' →
  post_idents db' = post_idents db ∧ comment_idents db' = comment_idents db.
Proof.
  intros (_ & _ & _ & _ & Hp & Hc).
  split; apply map_eq; intros k; by rewrite ?post_idents_lookup, ?comment_idents_lookup.
Qed.

Lemma author_karma_user_tallies a d db u :
  (λ r, (User.post_count r, User.comment_count r)) <$> users (author_karma a d db) !! u
  = (λ r, (User.post_count r, User.comment_count r)) <$> users db !! u.
Proof. destruct a as [[]|]; [|done]. cbn. by rewrite view_alter. Qed.
Lemma unaccept_previous_user_tallies post db u :
  (λ r, (User.post_count r, User.comment_count r))
    <$> users (unaccept_previous post db) !! u
  = (λ r, (User.post_count r, User.comment_count r)) <$> users db !! u.
Proof.
  unfold unaccept_previous. repeat (case_match; try done); frame.
  all: rewrite author_karma_user_tallies; cbn; by rewrite ?view_alter.
Qed.
Lemma unaccept_previous_comment_replies post db c :
  Comment.reply_count <$> comments (unaccept_previous post db) !! c
  = Comment.reply_count <$> comments db !! c.
Proof.
  unfold unaccept_previous. repeat (case_match; try done); frame;
    by rewrite ?view_alter.
Qed.
#[export] Hint Rewrite author_karma_user_tallies unaccept_previous_user_tallies
  unaccept_previous_comment_replies : frame.

Ltac same_tallies :=
  unfold same_tallies, post_tallies, comment_replies, user_tallies;
  split_and!; intros;
  repeat (progress (cbn; autorewrite with frame;
                    rewrite ?view_alter
                      by first [done | by intros; unfold apply_field; repeat case_match]));
  done.

Lemma vote_on_post_same_tallies p t cu db redis :
  same_tallies db (store (vote_on_post p t cu db redis)).
Proof. unfold vote_on_post. repeat (case_match; try done); same_tallies. Qed.
Lemma vote_on_comment_same_tallies c t cu db redis :
  same_tallies db (store (vote_on_comment c t cu db redis)).
Proof. unfold vote_on_comment. repeat (case_match; try done); same_tallies. Qed.
Lemma accept_answer_same_tallies p c cu db redis :
  same_tallies db (store (accept_answer p c cu db redis)).
Proof. unfold accept_answer. repeat (case_match; try done); same_tallies. Qed.
Lemma delete_post_same_tallies p cu db redis :
  same_tallies db (store (delete_post p cu db redis)).
Proof. unfold delete_post. repeat (case_match; try done); same_tallies. Qed.
Lemma update_profile_same_tallies d cu db redis :
  same_tallies db (store (update_profile d cu db redis)).
Proof. unfold update_profile. repeat (case_match; try done); same_tallies. Qed.

Lemma tallies_same db db' :
  same_rows db db' → same_tallies db db' →
  tallies_match_rows db → tallies_match_rows db'.
Proof.
  intros [Hpi Hci]%same_rows_idents (Hp & Hc & Hu) (H1 & H2 & H3).
  split_and!; intros ?; intros; rewrite ?Hpi, ?Hci; rewrite ?Hp, ?Hc, ?Hu in *; auto.
Qed.

Lemma fmap_alter_view {V W} (g : V → W) (f : V → V) (k : Z) (m : gmap Z V) :
  (∀ x, g (f x) = g x) → g <$> alter f k m = g <$> m.
Proof. intros Hgf. apply map_eq. intros q. rewrite !lookup_fmap. by apply view_alter. Qed.

Lemma register_user_tallies d db redis :
  let db' := store (register_user d db redis) in
  db' = db ∨
  ((∀ p, post_tallies db' p = post_tallies db p) ∧
   (∀ c, comment_replies db' c = comment_replies db c) ∧
   (∀ u, user_tallies db' u
         = if decide (next_user_id db = u) then Some (0, 0) else user_tallies db u) ∧
   post_idents db' = post_idents db ∧ comment_idents db' = comment_idents db).
Proof.
  cbv zeta. unfold register_user. repeat (case_match; try (by left)). right.
  unfold post_tallies, comment_replies, user_tallies, post_idents, comment_idents. cbn.
  split_and!; try done. intros u. rewrite lookup_insert. by case_decide.
Qed.

Lemma create_post_tallies ty cu db redis :
  let db' := store (create_post ty cu db redis) in
  (∀ p, post_tallies db' p
        = if decide (next_post_id db = p) then Some (0, 0) else post_tallies db p) ∧
  (∀ c, comment_replies db' c = comment_replies db c) ∧
  (∀ u, user_tallies db' u
        = if decide (u = cu) then (λ y, (y.1 + 1, y.2)) <$> user_tallies db u
          else user_tallies db u) ∧
  post_idents db' = <[next_post_id db := (ty, cu, false)]> (post_idents db) ∧
  comment_idents db' = comment_idents db.
Proof.
  cbv zeta. unfold create_post, post_tallies, comment_replies, user_tallies,
    post_idents, comment_idents. cbn.
  split_and!; try done.
  - intros p. rewrite lookup_insert. by case_decide.
  - intros u. rewrite lookup_alter. repeat case_decide; subst; try done.
    by destruct (users db !! _).
  - by rewrite fmap_insert.
Qed.

(** [create_comment] rejects, or counts the new comment on its post, on its
    author and on the parent it replies to. *)
Lemma create_comment_tallies p d cu db redis :
  let db' := store (create_comment p d cu db redis) in
  db' = db ∨
  ((∀ q, post_tallies db' q
         = if decide (q = p)
           then (λ y, (y.1 + 1, if cc_is_answer d then y.2 + 1 else y.2))
                  <$> post_tallies db q
           else post_tallies db q) ∧
   (∀ c, comment_replies db' c
         = let before := if decide (next_comment_id db = c) then Some 0
                         else comment_replies db c in
           if decide (truthy (cc_parent_id d) = true ∧ cc_parent_id d = Some c)
           then (λ n, n + 1) <$> before else before) ∧
   (∀ u, user_tallies db' u
         = if decide (u = cu) then (λ y, (y.1, y.2 + 1)) <$> user_tallies db u
           else user_tallies db u) ∧
   post_idents db' = post_idents db ∧
   comment_idents db'
   = <[next_comment_id db := (p, cu, cc_parent_id d, cc_is_answer d, false)]>
       (comment_idents db)).
Proof.
  cbv zeta. unfold create_comment.
  repeat (case_match; try (by left)); right;
    unfold post_tallies, comment_replies, user_tallies, post_idents, comment_idents;
    frame;
    (split_and!;
     [ intros; rewrite ?lookup_alter, ?lookup_insert;
       repeat case_decide; destruct_and?; simplify_eq; try done;
       repeat match goal with |- context [?m !! ?k] => destruct (m !! k) end;
       cbn in *; try done; try tauto ..
     | by rewrite ?fmap_alter_view
     | rewrite ?fmap_alter_view by done; by rewrite fmap_insert ]).
Qed.

Lemma no_rows_by_next_user db :
  rows_inv db →
  count_map (post_by (next_user_id db)) (post_idents db) = 0 ∧
  count_map (comment_by (next_user_id db)) (comment_idents db) = 0.
Proof.
  intros Hinv. split; apply count_map_none.
  - intros k [[ty a] l]. rewrite post_idents_lookup. intros Hk Hq.
    destruct (ri_posts db Hinv _ _ _ _ Hk) as [_ [v Hv]].
    pose proof (ri_users db Hinv _ _ Hv). unfold post_by in Hq. cbn in *. lia.
  - intros k [[[[p a] par] ans] del]. rewrite comment_idents_lookup. intros Hk Hq.
    destruct (ri_comments db Hinv _ _ _ _ _ _ Hk) as (_ & _ & [v Hv] & _).
    pose proof (ri_users db Hinv _ _ Hv). unfold comment_by in Hq. cbn in *. lia.
Qed.

Lemma no_comments_of_next_post db :
  rows_inv db →
  count_map (comment_of_post (next_post_id db)) (comment_idents db) = 0 ∧
  count_map (answer_of_post (next_post_id db)) (comment_idents db) = 0.
Proof.
  intros Hinv. split; apply count_map_none.
  all: intros k [[[[p a] par] ans] del]; rewrite comment_idents_lookup; intros Hk Hq.
  all: assert (p = next_post_id db) as ->
    by (unfold comment_of_post, answer_of_post in Hq; cbn in Hq; by destruct_and?).
  all: destruct (ri_comments db Hinv _ _ _ _ _ _ Hk) as (_ & [[[ty b] l] Hv] & _).
  all: destruct (ri_posts db Hinv _ _ _ _ Hv); lia.
Qed.

Lemma no_replies_to_next_comment db :
  rows_inv db → count_map (reply_to (next_comment_id db)) (comment_idents db) = 0.
Proof.
  intros Hinv. apply count_map_none.
  intros k [[[[p a] par] ans] del]. rewrite comment_idents_lookup. intros Hk Hq.
  unfold reply_to in Hq. cbn in Hq.
  destruct (ri_comments db Hinv _ _ _ _ _ _ Hk) as (? & _ & _ & Hpar).
  destruct (Hpar _ Hq). lia.
Qed.

Lemma tallies_register_user d db redis :
  rows_inv db →
  tallies_match_rows db → tallies_match_rows (store (register_user d db redis)).
Proof.
  intros Hinv (H1 & H2 & H3).
  destruct (register_user_tallies d db redis)
    as [-> | (Hp & Hc & Hu & Hpi & Hci)]; [done|].
  split_and!; intros ?; intros; rewrite ?Hpi, ?Hci; rewrite ?Hp, ?Hc, ?Hu in *; auto.
  case_decide; [|auto]. simplify_eq.
  by destruct (no_rows_by_next_user db Hinv) as [-> ->].
Qed.

Lemma tallies_create_post ty cu db redis :
  rows_inv db →
  tallies_match_rows db → tallies_match_rows (store (create_post ty cu db redis)).
Proof.
  intros Hinv (H1 & H2 & H3).
  destruct (create_post_tallies ty cu db redis) as (Hp & Hc & Hu & Hpi & Hci).
  assert (post_idents db !! next_post_id db = None) as Hfresh.
  { unfold post_idents. by rewrite lookup_fmap, next_post_is_missing. }
  split_and!; intros ?; intros; rewrite ?Hpi, ?Hci; rewrite ?Hp, ?Hc, ?Hu in *; auto.
  - case_decide; [|auto]. simplify_eq.
    by destruct (no_comments_of_next_post db Hinv) as [-> ->].
  - rewrite count_map_insert by done. unfold post_by at 1. cbn.
    repeat case_decide; subst; try done.
    + destruct (user_tallies db cu) as [[pc0 cc0]|] eqn:E; [|done].
      cbn in H. simplify_eq. destruct (H3 _ _ _ E) as [<- <-]. split; [lia|done].
    + destruct (H3 _ _ _ H) as [<- <-]. split; [lia|done].
Qed.

Lemma tallies_create_comment p d cu db redis :
  rows_inv db →
  tallies_match_rows db → tallies_match_rows (store (create_comment p d cu db redis)).
Proof.
  intros Hinv (H1 & H2 & H3).
  destruct (create_comment_rows p d cu db redis)
    as [-> | (_ & Hparent & _)]; [done|].
  destruct (create_comment_tallies p d cu db redis)
    as [-> | (Hp & Hc & Hu & Hpi & Hci)]; [done|].
  assert (comment_idents db !! next_comment_id db = None) as Hfresh.
  { unfold comment_idents. by rewrite lookup_fmap, next_comment_is_missing. }
  assert (∀ par, cc_parent_id d = Some par →
            truthy (cc_parent_id d) = true ∧ par ≠ next_comment_id db) as Hpar.
  { intros par Hd. destruct (Hparent _ Hd) as (prow & Hprow & _).
    apply ident_of_comment_row in Hprow.
    destruct (ri_comments db Hinv _ _ _ _ _ _ Hprow) as (? & _).
    rewrite Hd. cbn. split; [|lia]. apply negb_true_iff, Z.eqb_neq. lia. }
  split_and!; intros k; intros; rewrite ?Hpi, ?Hci; rewrite ?Hp, ?Hc, ?Hu in *.
  - rewrite !count_map_insert by done.
    unfold comment_of_post at 1, answer_of_post at 1. cbn.
    case_decide as Hk; [subst k|].
    + destruct (post_tallies db p) as [[cc0 ac0]|] eqn:E; [|done].
      cbn in H. simplify_eq. destruct (H1 _ _ _ E) as [<- <-].
      destruct (cc_is_answer d);
        repeat case_decide; destruct_and?; try done; try tauto; split; lia.
    + destruct (H1 _ _ _ H) as [<- <-].
      repeat case_decide; destruct_and?; subst; try done; split; lia.
  - rewrite count_map_insert by done. unfold reply_to at 1. cbn. cbv zeta in H.
    destruct (decide (next_comment_id db = k)) as [<-|Hk].
    + rewrite decide_False in H by (intros [_ Hd]; by destruct (Hpar _ Hd)).
      rewrite decide_False by (intros Hd; by destruct (Hpar _ Hd)).
      simplify_eq. by rewrite no_replies_to_next_comment.
    + destruct (decide (cc_parent_id d = Some k)) as [Hd|Hd].
      * rewrite decide_True in H by (split; [by destruct (Hpar _ Hd)|done]).
        destruct (comment_replies db k) as [rc0|] eqn:E; [|done].
        cbn in H. simplify_eq. rewrite <- (H2 _ _ E). lia.
      * rewrite decide_False in H by (by intros [_ ?]).
        rewrite <- (H2 _ _ H). lia.
  - rewrite count_map_insert by done. unfold comment_by at 1. cbn.
    destruct (decide (k = cu)) as [->|Hk].
    + destruct (decide (cu = cu)) as [_|?]; [|done].
      destruct (user_tallies db cu) as [[pc0 cc0]|] eqn:E; [|done].
      cbn in H. simplify_eq. destruct (H3 _ _ _ E) as [<- <-]. split; [done|lia].
    + destruct (decide (cu = k)) as [?|_]; [congruence|].
      destruct (H3 _ _ _ H) as [<- <-]. split; [done|lia].
Qed.

Lemma handle_tallies sub req db redis :
  rows_inv db →
  tallies_match_rows db → tallies_match_rows (store (handle sub req db redis)).
Proof.
  intros Hinv H. destruct req; cbn [handle]; rewrite store_map_outcome;
    unfold authenticated;
    try (destruct (get_current_user sub db) as [cu|]; [|done]).
  - by apply tallies_register_user.
  - by apply tallies_create_post.
  - eapply tallies_same; [apply delete_post_rows|apply delete_post_same_tallies|done].
  - by apply tallies_create_comment.
  - eapply tallies_same; [apply vote_on_post_rows|apply vote_on_post_same_tallies|done].
  - eapply tallies_same;
      [apply vote_on_comment_rows|apply vote_on_comment_same_tallies|done].
  - eapply tallies_same; [apply accept_answer_rows|apply accept_answer_same_tallies|done].
  - eapply tallies_same;
      [apply update_profile_rows|apply update_profile_same_tallies|done].
Qed.

Lemma count_map_ext {V} (Q Q' : V → Prop) `{!∀ x, Decision (Q x)} `{!∀ x, Decision (Q' x)}
    (m : gmap Z V) :
  (∀ x, Q x ↔ Q' x) → count_map Q m = count_map Q' m.
Proof.
  intros HQ. unfold count_map, count_rows. f_equal. f_equal.
  apply list_filter_iff. intros [k x]. apply HQ.
Qed.

(** X17. In a reachable store the activity counters are the numbers of rows
    they stand for: a post's [comment_count] and [answer_count], a
    comment's [reply_count], a user's [post_count] and [comment_count]
    (soft-deleted posts included: [delete_post] takes nothing back). *)
Theorem activity_counters_count_the_rows (db : DB) :
  reachable db →
  (∀ p post, posts db !! p = Some post →
     Post.comment_count post
     = count_map (λ r, Comment.post_id r = p) (comments db) ∧
     Post.answer_count post
     = count_map (λ r, Comment.post_id r = p ∧ Comment.is_answer r = true)
                 (comments db)) ∧
  (∀ c comment, comments db !! c = Some comment →
     Comment.reply_count comment
     = count_map (λ r, Comment.parent_id r = Some c) (comments db)) ∧
  (∀ u user, users db !! u = Some user →
     User.post_count user = count_map (λ r, Post.author_id r = u) (posts db) ∧
     User.comment_count user = count_map (λ r, Comment.author_id r = u) (comments db)).
Proof.
  intros (history & redis & <-).
  assert (rows_inv (run history empty_db redis).1 ∧
          tallies_match_rows (run history empty_db redis).1) as [_ (H1 & H2 & H3)].
  { apply (run_invariant (λ db, rows_inv db ∧ tallies_match_rows db)).
    - intros sub req db r [Hinv Hc]. split; [by apply handle_rows_inv|].
      by apply handle_tallies.
    - split; [apply empty_db_rows_inv|].
      split_and!; intros ?; intros; by rewrite ?count_map_fmap. }
  unfold post_idents, comment_idents in *.
  split_and!.
  - intros p post Hpost.
    destruct (H1 p (Post.comment_count post) (Post.answer_count post)) as [-> ->].
    { unfold post_tallies. by rewrite Hpost. }
    rewrite !count_map_fmap. split; by apply count_map_ext.
  - intros c row Hrow. rewrite (H2 c (Comment.reply_count row)).
    + rewrite count_map_fmap. by apply count_map_ext.
    + unfold comment_replies. by rewrite Hrow.
  - intros u row Hrow.
    destruct (H3 u (User.post_count row) (User.comment_count row)) as [-> ->].
    { unfold user_tallies. by rewrite Hrow. }
    rewrite !count_map_fmap. split; by apply count_map_ext.
Qed.

Lemma activity_counters_count_the_rows_witness :
  (∀ p post, posts busy_db !! p = Some post →
     Post.comment_count post
     = count_map (λ r, Comment.post_id r = p) (comments busy_db) ∧
     Post.answer_count post
     = count_map (λ r, Comment.post_id r = p ∧ Comment.is_answer r = true)
                 (comments busy_db)) ∧
  (∀ c comment, comments busy_db !! c = Some comment →
     Comment.reply_count comment
     = count_map (λ r, Comment.parent_id r = Some c) (comments busy_db)) ∧
  (∀ u user, users busy_db !! u = Some user →
     User.post_count user = count_map (λ r, Post.author_id r = u) (posts busy_db) ∧
     User.comment_count user
     = count_map (λ r, Comment.author_id r = u) (comments busy_db)).
Proof.
  apply (activity_counters_count_the_rows busy_db).
  exists busy_history, MockRedisClient; unfold busy_db; reflexivity.
Defined.

Lemma count_rows_ext_Forall {A} (P P' : A → Prop) `{!∀ x, Decision (P x)}
    `{!∀ x, Decision (P' x)} (l : list A) :
  Forall (λ x, P x ↔ P' x) l → count_rows P l = count_rows P' l.
Proof.
  induction 1 as [|x l Hx _ IH]; [done|].
  rewrite !count_rows_cons, IH. repeat case_decide; tauto.
Qed.

Lemma post_author_ident db p : post_author db p = (λ id, id.1.2) <$> ident_of_post db p.
Proof. unfold post_author, ident_of_post. by destruct (posts db !! p). Qed.
Lemma comment_author_ident db c :
  comment_author db c = (λ id, id.1.1.1.2) <$> ident_of_comment db c.
Proof. unfold comment_author, ident_of_comment. by destruct (comments db !! c). Qed.

(** The worth of the votes depends on the vote rows and on the authors of
    the posts and comments they name. *)
Lemma vote_karma_ext db db' u :
  post_votes db' = post_votes db → comment_votes db' = comment_votes db →
  Forall (λ v, post_author db' (PostVote.post_id v) = post_author db (PostVote.post_id v))
         (post_votes db) →
  Forall (λ v, comment_author db' (CommentVote.comment_id v)
               = comment_author db (CommentVote.comment_id v)) (comment_votes db) →
  vote_karma db' u = vote_karma db u.
Proof.
  intros Hpv Hcv Hpa Hca. unfold vote_karma. rewrite Hpv, Hcv.
  assert (∀ t, count_rows (post_vote_for db' u t) (post_votes db)
               = count_rows (post_vote_for db u t) (post_votes db)) as H1.
  { intros t. apply count_rows_ext_Forall. eapply Forall_impl; [exact Hpa|].
    intros v Hv. unfold post_vote_for. by rewrite Hv. }
  assert (∀ t, count_rows (comment_vote_for db' u t) (comment_votes db)
               = count_rows (comment_vote_for db u t) (comment_votes db)) as H2.
  { intros t. apply count_rows_ext_Forall. eapply Forall_impl; [exact Hca|].
    intros v Hv. unfold comment_vote_for. by rewrite Hv. }
  by rewrite !H1, !H2.
Qed.

Lemma vote_karma_same db db' u :
  same_rows db db' → same_votes db db' → vote_karma db' u = vote_karma db u.
Proof.
  intros (_ & _ & _ & _ & Hp & Hc) (Hpv & Hcv & _).
  apply vote_karma_ext; try done; apply Forall_forall; intros v _.
  - by rewrite !post_author_ident, Hp.
  - by rewrite !comment_author_ident, Hc.
Qed.

Lemma karma_same db db' :
  same_rows db db' → same_votes db db' → same_karma db db' →
  karma_matches_ledger db → karma_matches_ledger db'.
Proof.
  intros Hrows Hvotes [Hk Hf] H u k. unfold karma_of.
  rewrite Hk, Hf, (vote_karma_same db db') by done. apply H.
Qed.

Lemma author_karma_karma db0 a d db u :
  (users db0 !! a = None → users db !! a = None) →
  User.karma_score <$> users (author_karma (query_author db0 a) d db) !! u
  = if decide (u = a) then (λ k, k + d) <$> (User.karma_score <$> users db !! u)
    else User.karma_score <$> users db !! u.
Proof.
  intros Hnone. unfold query_author.
  destruct (users db0 !! a) as [row|]; cbn.
  - rewrite lookup_alter. repeat case_decide; subst; try done.
    by destruct (users db !! _).
  - case_decide; [subst|done]. by rewrite Hnone.
Qed.

Lemma author_karma_answer_flags a d db :
  answer_flags (author_karma a d db) = answer_flags db.
Proof. by destruct a as [[]|]. Qed.
#[export] Hint Rewrite author_karma_answer_flags : frame.

Lemma author_karma_lookup_None a d db u :
  users db !! u = None → users (author_karma a d db) !! u = None.
Proof. destruct a as [[]|]; cbn; [|done]. by rewrite lookup_alter_None. Qed.

Ltac karma_view :=
  intros; unfold user_karma; cbn;
  repeat (rewrite author_karma_karma
            by first [done | intros; repeat apply author_karma_lookup_None; by cbn];
          cbn);
  repeat (progress (cbn; autorewrite with frame));
  repeat case_decide; subst; try done;
  repeat match goal with |- context [?m !! ?k] => destruct (m !! k) end;
  cbn; repeat f_equal; try done; try lia.

Ltac flags_view :=
  unfold answer_flags; frame; rewrite ?fmap_alter_view by done; try done.

(** What a vote on a post does to the vote rows and to the karma of the
    post's author. *)
Lemma vote_on_post_karma p t cu db redis :
  let db' := store (vote_on_post p t cu db redis) in
  answer_flags db' = answer_flags db ∧
  ((post_votes db' = post_votes db ∧ ∀ u, user_karma db' u = user_karma db u)
   ∨ ∃ a, post_author db p = Some a ∧
     ((∃ i x, post_votes db !! i = Some x ∧ PostVote.post_id x = p ∧
         PostVote.vote_type x = t ∧
         post_votes db' = delete i (post_votes db) ∧
         ∀ u, user_karma db' u
              = if decide (u = a)
                then (λ k, k - Ledger.weight Ledger.PostKind t) <$> user_karma db u
                else user_karma db u)
      ∨ (∃ i x, post_votes db !! i = Some x ∧ PostVote.post_id x = p ∧
           PostVote.vote_type x ≠ t ∧
           post_votes db' = <[i := PostVote.set_vote_type t x]> (post_votes db) ∧
           ∀ u, user_karma db' u
                = if decide (u = a)
                  then (λ k, k - Ledger.weight Ledger.PostKind (PostVote.vote_type x)
                               + Ledger.weight Ledger.PostKind t) <$> user_karma db u
                  else user_karma db u)
      ∨ (post_votes db'
         = (post_votes db ++ [PostVote.mk (next_post_vote_id db) p cu t])%list ∧
         ∀ u, user_karma db' u
              = if decide (u = a)
                then (λ k, k + Ledger.weight Ledger.PostKind t) <$> user_karma db u
                else user_karma db u))).
Proof.
  cbv zeta. unfold vote_on_post.
  destruct (query_live_post db p) as [post|] eqn:Hq; [|by split; [|left]].
  apply query_live_post_Some in Hq as [Hpost _].
  assert (post_author db p = Some (Post.author_id post)) as Ha
    by (unfold post_author; by rewrite Hpost).
  destruct (list_find _ _) as [[i x]|] eqn:Hfind.
  - apply first_is_a_row in Hfind as [Hi [Hx _]].
    case_decide as Ht.
    + split; [destruct (PostVote.vote_type x); by flags_view|].
      right. eexists. split; [exact Ha|]. left. exists i, x. split_and!; try done.
      * by destruct (PostVote.vote_type x); frame.
      * subst t. destruct (PostVote.vote_type x); karma_view.
    + split; [destruct (PostVote.vote_type x); by flags_view|].
      right. eexists. split; [exact Ha|]. right; left. exists i, x. split_and!; try done.
      * by destruct (PostVote.vote_type x); frame.
      * destruct (PostVote.vote_type x), t; try done; karma_view.
  - split; [destruct t; by flags_view|].
    right. eexists. split; [exact Ha|]. right; right. split; [by destruct t; frame|].
    destruct t; karma_view.
Qed.

Lemma vote_on_comment_karma c t cu db redis :
  let db' := store (vote_on_comment c t cu db redis) in
  answer_flags db' = answer_flags db ∧
  ((comment_votes db' = comment_votes db ∧ ∀ u, user_karma db' u = user_karma db u)
   ∨ ∃ a, comment_author db c = Some a ∧
     ((∃ i x, comment_votes db !! i = Some x ∧ CommentVote.comment_id x = c ∧
         CommentVote.vote_type x = t ∧
         comment_votes db' = delete i (comment_votes db) ∧
         ∀ u, user_karma db' u
              = if decide (u = a)
                then (λ k, k - Ledger.weight Ledger.CommentKind t) <$> user_karma db u
                else user_karma db u)
      ∨ (∃ i x, comment_votes db !! i = Some x ∧ CommentVote.comment_id x = c ∧
           CommentVote.vote_type x ≠ t ∧
           comment_votes db' = <[i := CommentVote.set_vote_type t x]> (comment_votes db) ∧
           ∀ u, user_karma db' u
                = if decide (u = a)
                  then (λ k, k - Ledger.weight Ledger.CommentKind (CommentVote.vote_type x)
                               + Ledger.weight Ledger.CommentKind t) <$> user_karma db u
                  else user_karma db u)
      ∨ (comment_votes db'
         = (comment_votes db ++ [CommentVote.mk (next_comment_vote_id db) c cu t])%list ∧
         ∀ u, user_karma db' u
              = if decide (u = a)
                then (λ k, k + Ledger.weight Ledger.CommentKind t) <$> user_karma db u
                else user_karma db u))).
Proof.
  cbv zeta. unfold vote_on_comment.
  destruct (query_live_comment db c) as [row|] eqn:Hq; [|by split; [|left]].
  apply query_live_comment_Some in Hq as [Hrow _].
  assert (comment_author db c = Some (Comment.author_id row)) as Ha
    by (unfold comment_author; by rewrite Hrow).
  destruct (list_find _ _) as [[i x]|] eqn:Hfind.
  - apply first_is_a_row in Hfind as [Hi [Hx _]].
    case_decide as Ht.
    + split; [destruct (CommentVote.vote_type x); by flags_view|].
      right. eexists. split; [exact Ha|]. left. exists i, x. split_and!; try done.
      * by destruct (CommentVote.vote_type x); frame.
      * subst t. destruct (CommentVote.vote_type x); karma_view.
    + split; [destruct (CommentVote.vote_type x); by flags_view|].
      right. eexists. split; [exact Ha|]. right; left. exists i, x. split_and!; try done.
      * by destruct (CommentVote.vote_type x); frame.
      * destruct (CommentVote.vote_type x), t; try done; karma_view.
  - split; [destruct t; by flags_view|].
    right. eexists. split; [exact Ha|]. right; right. split; [by destruct t; frame|].
    destruct t; karma_view.
Qed.

Lemma post_vote_for_weight db u ty x a :
  post_author db (PostVote.post_id x) = Some a →
  (if decide (post_vote_for db u ty x) then 1 else 0)
  = if decide (u = a) then if decide (PostVote.vote_type x = ty) then 1 else 0 else 0.
Proof.
  intros Ha. destruct (decide (post_vote_for db u ty x)) as [[H1 H2]|Hn].
  - rewrite Ha in H1. simplify_eq. by rewrite !decide_True.
  - repeat case_decide; try done. subst. exfalso. by apply Hn.
Qed.

Lemma comment_vote_for_weight db u ty x a :
  comment_author db (CommentVote.comment_id x) = Some a →
  (if decide (comment_vote_for db u ty x) then 1 else 0)
  = if decide (u = a) then if decide (CommentVote.vote_type x = ty) then 1 else 0 else 0.
Proof.
  intros Ha. destruct (decide (comment_vote_for db u ty x)) as [[H1 H2]|Hn].
  - rewrite Ha in H1. simplify_eq. by rewrite !decide_True.
  - repeat case_decide; try done. subst. exfalso. by apply Hn.
Qed.

(** The worth of the votes when only the rows of one table of votes have
    changed. *)
Lemma vote_karma_rows db db' u :
  same_rows db db' →
  vote_karma db' u
  = Ledger.weight Ledger.PostKind UPVOTE
      * count_rows (post_vote_for db u UPVOTE) (post_votes db')
    + Ledger.weight Ledger.PostKind DOWNVOTE
      * count_rows (post_vote_for db u DOWNVOTE) (post_votes db')
    + Ledger.weight Ledger.CommentKind UPVOTE
      * count_rows (comment_vote_for db u UPVOTE) (comment_votes db')
    + Ledger.weight Ledger.CommentKind DOWNVOTE
      * count_rows (comment_vote_for db u DOWNVOTE) (comment_votes db').
Proof.
  intros (_ & _ & _ & _ & Hp & Hc). unfold vote_karma.
  assert (∀ t l, count_rows (post_vote_for db' u t) l
                 = count_rows (post_vote_for db u t) l) as H1.
  { intros t l. apply count_rows_ext_Forall, Forall_forall. intros v _.
    unfold post_vote_for. by rewrite !post_author_ident, Hp. }
  assert (∀ t l, count_rows (comment_vote_for db' u t) l
                 = count_rows (comment_vote_for db u t) l) as H2.
  { intros t l. apply count_rows_ext_Forall, Forall_forall. intros v _.
    unfold comment_vote_for. by rewrite !comment_author_ident, Hc. }
  by rewrite !H1, !H2.
Qed.

Ltac karma_arith H :=
  let Hv := fresh "Hv" in
  intros Hv;
  repeat case_decide; subst; try done;
  try (match type of Hv with
       | context [user_karma ?d ?v] =>
           let E := fresh "E" in
           destruct (user_karma d v) eqn:E; [|done]; cbn in Hv; simplify_eq;
           rewrite (H _ _ E)
       end);
  unfold karma_of, vote_karma; cbn [Ledger.weight]; lia.

Lemma karma_vote_on_post p t cu db redis :
  karma_matches_ledger db → karma_matches_ledger (store (vote_on_post p t cu db redis)).
Proof.
  intros H u k. unfold karma_of.
  destruct (vote_on_post_karma p t cu db redis) as [Hf Heffect].
  destruct (vote_on_post_votes p t cu db redis) as [Hcv _].
  rewrite Hf, (vote_karma_rows db _ u (vote_on_post_rows p t cu db redis)), Hcv.
  destruct Heffect as [[Hpv Hk] | (a & Ha & [(i & x & Hi & Hx & Ht & Hpv & Hk)
    | [(i & x & Hi & Hx & Ht & Hpv & Hk) | [Hpv Hk]]])]; rewrite Hpv, Hk.
  - karma_arith H.
  - rewrite !(count_rows_delete _ _ _ _ Hi),
      !(post_vote_for_weight db u _ x a) by (by rewrite Hx).
    destruct t, (PostVote.vote_type x); try done; karma_arith H.
  - rewrite !(count_rows_insert _ _ _ _ _ Hi),
      !(post_vote_for_weight db u _ x a),
      !(post_vote_for_weight db u _ (PostVote.set_vote_type t x) a)
      by (unfold PostVote.set_vote_type; cbn; by rewrite ?Hx).
    cbn [PostVote.set_vote_type PostVote.vote_type].
    destruct t, (PostVote.vote_type x); try done; karma_arith H.
  - rewrite !count_rows_app, !count_rows_cons, !count_rows_nil,
      !(post_vote_for_weight db u _ _ a) by done.
    cbn [PostVote.vote_type].
    destruct t; karma_arith H.
Qed.

Lemma karma_vote_on_comment c t cu db redis :
  karma_matches_ledger db → karma_matches_ledger (store (vote_on_comment c t cu db redis)).
Proof.
  intros H u k. unfold karma_of.
  destruct (vote_on_comment_karma c t cu db redis) as [Hf Heffect].
  destruct (vote_on_comment_votes c t cu db redis) as [Hpv _].
  rewrite Hf, (vote_karma_rows db _ u (vote_on_comment_rows c t cu db redis)), Hpv.
  destruct Heffect as [[Hcv Hk] | (a & Ha & [(i & x & Hi & Hx & Ht & Hcv & Hk)
    | [(i & x & Hi & Hx & Ht & Hcv & Hk) | [Hcv Hk]]])]; rewrite Hcv, Hk.
  - karma_arith H.
  - rewrite !(count_rows_delete _ _ _ _ Hi),
      !(comment_vote_for_weight db u _ x a) by (by rewrite Hx).
    destruct t, (CommentVote.vote_type x); try done; karma_arith H.
  - rewrite !(count_rows_insert _ _ _ _ _ Hi),
      !(comment_vote_for_weight db u _ x a),
      !(comment_vote_for_weight db u _ (CommentVote.set_vote_type t x) a)
      by (unfold CommentVote.set_vote_type; cbn; by rewrite ?Hx).
    cbn [CommentVote.set_vote_type CommentVote.vote_type].
    destruct t, (CommentVote.vote_type x); try done; karma_arith H.
  - rewrite !count_rows_app, !count_rows_cons, !count_rows_nil,
      !(comment_vote_for_weight db u _ _ a) by done.
    cbn [CommentVote.vote_type].
    destruct t; karma_arith H.
Qed.

Ltac same_karma :=
  unfold same_karma, user_karma; split; [intros|];
  [ repeat (progress (cbn; autorewrite with frame;
                      rewrite ?view_alter
                        by first [done | by intros; unfold apply_field; repeat case_match]));
    done
  | by flags_view ].

Lemma delete_post_same_karma p cu db redis :
  same_karma db (store (delete_post p cu db redis)).
Proof. unfold delete_post. repeat (case_match; try done); same_karma. Qed.
Lemma update_profile_same_karma d cu db redis :
  same_karma db (store (update_profile d cu db redis)).
Proof. unfold update_profile. repeat (case_match; try done); same_karma. Qed.
Lemma create_post_same_karma ty cu db redis :
  same_karma db (store (create_post ty cu db redis)).
Proof. unfold create_post. same_karma. Qed.

(** Votes name rows that are there, so a row under a new key changes the
    author of no vote's target. *)
Lemma vote_karma_new_rows db db' u :
  rows_inv db →
  post_votes db' = post_votes db → comment_votes db' = comment_votes db →
  (∀ p, is_Some (ident_of_post db p) → ident_of_post db' p = ident_of_post db p) →
  (∀ c, is_Some (ident_of_comment db c) → ident_of_comment db' c = ident_of_comment db c) →
  vote_karma db' u = vote_karma db u.
Proof.
  intros Hinv Hpv Hcv Hp Hc. apply vote_karma_ext; try done.
  - eapply Forall_impl; [apply (ri_post_votes db Hinv)|].
    intros v (_ & Hv & _). cbn. by rewrite !post_author_ident, Hp.
  - eapply Forall_impl; [apply (ri_comment_votes db Hinv)|].
    intros v (_ & Hv & _). cbn. by rewrite !comment_author_ident, Hc.
Qed.

Lemma karma_register_user d db redis :
  rows_inv db →
  karma_matches_ledger db → karma_matches_ledger (store (register_user d db redis)).
Proof.
  intros Hinv H.
  destruct (register_user_rows d db redis)
    as [-> | (_ & _ & _ & _ & Hp & Hc)]; [done|].
  destruct (register_user_same_votes d db redis) as (Hpv & Hcv & _).
  intros u k. unfold karma_of.
  rewrite (vote_karma_new_rows db) by auto.
  revert Hp Hc Hpv Hcv. unfold register_user.
  destruct (list_find _ _) as [[? [? ?]]|];
    [repeat case_match; intros _ _ _ _; apply H|].
  intros _ _ _ _. unfold user_karma, answer_flags. cbn.
  rewrite lookup_insert. case_decide as Hu; [|apply H]. subst u. intros [= <-].
  destruct (no_rows_by_next_user db Hinv) as [Hposts Hcomments].
  enough (vote_karma db (next_user_id db) = 0
          ∧ count_map (accepted_answer_by (next_user_id db)) (answer_flags db) = 0)
    as [-> E]; [unfold answer_flags in E; rewrite E; lia|].
  split.
  - unfold vote_karma.
    rewrite !(count_rows_none (post_vote_for db _ _)),
            !(count_rows_none (comment_vote_for db _ _)); [lia|..].
    all: apply Forall_forall; intros v _ [Hv _].
    + unfold comment_author in Hv.
      destruct (comments db !! CommentVote.comment_id v) as [row|] eqn:Hrow; [|done].
      apply ident_of_comment_row in Hrow.
      destruct (ri_comments db Hinv _ _ _ _ _ _ Hrow) as (_ & _ & [w Hw] & _).
      pose proof (ri_users db Hinv _ _ Hw). cbn in Hv. simplify_eq. lia.
    + unfold comment_author in Hv.
      destruct (comments db !! CommentVote.comment_id v) as [row|] eqn:Hrow; [|done].
      apply ident_of_comment_row in Hrow.
      destruct (ri_comments db Hinv _ _ _ _ _ _ Hrow) as (_ & _ & [w Hw] & _).
      pose proof (ri_users db Hinv _ _ Hw). cbn in Hv. simplify_eq. lia.
    + unfold post_author in Hv.
      destruct (posts db !! PostVote.post_id v) as [row|] eqn:Hrow; [|done].
      assert (ident_of_post db (PostVote.post_id v) = Some (post_ident row)) as Hid
        by (unfold ident_of_post; by rewrite Hrow).
      destruct (ri_posts db Hinv _ _ _ _ Hid) as (_ & [w Hw]).
      pose proof (ri_users db Hinv _ _ Hw). cbn in Hv. simplify_eq. lia.
    + unfold post_author in Hv.
      destruct (posts db !! PostVote.post_id v) as [row|] eqn:Hrow; [|done].
      assert (ident_of_post db (PostVote.post_id v) = Some (post_ident row)) as Hid
        by (unfold ident_of_post; by rewrite Hrow).
      destruct (ri_posts db Hinv _ _ _ _ Hid) as (_ & [w Hw]).
      pose proof (ri_users db Hinv _ _ Hw). cbn in Hv. simplify_eq. lia.
  - apply count_map_none. intros c [a f]. unfold answer_flags. rewrite lookup_fmap.
    intros Hc [Ha _]. cbn in Ha. subst a.
    destruct (comments db !! c) as [row|] eqn:Hrow; [|done].
    apply ident_of_comment_row in Hrow.
    destruct (ri_comments db Hinv _ _ _ _ _ _ Hrow) as (_ & _ & [w Hw] & _).
    pose proof (ri_users db Hinv _ _ Hw). cbn in Hc. simplify_eq. lia.
Qed.

Lemma karma_create_post ty cu db redis :
  rows_inv db →
  karma_matches_ledger db → karma_matches_ledger (store (create_post ty cu db redis)).
Proof.
  intros Hinv H.
  destruct (create_post_rows ty cu db redis) as (_ & _ & _ & _ & Hp & Hc).
  destruct (create_post_same_votes ty cu db redis) as (Hpv & Hcv & _).
  destruct (create_post_same_karma ty cu db redis) as [Hk Hf].
  intros u k. unfold karma_of. rewrite Hk, Hf.
  rewrite (vote_karma_new_rows db); [apply H|done..| |auto].
  intros p [v Hv]. rewrite Hp. case_decide; [|done]. subst p.
  destruct v as [[? a] ?]. destruct (ri_posts db Hinv _ _ _ _ Hv). lia.
Qed.

Lemma create_comment_karma p d cu db redis :
  let db' := store (create_comment p d cu db redis) in
  db' = db ∨
  ((∀ u, user_karma db' u = user_karma db u) ∧
   answer_flags db' = <[next_comment_id db := (cu, false)]> (answer_flags db)).
Proof.
  cbv zeta. unfold create_comment.
  repeat (case_match; try (by left)); right; unfold user_karma, answer_flags; frame;
    (split; [intros; by rewrite ?view_alter
            | rewrite ?fmap_alter_view by done; by rewrite fmap_insert]).
Qed.

Lemma karma_create_comment p d cu db redis :
  rows_inv db →
  karma_matches_ledger db → karma_matches_ledger (store (create_comment p d cu db redis)).
Proof.
  intros Hinv H.
  destruct (create_comment_karma p d cu db redis) as [-> | [Hk Hf]]; [done|].
  destruct (create_comment_rows p d cu db redis)
    as [-> | (_ & _ & _ & _ & _ & _ & Hp & Hc)]; [done|].
  destruct (create_comment_same_votes p d cu db redis) as (Hpv & Hcv & _).
  intros u k. unfold karma_of. rewrite Hk, Hf.
  rewrite (vote_karma_new_rows db); [|done..|auto|].
  - rewrite count_map_insert.
    + destruct (decide (accepted_answer_by u (cu, false))) as [[_ ?]|_]; [done|]. apply H.
    + unfold answer_flags. by rewrite lookup_fmap, next_comment_is_missing.
  - intros c [v Hv]. rewrite Hc. case_decide; [|done]. subst c.
    destruct v as [[[[? ?] ?] ?] ?]. destruct (ri_comments db Hinv _ _ _ _ _ _ Hv). lia.
Qed.

Lemma fmap_alter_insert {V W} (g : V → W) (f : V → V) (k : Z) (m : gmap Z V) (x : V) :
  m !! k = Some x → g <$> alter f k m = <[k := g (f x)]> (g <$> m).
Proof.
  intros Hk. apply map_eq. intros q.
  rewrite lookup_fmap, lookup_alter, lookup_insert, lookup_fmap.
  case_decide; subst; [by rewrite Hk|done].
Qed.

(** What [accept_answer] does to the accepted flags and to karma, in a store
    that satisfies [store_inv]: nothing (a rejection); it takes the flag and
    15 points from the comment's author; or it gives them, after taking
    them from the author of the answer accepted before, if any. *)
Lemma accept_answer_karma p c cu db redis :
  store_inv db →
  let db' := store (accept_answer p c cu db redis) in
  db' = db
  ∨ (∃ a, answer_flags db !! c = Some (a, true) ∧
       answer_flags db' = <[c := (a, false)]> (answer_flags db) ∧
       ∀ u, user_karma db' u
            = if decide (u = a) then (λ k, k - 15) <$> user_karma db u
              else user_karma db u)
  ∨ (∃ a, answer_flags db !! c = Some (a, false) ∧
       answer_flags db' = <[c := (a, true)]> (answer_flags db) ∧
       ∀ u, user_karma db' u
            = if decide (u = a) then (λ k, k + 15) <$> user_karma db u
              else user_karma db u)
  ∨ (∃ a old a_old, old ≠ c ∧
       answer_flags db !! c = Some (a, false) ∧
       answer_flags db !! old = Some (a_old, true) ∧
       answer_flags db' = <[c := (a, true)]> (<[old := (a_old, false)]> (answer_flags db)) ∧
       ∀ u, user_karma db' u
            = let before := if decide (u = a_old) then (λ k, k - 15) <$> user_karma db u
                            else user_karma db u in
              if decide (u = a) then (λ k, k + 15) <$> before else before).
Proof.
  intros [[Hn1 Hn2] Hpid Hcid Hacc Hflag]. cbv zeta.
  unfold accept_answer.
  destruct (query_live_post db p) as [post|] eqn:Hq; [|by left].
  apply query_live_post_Some in Hq as [Hpost _].
  destruct (negb _); [by left|].
  destruct (negb _); [by left|].
  destruct (query_live_comment_of db c p) as [comment|] eqn:Hc; [|by left].
  apply query_live_comment_of_Some in Hc as (Hcomment & Hcp & _).
  assert (Hpv : post_view db p = Some (Post.accepted_answer_id post, Post.is_answered post))
    by (unfold post_view; by rewrite Hpost).
  assert (Hcv : comment_view db c = Some (p, Comment.is_accepted comment))
    by (unfold comment_view; rewrite Hcomment; cbn; by rewrite Hcp).
  assert (Hfc : answer_flags db !! c
                = Some (Comment.author_id comment, Comment.is_accepted comment))
    by (unfold answer_flags; by rewrite lookup_fmap, Hcomment).
  destruct (Comment.is_accepted comment && _) eqn:Hcond.
  - apply andb_true_iff in Hcond as [Hflagged _]. rewrite Hflagged in Hfc.
    right; left. eexists. split; [exact Hfc|]. split.
    + unfold answer_flags. frame. by rewrite (fmap_alter_insert _ _ _ _ _ Hcomment).
    + karma_view.
  - assert (Hne : Post.accepted_answer_id post ≠ Some c).
    { intros Hsame. rewrite Hsame in Hpv. apply Hacc in Hpv.
      rewrite Hcv in Hpv. injection Hpv as Hflagged.
      rewrite Hflagged, Hsame in Hcond. by rewrite bool_decide_eq_true_2 in Hcond. }
    assert (Comment.is_accepted comment = false) as Hunflagged.
    { destruct (Comment.is_accepted comment) eqn:E; [|done].
      destruct (Hflag c p) as [b Hb]; [by rewrite Hcv|]. congruence. }
    rewrite Hunflagged in Hfc. clear Hcond.
    right; right. unfold unaccept_previous.
    destruct (Post.accepted_answer_id post) as [old|] eqn:Hold; cbn [truthy].
    + right. pose proof (Hacc _ _ _ Hpv) as Hov. pose proof (Hcid _ _ Hov) as Hpos.
      unfold comment_view in Hov.
      destruct (comments db !! old) as [orow|] eqn:Horow; [|done].
      injection Hov as Hop Hof.
      rewrite (proj2 (Z.eqb_neq old 0)) by lia. cbn [negb].
      assert (old ≠ c) by congruence.
      exists (Comment.author_id comment), old, (Comment.author_id orow).
      split_and!; [done|done| |  |].
      * unfold answer_flags. rewrite lookup_fmap, Horow. cbn. by rewrite Hof.
      * unfold answer_flags. frame.
        rewrite (fmap_alter_insert _ _ _ _ comment)
          by (by rewrite lookup_alter_ne).
        by rewrite (fmap_alter_insert _ _ _ _ _ Horow).
      * karma_view.
    + left. eexists. split; [exact Hfc|]. split.
      * unfold answer_flags. frame. by rewrite (fmap_alter_insert _ _ _ _ _ Hcomment).
      * karma_view.
Qed.

Lemma accepted_answer_by_weight u a (f : bool) :
  (if decide (accepted_answer_by u (a, f)) then 1 else 0)
  = if decide (u = a) then if f then 1 else 0 else 0.
Proof.
  destruct (decide (accepted_answer_by u (a, f))) as [[H1 H2]|Hn]; cbn in *.
  - subst. by rewrite decide_True.
  - case_decide; [|done]. destruct f; [|done]. exfalso. by apply Hn.
Qed.

Lemma karma_accept_answer p c cu db redis :
  store_inv db →
  karma_matches_ledger db → karma_matches_ledger (store (accept_answer p c cu db redis)).
Proof.
  intros Hinv H u k. unfold karma_of.
  rewrite (vote_karma_same db)
    by (apply accept_answer_rows || apply accept_answer_same_votes).
  destruct (accept_answer_karma p c cu db redis Hinv)
    as [-> | [(a & Hc & -> & Hk) | [(a & Hc & -> & Hk)
       | (a & old & a_old & Hne & Hc & Hold & -> & Hk)]]].
  - apply H.
  - rewrite Hk, (count_map_update _ _ _ _ _ Hc), !accepted_answer_by_weight.
    karma_arith H.
  - rewrite Hk, (count_map_update _ _ _ _ _ Hc), !accepted_answer_by_weight.
    karma_arith H.
  - rewrite Hk, (count_map_update _ _ _ (a, false)), (count_map_update _ _ _ _ _ Hold),
      !accepted_answer_by_weight by (by rewrite lookup_insert_ne).
    cbv zeta. karma_arith H.
Qed.

Lemma handle_karma sub req db redis :
  rows_inv db → store_inv db →
  karma_matches_ledger db → karma_matches_ledger (store (handle sub req db redis)).
Proof.
  intros Hinv Hsinv H. destruct req; cbn [handle]; rewrite store_map_outcome;
    unfold authenticated;
    try (destruct (get_current_user sub db) as [cu|]; [|done]).
  - by apply karma_register_user.
  - by apply karma_create_post.
  - eapply karma_same;
      [apply delete_post_rows|apply delete_post_same_votes|apply delete_post_same_karma|done].
  - by apply karma_create_comment.
  - by apply karma_vote_on_post.
  - by apply karma_vote_on_comment.
  - by apply karma_accept_answer.
  - eapply karma_same;
      [apply update_profile_rows|apply update_profile_same_votes
      |apply update_profile_same_karma|done].
Qed.

(** X18. In a reachable store every user's karma is what the ledger gives for
    the votes and acceptances now in the store: 10 for each upvote and -2
    for each downvote on the user's posts, 5 and -1 on the user's comments,
    and 15 for each accepted answer the user wrote. *)
Theorem karma_is_the_ledger_value_of_the_store (db : DB) (u : Z) (user : User.t) :
  reachable db →
  users db !! u = Some user →
  User.karma_score user
  = 10 * count_rows (post_vote_for db u UPVOTE) (post_votes db)
    - 2 * count_rows (post_vote_for db u DOWNVOTE) (post_votes db)
    + 5 * count_rows (comment_vote_for db u UPVOTE) (comment_votes db)
    - count_rows (comment_vote_for db u DOWNVOTE) (comment_votes db)
    + 15 * count_map (λ r, Comment.author_id r = u ∧ Comment.is_accepted r = true)
                     (comments db).
Proof.
  intros (history & redis & <-) Huser.
  assert (rows_inv (run history empty_db redis).1 ∧
          store_inv (run history empty_db redis).1 ∧
          karma_matches_ledger (run history empty_db redis).1) as (_ & _ & H).
  { apply (run_invariant (λ db, rows_inv db ∧ store_inv db ∧ karma_matches_ledger db)).
    - intros sub req db r (Hinv & Hsinv & Hk).
      split_and!; [by apply handle_rows_inv|by apply handle_store_inv|by apply handle_karma].
    - split_and!; [apply empty_db_rows_inv|apply empty_db_store_inv|done]. }
  rewrite (H u (User.karma_score user)) by (unfold user_karma; by rewrite Huser).
  unfold karma_of, vote_karma, answer_flags. cbn [Ledger.weight].
  rewrite count_map_fmap.
  rewrite (count_map_ext _ (λ r, Comment.author_id r = u ∧ Comment.is_accepted r = true))
    by done.
  lia.
Qed.

Lemma karma_is_the_ledger_value_of_the_store_witness :
  25
  = 10 * count_rows (post_vote_for busy_db 2 UPVOTE) (post_votes busy_db)
    - 2 * count_rows (post_vote_for busy_db 2 DOWNVOTE) (post_votes busy_db)
    + 5 * count_rows (comment_vote_for busy_db 2 UPVOTE) (comment_votes busy_db)
    - count_rows (comment_vote_for busy_db 2 DOWNVOTE) (comment_votes busy_db)
    + 15 * count_map (λ r, Comment.author_id r = 2 ∧ Comment.is_accepted r = true)
                     (comments busy_db).
Proof.
  apply (karma_is_the_ledger_value_of_the_store busy_db 2
           (User.mk "bob@salad.dev" "bob" "Bob" None None (Some "Bob") true 0 1 25));
    [exists busy_history, MockRedisClient; unfold busy_db; reflexivity | vm_compute; reflexivity].
Defined.

Lemma author_karma_names a d db u :
  (λ r, (User.email r, User.username r, User.display_name r))
    <$> users (author_karma a d db) !! u
  = (λ r, (User.email r, User.username r, User.display_name r)) <$> users db !! u.
Proof. destruct a as [[]|]; [|done]. cbn. by rewrite view_alter. Qed.
Lemma unaccept_previous_names post db u :
  (λ r, (User.email r, User.username r, User.display_name r))
    <$> users (unaccept_previous post db) !! u
  = (λ r, (User.email r, User.username r, User.display_name r)) <$> users db !! u.
Proof.
  unfold unaccept_previous. repeat (case_match; try done); frame.
  all: rewrite author_karma_names; cbn; by rewrite ?view_alter.
Qed.
#[export] Hint Rewrite author_karma_names unaccept_previous_names : frame.

Ltac same_names :=
  intros; unfold user_names;
  repeat (progress (cbn; autorewrite with frame; rewrite ?view_alter by done)); done.

Lemma vote_on_post_names p t cu db redis u :
  user_names (store (vote_on_post p t cu db redis)) u = user_names db u.
Proof. unfold vote_on_post. repeat (case_match; try done); same_names. Qed.
Lemma vote_on_comment_names c t cu db redis u :
  user_names (store (vote_on_comment c t cu db redis)) u = user_names db u.
Proof. unfold vote_on_comment. repeat (case_match; try done); same_names. Qed.
Lemma accept_answer_names p c cu db redis u :
  user_names (store (accept_answer p c cu db redis)) u = user_names db u.
Proof. unfold accept_answer. repeat (case_match; try done); same_names. Qed.
Lemma delete_post_names p cu db redis u :
  user_names (store (delete_post p cu db redis)) u = user_names db u.
Proof. unfold delete_post. repeat (case_match; try done); same_names. Qed.
Lemma create_post_names ty cu db redis u :
  user_names (store (create_post ty cu db redis)) u = user_names db u.
Proof. unfold create_post. same_names. Qed.
Lemma create_comment_names p d cu db redis u :
  user_names (store (create_comment p d cu db redis)) u = user_names db u.
Proof. unfold create_comment. repeat (case_match; try done); same_names. Qed.

(** [register_user] rejects, or adds a user whose three names are those of
    no row of the table. *)
Lemma register_user_names d db redis :
  let db' := store (register_user d db redis) in
  db' = db ∨
  ((∀ k row, users db !! k = Some row →
      User.email row ≠ ur_email d ∧ User.username row ≠ ur_username d ∧
      User.display_name row ≠ ur_display_name d) ∧
   ∀ u, user_names db' u
        = if decide (next_user_id db = u)
          then Some (ur_email d, ur_username d, ur_display_name d)
          else user_names db u).
Proof.
  cbv zeta. unfold register_user.
  destruct (list_find _ _) as [[? [? ?]]|] eqn:Hfind; [left; by repeat case_match|].
  right. split.
  - intros k row Hrow. apply list_find_None in Hfind.
    pose proof (proj1 (Forall_forall _ _) Hfind (k, row)) as Hno.
    cbn in Hno. rewrite elem_of_map_to_list in Hno. specialize (Hno Hrow). tauto.
  - intros u. unfold user_names. cbn. rewrite lookup_insert. by case_decide.
Qed.

Lemma display_name_not_taken db v uid :
  display_name_taken db v uid = false →
  ∀ k row, users db !! k = Some row → k ≠ uid → User.display_name row ≠ v.
Proof.
  unfold display_name_taken. intros Hno k row Hrow Hk Hname.
  apply not_true_iff_false in Hno. apply Hno.
  apply existsb_exists. exists (k, row). split.
  - apply list_elem_of_In. by apply elem_of_map_to_list.
  - cbn. apply andb_true_iff. split; [by apply String.eqb_eq|].
    by apply negb_true_iff, Z.eqb_neq.
Qed.

(** [update_profile] leaves the three names alone, or gives the requester a
    display name that no other row carries. *)
Lemma update_profile_names d cu db redis :
  let db' := store (update_profile d cu db redis) in
  (∀ u, user_names db' u = user_names db u) ∨
  ∃ v, (∀ k row, users db !! k = Some row → k ≠ cu → User.display_name row ≠ v) ∧
       ∀ u, user_names db' u
            = if decide (u = cu) then (λ n, (n.1, v)) <$> user_names db u
              else user_names db u.
Proof.
  cbv zeta. unfold update_profile.
  destruct (_ && _) eqn:Hcheck; [by left|].
  destruct (uu_display_name d) as [|[v|]] eqn:Hfield; cbn [negb].
  - left. intros u. repeat case_match; try done; unfold user_names; cbn.
    all: rewrite view_alter; [done|]; intros x; unfold apply_field;
      by repeat case_match.
  - destruct (negb (String.eqb v (display_name_of db cu))) eqn:Hsame; cbn [andb].
    + destruct (display_name_taken db v cu) eqn:Htaken; [by left|].
      right. exists v. split; [by apply display_name_not_taken|].
      intros u. repeat case_match; try done; unfold user_names; cbn.
      all: rewrite lookup_alter; repeat case_decide; subst; try done.
      all: destruct (users db !! _); cbn; [|done].
      all: unfold apply_field; by repeat case_match.
    + left. apply negb_false_iff, String.eqb_eq in Hsame.
      intros u. repeat case_match; try done; unfold user_names; cbn.
      all: rewrite lookup_alter; repeat case_decide; subst; try done.
      all: unfold display_name_of in *.
      all: destruct (users db !! _) as [row|]; cbn; [|done].
      all: unfold apply_field; repeat case_match; cbn; by subst.
  - by left.
Qed.

Lemma names_unique_same db db' :
  (∀ u, user_names db' u = user_names db u) → names_unique db → names_unique db'.
Proof. intros Hsame H u1 u2 ? ? ? ? ? ?. rewrite !Hsame. apply H. Qed.

Lemma user_names_row db u e n d :
  user_names db u = Some (e, n, d) →
  ∃ row, users db !! u = Some row ∧ User.email row = e ∧ User.username row = n ∧
         User.display_name row = d.
Proof.
  unfold user_names. intros (row & Hrow & [= ? ? ?])%fmap_Some. eauto 10.
Qed.

Lemma names_unique_register_user d db redis :
  names_unique db → names_unique (store (register_user d db redis)).
Proof.
  intros H.
  destruct (register_user_names d db redis) as [-> | [Hfresh Hnames]]; [done|].
  intros u1 u2 e1 n1 d1 e2 n2 d2. rewrite !Hnames.
  destruct (decide (next_user_id db = u1)) as [<-|H1],
           (decide (next_user_id db = u2)) as [<-|H2]; try done.
  - intros [= ? ? ?] (row & Hrow & ? & ? & ?)%user_names_row Hclash.
    destruct (Hfresh _ _ Hrow) as (? & ? & ?). exfalso. intuition congruence.
  - intros (row & Hrow & ? & ? & ?)%user_names_row [= ? ? ?] Hclash.
    destruct (Hfresh _ _ Hrow) as (? & ? & ?). exfalso. intuition congruence.
  - apply H.
Qed.

Lemma names_unique_update_profile d cu db redis :
  names_unique db → names_unique (store (update_profile d cu db redis)).
Proof.
  intros H.
  destruct (update_profile_names d cu db redis) as [Hsame | (v & Hfree & Hnames)];
    [by eapply names_unique_same|].
  intros u1 u2 e1 n1 d1 e2 n2 d2. rewrite !Hnames.
  destruct (decide (u1 = cu)) as [->|H1], (decide (u2 = cu)) as [->|H2]; try done.
  - destruct (user_names db cu) as [[[e0 n0] d0]|] eqn:E; [|done]. cbn.
    intros [= ? ? ?] Hu2 Hclash.
    destruct (user_names_row _ _ _ _ _ Hu2) as (row & Hrow & ? & ? & ?).
    destruct Hclash as [He | [Hn | Hd]].
    + symmetry. apply (H _ _ _ _ _ _ _ _ Hu2 E). left. congruence.
    + symmetry. apply (H _ _ _ _ _ _ _ _ Hu2 E). right; left. congruence.
    + exfalso. apply (Hfree _ _ Hrow H2). congruence.
  - destruct (user_names db cu) as [[[e0 n0] d0]|] eqn:E; [|done]. cbn.
    intros Hu1 [= ? ? ?] Hclash.
    destruct (user_names_row _ _ _ _ _ Hu1) as (row & Hrow & ? & ? & ?).
    destruct Hclash as [He | [Hn | Hd]].
    + apply (H _ _ _ _ _ _ _ _ Hu1 E). left. congruence.
    + apply (H _ _ _ _ _ _ _ _ Hu1 E). right; left. congruence.
    + exfalso. apply (Hfree _ _ Hrow H1). congruence.
  - apply H.
Qed.

Lemma handle_names_unique sub req db redis :
  names_unique db → names_unique (store (handle sub req db redis)).
Proof.
  intros H. destruct req; cbn [handle]; rewrite store_map_outcome;
    unfold authenticated;
    try (destruct (get_current_user sub db) as [cu|]; [|done]).
  - by apply names_unique_register_user.
  - eapply names_unique_same; [apply create_post_names|done].
  - eapply names_unique_same; [apply delete_post_names|done].
  - eapply names_unique_same; [apply create_comment_names|done].
  - eapply names_unique_same; [apply vote_on_post_names|done].
  - eapply names_unique_same; [apply vote_on_comment_names|done].
  - eapply names_unique_same; [apply accept_answer_names|done].
  - by apply names_unique_update_profile.
Qed.

(** X19. In a reachable store no two users share an email address, a username
    or a display name: registration refuses a clash on any of the three and
    a profile update refuses a display name that another row carries. *)
Theorem user_names_stay_unique (db : DB) (u1 u2 : Z) (r1 r2 : User.t) :
  reachable db →
  users db !! u1 = Some r1 → users db !! u2 = Some r2 →
  User.email r1 = User.email r2 ∨ User.username r1 = User.username r2 ∨
  User.display_name r1 = User.display_name r2 →
  u1 = u2.
Proof.
  intros (history & redis & <-) H1 H2 Hclash.
  assert (names_unique (run history empty_db redis).1) as H.
  { apply (run_invariant names_unique); [apply handle_names_unique|].
    by intros ? ? ? ? ? ? ? ?. }
  eapply (H u1 u2); [unfold user_names; by rewrite H1|unfold user_names; by rewrite H2|].
  done.
Qed.

Lemma user_names_stay_unique_witness : (2 : Z) = 2.
Proof.
  apply (user_names_stay_unique busy_db 2 2
           (User.mk "bob@salad.dev" "bob" "Bob" None None (Some "Bob") true 0 1 25)
           (User.mk "bob@salad.dev" "bob" "Bob" None None (Some "Bob") true 0 1 25));
    [exists busy_history, MockRedisClient; unfold busy_db; reflexivity | vm_compute; reflexivity
    | vm_compute; reflexivity | by left].
Defined.

Section filter_other_rows.
Context {A : Type} (P : A → Prop) `{!∀ x, Decision (P x)}.

Lemma filter_delete_other (l : list A) (i : nat) (x : A) :
  l !! i = Some x → ¬ P x → filter P (delete i l) = filter P l.
Proof.
  intros Hi Hx. rewrite delete_take_drop.
  rewrite <- (take_drop_middle l i x Hi) at 3.
  by rewrite !filter_app, filter_cons_False.
Qed.

Lemma filter_insert_other (l : list A) (i : nat) (x y : A) :
  l !! i = Some x → ¬ P x → ¬ P y → filter P (<[i := y]> l) = filter P l.
Proof.
  intros Hi Hx Hy. rewrite insert_take_drop by by eapply lookup_lt_Some.
  rewrite <- (take_drop_middle l i x Hi) at 3.
  by rewrite !filter_app, !filter_cons_False.
Qed.

Lemma filter_app_other (l : list A) (y : A) :
  ¬ P y → filter P (l ++ [y])%list = filter P l.
Proof.
  intros Hy. rewrite filter_app, filter_cons_False by done. apply app_nil_r.
Qed.
End filter_other_rows.

Lemma author_karma_other a d db u :
  fst <$> a ≠ Some u → users (author_karma a d db) !! u = users db !! u.
Proof.
  destruct a as [[v ?]|]; [|done]. cbn. intros Hne.
  rewrite lookup_alter_ne; [done|]. congruence.
Qed.

Lemma query_author_fst db a : fst <$> query_author db a = Some a ∨ query_author db a = None.
Proof. unfold query_author. destruct (users db !! a); cbn; auto. Qed.

(** The vote row a vote handler deletes or rewrites is the requester's row
    on the target. *)
Lemma vote_on_post_row p t cu db redis :
  let db' := store (vote_on_post p t cu db redis) in
  post_votes db' = post_votes db
  ∨ (∃ i x, post_votes db !! i = Some x ∧ post_vote_filter p cu x ∧
       (post_votes db' = delete i (post_votes db)
        ∨ post_votes db' = <[i := PostVote.set_vote_type t x]> (post_votes db)))
  ∨ post_votes db' = (post_votes db ++ [PostVote.mk (next_post_vote_id db) p cu t])%list.
Proof.
  cbv zeta. unfold vote_on_post.
  destruct (query_live_post db p) as [post|]; [|by left].
  destruct (list_find _ _) as [[i x]|] eqn:Hfind.
  - apply first_is_a_row in Hfind as [Hi Hx]. right; left. exists i, x.
    split_and!; [done..|].
    case_decide; [left|right]; by destruct (PostVote.vote_type x); frame.
  - right; right. by destruct t; frame.
Qed.

Lemma vote_on_comment_row c t cu db redis :
  let db' := store (vote_on_comment c t cu db redis) in
  comment_votes db' = comment_votes db
  ∨ (∃ i x, comment_votes db !! i = Some x ∧ comment_vote_filter c cu x ∧
       (comment_votes db' = delete i (comment_votes db)
        ∨ comment_votes db' = <[i := CommentVote.set_vote_type t x]> (comment_votes db)))
  ∨ comment_votes db'
    = (comment_votes db ++ [CommentVote.mk (next_comment_vote_id db) c cu t])%list.
Proof.
  cbv zeta. unfold vote_on_comment.
  destruct (query_live_comment db c) as [row|]; [|by left].
  destruct (list_find _ _) as [[i x]|] eqn:Hfind.
  - apply first_is_a_row in Hfind as [Hi Hx]. right; left. exists i, x.
    split_and!; [done..|].
    case_decide; [left|right]; by destruct (CommentVote.vote_type x); frame.
  - right; right. by destruct t; frame.
Qed.

Ltac other_rows :=
  intros; repeat (progress (cbn; autorewrite with frame));
  repeat (rewrite author_karma_other
            by (match goal with
                | |- fst <$> query_author ?d ?a ≠ _ =>
                    let E := fresh in
                    destruct (query_author_fst d a) as [E | E]; rewrite E; cbn; congruence
                end); cbn);
  rewrite ?lookup_alter_ne by congruence; try done.

(** X20. A vote touches its target and nothing else: the vote rows of every
    other user and of every other target, every other post and comment, and
    every user except the author of the target are what they were. *)
Theorem vote_touches_only_its_target (tg : Target) (t : VoteType) (current_user : Z)
    (db : DB) (redis_client : RedisClient) :
  let db' := store (vote_on tg t current_user db redis_client) in
  (∀ tg' u, (tg', u) ≠ (tg, current_user) → votes_cast tg' u db' = votes_cast tg' u db) ∧
  (∀ p, OnPost p ≠ tg → posts db' !! p = posts db !! p) ∧
  (∀ c, OnComment c ≠ tg → comments db' !! c = comments db !! c) ∧
  (∀ u, author_of tg db ≠ Some u → users db' !! u = users db !! u).
Proof.
  cbv zeta. destruct tg as [p|c]; cbn [vote_on author_of].
  - split_and!.
    + intros tg' u Hne.
      destruct (vote_on_post_votes p t current_user db redis_client) as [Hcv _].
      destruct tg' as [p'|c']; cbn [votes_cast]; [|by rewrite Hcv].
      assert (∀ x, post_vote_filter p current_user x → ¬ post_vote_filter p' u x)
        as Hother.
      { intros x [Hp Hu] [? ?]. apply Hne. congruence. }
      f_equal.
      destruct (vote_on_post_row p t current_user db redis_client)
        as [-> | [(i & x & Hi & Hx & [-> | ->]) | ->]].
      * done.
      * by apply (filter_delete_other _ _ _ x); [|apply Hother].
      * apply (filter_insert_other _ _ _ x); [done|by apply Hother|].
        apply Hother. by destruct Hx.
      * apply filter_app_other, Hother. by split.
    + intros q Hq. assert (q ≠ p) by congruence.
      unfold vote_on_post. repeat (case_match; try done); other_rows.
    + intros q _. unfold vote_on_post. repeat (case_match; try done); other_rows.
    + intros u Hu. unfold vote_on_post.
      destruct (query_live_post db p) as [post|] eqn:Hq; [|done].
      apply query_live_post_Some in Hq as [Hpost _].
      unfold post_author in Hu. rewrite Hpost in Hu. cbn in Hu.
      repeat (case_match; try done); other_rows.
  - split_and!.
    + intros tg' u Hne.
      destruct (vote_on_comment_votes c t current_user db redis_client) as [Hpv _].
      destruct tg' as [p'|c']; cbn [votes_cast]; [by rewrite Hpv|].
      assert (∀ x, comment_vote_filter c current_user x → ¬ comment_vote_filter c' u x)
        as Hother.
      { intros x [Hp Hu] [? ?]. apply Hne. congruence. }
      f_equal.
      destruct (vote_on_comment_row c t current_user db redis_client)
        as [-> | [(i & x & Hi & Hx & [-> | ->]) | ->]].
      * done.
      * by apply (filter_delete_other _ _ _ x); [|apply Hother].
      * apply (filter_insert_other _ _ _ x); [done|by apply Hother|].
        apply Hother. by destruct Hx.
      * apply filter_app_other, Hother. by split.
    + intros q _. unfold vote_on_comment. repeat (case_match; try done); other_rows.
    + intros q Hq. assert (q ≠ c) by congruence.
      unfold vote_on_comment. repeat (case_match; try done); other_rows.
    + intros u Hu. unfold vote_on_comment.
      destruct (query_live_comment db c) as [row|] eqn:Hq; [|done].
      apply query_live_comment_Some in Hq as [Hrow _].
      unfold comment_author in Hu. rewrite Hrow in Hu. cbn in Hu.
      repeat (case_match; try done); other_rows.
Qed.

(** X21. On a live post that the user has not bookmarked, two calls in a row
    add the bookmark and remove it again: the replies are "added" then
    "removed" and the rows are what they were. *)
Theorem toggle_bookmark_twice_restores_rows (post_id current_user : Z) (db : DB)
    (table : Bookmarks) :
  is_Some (query_live_post db post_id) →
  bookmarks_of post_id current_user table = [] →
  let first := toggle_bookmark post_id current_user db table in
  let second := toggle_bookmark post_id current_user db first.2 in
  first.1 = Success bookmark_added ∧
  length (bookmarks_of post_id current_user first.2) = 1%nat ∧
  second.1 = Success bookmark_removed ∧
  bookmarks second.2 = bookmarks table.
Proof.
  intros [post Hq] Hnone. cbv zeta. unfold bookmarks_of in *.
  destruct (toggle_bookmark post_id current_user db table) as [r1 t1] eqn:E1.
  unfold toggle_bookmark in E1. rewrite Hq, (first_of_no_row _ _ Hnone) in E1.
  injection E1 as <- <-. cbn [fst snd].
  split; [done|]. split.
  { cbn. rewrite filter_app, Hnone. cbn. by rewrite decide_True. }
  unfold toggle_bookmark. rewrite Hq. cbn [bookmarks next_bookmark_id].
  rewrite (first_of_appended _ _ (Bookmark.mk _ post_id current_user) Hnone) by done.
  cbn. by rewrite delete_appended.
Qed.

Lemma toggle_bookmark_twice_restores_rows_witness :
  let first := toggle_bookmark 1 3 demo_db demo_bookmarks in
  let second := toggle_bookmark 1 3 demo_db first.2 in
  first.1 = Success bookmark_added ∧
  length (bookmarks_of 1 3 first.2) = 1%nat ∧
  second.1 = Success bookmark_removed ∧
  bookmarks second.2 = bookmarks demo_bookmarks.
Proof.
  apply (toggle_bookmark_twice_restores_rows 1 3 demo_db demo_bookmarks);
    [vm_compute; eauto | vm_compute; reflexivity].
Defined.

(** X22. The reply of [toggle_bookmark] tells the state it leaves: after
    "added" the user holds exactly one bookmark on the post, after
    "removed" none; a missing or deleted post is answered 404 and nothing
    changes.  Nobody ever holds two bookmarks on a post. *)
Theorem toggle_bookmark_reply_tells_the_state (post_id current_user : Z) (db : DB)
    (table : Bookmarks) :
  one_bookmark_per_post table →
  let o := toggle_bookmark post_id current_user db table in
  one_bookmark_per_post o.2 ∧
  ((o.1 = Success bookmark_added ∧
    length (bookmarks_of post_id current_user o.2) = 1%nat)
   ∨ (o.1 = Success bookmark_removed ∧ bookmarks_of post_id current_user o.2 = [])
   ∨ (o.1 = HTTPException 404 "Post not found" ∧ o.2 = table ∧
      query_live_post db post_id = None)).
Proof.
  intros Hone. cbv zeta. unfold toggle_bookmark.
  destruct (query_live_post db post_id) as [post|]; [|by split; [|right; right]].
  destruct (list_find _ _) as [[i x]|] eqn:Hfind; cbn [fst snd].
  - split.
    + intros p u. unfold bookmarks_of. cbn.
      pose proof (rows_after_delete (bookmark_filter p u) (bookmarks table) i).
      specialize (Hone p u). unfold bookmarks_of in Hone. lia.
    + right; left. split; [done|]. unfold bookmarks_of. cbn.
      specialize (Hone post_id current_user). unfold bookmarks_of in Hone.
      destruct (filter _ (bookmarks table)) as [|y [|z l]] eqn:Hrows.
      * apply first_of_no_row in Hrows. congruence.
      * destruct (first_of_one_row _ _ _ Hrows) as (j & Hj & Hdel & _).
        by simplify_eq.
      * cbn in Hone. lia.
  - apply no_row_of_first in Hfind. split.
    + intros p u. unfold bookmarks_of. cbn. rewrite filter_app, length_app. cbn.
      specialize (Hone p u). unfold bookmarks_of in Hone.
      case_decide as Hnew; cbn; [|lia].
      destruct Hnew as [<- <-]; cbn in *. rewrite Hfind. cbn. lia.
    + left. split; [done|]. unfold bookmarks_of. cbn.
      rewrite filter_app, Hfind. cbn. by rewrite decide_True.
Qed.

Lemma toggle_bookmark_reply_tells_the_state_witness :
  let o := toggle_bookmark 1 2 demo_db demo_bookmarks in
  one_bookmark_per_post o.2 ∧
  ((o.1 = Success bookmark_added ∧ length (bookmarks_of 1 2 o.2) = 1%nat)
   ∨ (o.1 = Success bookmark_removed ∧ bookmarks_of 1 2 o.2 = [])
   ∨ (o.1 = HTTPException 404 "Post not found" ∧ o.2 = demo_bookmarks ∧
      query_live_post demo_db 1 = None)).
Proof.
  apply (toggle_bookmark_reply_tells_the_state 1 2 demo_db demo_bookmarks).
  intros p u. unfold bookmarks_of. cbn. case_decide; cbn; lia.
Defined.

Lemma redis_get_ok (r : Redis) (key : string) :
  (∀ n, fault r n = false) →
  redis_get key (RealRedis r)
  = (Some (entries r !! key), RealRedis (mkRedis (entries r) (fault r) (S (calls r)))).
Proof. intros Hok. unfold redis_get, on_real, redis_call. by rewrite Hok. Qed.

Lemma redis_setex_ok (r : Redis) (key value : string) :
  (∀ n, fault r n = false) →
  try_except (redis_setex key value) (RealRedis r)
  = RealRedis (mkRedis (<[key := value]> (entries r)) (fault r) (S (calls r))).
Proof. intros Hok. unfold try_except, redis_setex, on_real, redis_call. by rewrite Hok. Qed.

Section availability_facts.
Context (json_dumps : PyDict → string) (json_loads : string → option PyDict).

Lemma answer_cached_hit (cache_key cached_data : string) (result cached : PyDict)
    (r : Redis) :
  (∀ n, fault r n = false) →
  entries r !! cache_key = Some cached_data →
  json_loads cached_data = Some cached →
  answer_cached json_dumps json_loads cache_key result (RealRedis r)
  = (cached, RealRedis (mkRedis (entries r) (fault r) (S (calls r)))).
Proof.
  intros Hok Hentry Hloads. unfold answer_cached, cached_reply.
  by rewrite redis_get_ok, Hentry, Hloads.
Qed.

Lemma answer_cached_miss (cache_key : string) (result : PyDict) (r : Redis) :
  (∀ n, fault r n = false) →
  (entries r !! cache_key) ≫= json_loads = None →
  answer_cached json_dumps json_loads cache_key result (RealRedis r)
  = (result, RealRedis (mkRedis (<[cache_key := json_dumps result]> (entries r))
                                (fault r) (S (S (calls r))))).
Proof.
  intros Hok Hmiss. unfold answer_cached, cached_reply. rewrite redis_get_ok by done.
  destruct (entries r !! cache_key) as [cached_data|]; cbn in Hmiss;
    rewrite ?Hmiss; by rewrite redis_setex_ok.
Qed.

(** With a cache that answers every call, a second reading of [cache_key]
    gets the reply of the first, whatever [result] the store would give by
    then. *)
Lemma answer_cached_again (cache_key : string) (result result' : PyDict) (r : Redis) :
  (∀ n, fault r n = false) →
  let first := answer_cached json_dumps json_loads cache_key result (RealRedis r) in
  json_loads (json_dumps first.1) = Some first.1 →
  (answer_cached json_dumps json_loads cache_key result' first.2).1 = first.1.
Proof.
  intros Hok. cbv zeta.
  destruct ((entries r !! cache_key) ≫= json_loads) as [cached|] eqn:Hhit.
  - apply bind_Some in Hhit as (cached_data & Hentry & Hloads).
    rewrite (answer_cached_hit _ _ _ _ _ Hok Hentry Hloads). cbn [fst snd].
    intros _. by rewrite (answer_cached_hit _ cached_data _ cached).
  - rewrite (answer_cached_miss _ _ _ Hok Hhit). cbn [fst snd]. intros Hround.
    rewrite (answer_cached_hit _ (json_dumps result) _ result); try done.
    cbn. apply lookup_insert_eq.
Qed.

(** X23. While its entry lives in a cache that answers every call, an
    availability check repeats its earlier reply, whatever has happened to
    the store since: the second reply is the first one. *)
Theorem availability_check_repeats_its_cached_reply (which : NameCheck)
    (value : string) (db db' : DB) (r : Redis) :
  (∀ n, fault r n = false) →
  let first := check_availability json_dumps json_loads which value db (RealRedis r) in
  json_loads (json_dumps first.1) = Some first.1 →
  (check_availability json_dumps json_loads which value db' first.2).1 = first.1.
Proof.
  intros Hok. destruct which; cbn [check_availability];
    unfold check_email_availability, check_username_availability,
      check_display_name_availability; cbv zeta; by apply answer_cached_again.
Qed.

Lemma user_with_false (column : User.t → string) (value : string) (db : DB) :
  (∀ k row, users db !! k = Some row → column row ≠ value) →
  user_with column value db = false.
Proof.
  intros Hno. apply not_true_iff_false. unfold user_with.
  intros ([k row] & Hin & Heq)%existsb_exists.
  apply list_elem_of_In, elem_of_map_to_list in Hin.
  apply String.eqb_eq in Heq. by apply (Hno k row).
Qed.

Lemma user_with_true (column : User.t → string) (db : DB) (k : Z) (row : User.t) :
  users db !! k = Some row → user_with column (column row) db = true.
Proof.
  intros Hrow. apply existsb_exists. exists (k, row). split.
  - by apply list_elem_of_In, elem_of_map_to_list.
  - apply String.eqb_refl.
Qed.

(** X24. Registration does not reach the cached availability of the names it
    takes (its sweep stops at [next(get_redis())]): an email address that
    was checked and then registered is still reported available, although a
    row of the store now carries it. *)
Theorem registered_email_is_still_reported_available (user_data : UserRegistration)
    (db : DB) (r : Redis) :
  (∀ n, fault r n = false) →
  entries r !! ("auth:email:" +:+ ur_email user_data) = None →
  let reply := [("email", PStr (ur_email user_data)); ("available", PBool true)] in
  json_loads (json_dumps reply) = Some reply →
  let first :=
    check_email_availability json_dumps json_loads (ur_email user_data) db (RealRedis r) in
  let o := register_user user_data db first.2 in
  is_success (response o) →
  first.1 = reply ∧
  user_with User.email (ur_email user_data) (store o) = true ∧
  (check_email_availability json_dumps json_loads (ur_email user_data)
     (store o) (cache o)).1 = reply.
Proof.
  intros Hok Hentry reply Hround. cbv zeta.
  unfold check_email_availability. cbv zeta.
  rewrite !(answer_cached_miss _ _ _ Hok) by (by rewrite Hentry). cbn [fst snd].
  unfold register_user.
  destruct (list_find _ _) as [[? [? ?]]|] eqn:Hfind; [by repeat case_match|].
  intros _. cbn [store cache response fst snd].
  apply list_find_None in Hfind.
  assert (user_with User.email (ur_email user_data) db = false) as Hfree.
  { apply user_with_false. intros k row Hrow Heq.
    pose proof (proj1 (Forall_forall _ _) Hfind (k, row)) as Hno.
    rewrite elem_of_map_to_list in Hno. apply (Hno Hrow). by left. }
  rewrite Hfree. cbn [negb]. split; [done|]. split.
  - apply (user_with_true User.email _ (next_user_id db)
             (User.mk (ur_email user_data) (ur_username user_data)
                (ur_display_name user_data) (ur_full_name user_data) (ur_bio user_data)
                (Some (ur_display_name user_data)) true 0 0 0)).
    cbn. apply lookup_insert_eq.
  - unfold try_except, register_sweep. cbn.
    erewrite answer_cached_hit; [done|done| |exact Hround].
    cbn. apply lookup_insert_eq.
Qed.
End availability_facts.

Lemma availability_check_repeats_its_cached_reply_witness :
  (check_availability demo_dumps demo_loads CheckEmail "dave@salad.dev"
     (store (register_user dave demo_db MockRedisClient))
     (check_availability demo_dumps demo_loads CheckEmail "dave@salad.dev" demo_db
        (RealRedis empty_redis)).2).1
  = [("email", PStr "dave@salad.dev"); ("available", PBool true)].
Proof.
  apply (availability_check_repeats_its_cached_reply demo_dumps demo_loads CheckEmail
           "dave@salad.dev" demo_db (store (register_user dave demo_db MockRedisClient))
           empty_redis); [done | vm_compute; reflexivity].
Defined.

Lemma registered_email_is_still_reported_available_witness :
  let reply := [("email", PStr "dave@salad.dev"); ("available", PBool true)] in
  let first := check_email_availability demo_dumps demo_loads "dave@salad.dev" demo_db
                 (RealRedis empty_redis) in
  let o := register_user dave demo_db first.2 in
  first.1 = reply ∧
  user_with User.email "dave@salad.dev" (store o) = true ∧
  (check_email_availability demo_dumps demo_loads "dave@salad.dev" (store o) (cache o)).1
  = reply.
Proof.
  apply (registered_email_is_still_reported_available demo_dumps demo_loads dave demo_db
           empty_redis); [done | done | vm_compute; reflexivity | vm_compute; exact I].
Defined.
